(** * Structural ingestion pipeline (ingest_structure.py): a shallow embedding

    The development follows the source file top to bottom: the Python
    string and [os.path] operations the code calls, the three structural
    extractors ([parse_python_file], [parse_with_treesitter],
    [parse_js_like_file]) with their router [parse_any_file], the graph
    writer [GraphIngestor], the two-pass runner [run_ingestion] and
    [main].  The script splitter of upload_schema.py follows.

    Conventions.  A Python [str] is a [string]; the characters are the code
    points below 256.  Paths follow [posixpath] (the separator is "/").
    A Python dict with fixed keys is a record, the dict
    [func_name_to_file] is a [gmap string string], a Python list is a
    [list].  An uncaught Python exception is the [Raise] outcome of the
    [result] type; a function that returns [None] returns [None] inside
    [Ok].  The lines printed by [run_ingestion] are part of its result; the
    diagnostic [print]s of the extractors and the tally [SKIPPED_COUNTS]
    are passed along in the section on [main], which gives the whole
    output.  Limits of the interpreter (recursion
    depth, memory) and failures of the graph store are outside the model.

    The embedding comes first, then the vocabulary of the statements and
    the example trees, then the lemmas, the claims C1 to C10, and last
    further properties of the pipeline and of the uploader. *)

From Stdlib Require Import List Ascii String Arith Lia Bool.
From Stdlib Require Import Sorted.
From Stdlib Require OrderedTypeEx.
From stdpp Require Import base option list strings gmap fin_maps.
Import ListNotations.

Local Open Scope string_scope.
Local Open Scope list_scope.
Local Set Warnings "-register-all".

(** ** Outcomes of fallible code *)

Inductive exn : Type := ValueError.

Inductive result (A : Type) : Type :=
| Ok (a : A)
| Raise (e : exn).
Arguments Ok {A} a.
Arguments Raise {A} e.

Definition rbind {A B} (r : result A) (k : A -> result B) : result B :=
  match r with
  | Ok a => k a
  | Raise e => Raise e
  end.

Notation "'try!' x <- r ; k" := (rbind r (fun x => k))
  (at level 10, x pattern, r at level 100, k at level 200).

(** A [for] loop whose body may raise. *)
Fixpoint for_each {A S} (body : S -> A -> result S) (xs : list A) (s : S)
  : result S :=
  match xs with
  | [] => Ok s
  | x :: xs' => try! s' <- body s x; for_each body xs' s'
  end.

(** ** Python [str] operations used by the pipeline *)

Module Str.

Definition chars := list ascii.

Definition of_chars : chars -> string := string_of_list_ascii.
Definition to_chars : string -> chars := list_ascii_of_string.

Definition ascii_eqb (a b : ascii) : bool := Ascii.eqb a b.

(** [str.lower] on the ASCII letters.  Every other character is left as
    it is; no character outside A-Z lower-cases to a letter of a
    recognised extension. *)
Definition lower_ascii (c : ascii) : ascii :=
  let n := nat_of_ascii c in
  if Nat.leb 65 n && Nat.leb n 90 then ascii_of_nat (n + 32) else c.

Definition lower (s : string) : string :=
  of_chars (List.map lower_ascii (to_chars s)).

(** [str.isspace] for one character: TAB..CR, FS..US, SPACE, NEL, NBSP. *)
Definition is_space (c : ascii) : bool :=
  let n := nat_of_ascii c in
  (Nat.leb 9 n && Nat.leb n 13) || (Nat.leb 28 n && Nat.leb n 32)
  || Nat.eqb n 133 || Nat.eqb n 160.

Fixpoint drop_while (p : ascii -> bool) (l : chars) : chars :=
  match l with
  | [] => []
  | c :: l' => if p c then drop_while p l' else l
  end.

Definition lstrip_by (p : ascii -> bool) (l : chars) : chars :=
  drop_while p l.
Definition rstrip_by (p : ascii -> bool) (l : chars) : chars :=
  rev (drop_while p (rev l)).

(** [s.strip()] *)
Definition strip (s : string) : string :=
  of_chars (rstrip_by is_space (lstrip_by is_space (to_chars s))).

(** [s.rstrip(c)] for a one-character argument *)
Definition rstrip_char (c : ascii) (s : string) : string :=
  of_chars (rstrip_by (ascii_eqb c) (to_chars s)).

(** [s.replace(a, b)] for one-character [a] and [b] *)
Definition replace_char (a b : ascii) (s : string) : string :=
  of_chars (List.map (fun c => if ascii_eqb c a then b else c) (to_chars s)).

Fixpoint starts_with (p l : chars) : bool :=
  match p, l with
  | [], _ => true
  | _ :: _, [] => false
  | a :: p', b :: l' => ascii_eqb a b && starts_with p' l'
  end.

Definition startswith (s p : string) : bool :=
  starts_with (to_chars p) (to_chars s).
Definition endswith (s p : string) : bool :=
  starts_with (rev (to_chars p)) (rev (to_chars s)).

(** [s.split(c)]: the pieces between the occurrences of [c]; never the
    empty list. *)
Fixpoint split_chars (c : ascii) (l : chars) : list chars :=
  match l with
  | [] => [[]]
  | x :: l' =>
      if ascii_eqb x c then [] :: split_chars c l'
      else match split_chars c l' with
           | [] => [[x]]
           | w :: ws => (x :: w) :: ws
           end
  end.

(** [c.join(parts)] *)
Fixpoint join_chars (c : ascii) (parts : list chars) : chars :=
  match parts with
  | [] => []
  | [w] => w
  | w :: ws => w ++ c :: join_chars c ws
  end.

(** [".".join(parts)] on strings *)
Definition join (sep : string) (parts : list string) : string :=
  String.concat sep parts.

(** Truthiness of a [str]: the empty string is falsy. *)
Definition truthy (s : string) : bool :=
  match s with
  | EmptyString => false
  | String _ _ => true
  end.

(** [s.rfind(c)] as the number of characters before the last [c]. *)
Fixpoint rfind_from (c : ascii) (l : chars) (i : nat) (found : option nat)
  : option nat :=
  match l with
  | [] => found
  | x :: l' =>
      rfind_from c l' (S i) (if ascii_eqb x c then Some i else found)
  end.
Definition rfind (c : ascii) (l : chars) : option nat :=
  rfind_from c l 0 None.

End Str.

(** ** [posixpath] *)

Module os_path.
Import Str.

Definition sep : ascii := "/"%char.
Definition extsep : ascii := "."%char.
Definition curdir : chars := ["."%char].
Definition pardir : chars := ["."%char; "."%char].

(** [join(a, b)] *)
Definition join_l (a b : chars) : chars :=
  if starts_with [sep] b then b
  else match a with
       | [] => b
       | _ => if starts_with [sep] (rev a) then a ++ b else a ++ sep :: b
       end.
Definition join (a b : string) : string :=
  of_chars (join_l (to_chars a) (to_chars b)).

Definition chars_eqb (a b : chars) : bool :=
  String.eqb (of_chars a) (of_chars b).

(** One round of the component loop of [normpath]. *)
Definition normpath_step (initial_slashes : nat)
    (new_comps : list chars) (comp : chars) : list chars :=
  if chars_eqb comp [] || chars_eqb comp curdir then new_comps
  else if negb (chars_eqb comp pardir)
          || (Nat.eqb initial_slashes 0 && Nat.eqb (length new_comps) 0)
          || match last new_comps with
             | Some l => chars_eqb l pardir
             | None => false
             end
       then new_comps ++ [comp]
       else removelast new_comps.

Definition normpath_l (path : chars) : chars :=
  match path with
  | [] => curdir
  | _ =>
      let initial_slashes :=
        if starts_with [sep] path then
          if starts_with [sep; sep] path && negb (starts_with [sep; sep; sep] path)
          then 2 else 1
        else 0 in
      let comps := split_chars sep path in
      let new_comps := fold_left (normpath_step initial_slashes) comps [] in
      let path' := repeat sep initial_slashes ++ join_chars sep new_comps in
      match path' with
      | [] => curdir
      | _ => path'
      end
  end.

(** [abspath(path)], with [cwd] the value of [os.getcwd()]. *)
Definition abspath_l (cwd path : chars) : chars :=
  normpath_l (if starts_with [sep] path then path else join_l cwd path).

Definition nonempty_comps (l : chars) : list chars :=
  List.filter (fun x => negb (chars_eqb x [])) (split_chars sep l).

(** Length of the common prefix of two component lists. *)
Fixpoint commonprefix_len (a b : list chars) : nat :=
  match a, b with
  | x :: a', y :: b' => if chars_eqb x y then S (commonprefix_len a' b') else 0
  | _, _ => 0
  end.

(** [relpath(path, start)]; [ValueError] on the empty path. *)
Definition relpath_l (cwd path start : chars) : result chars :=
  match path with
  | [] => Raise ValueError
  | _ =>
      let start_list := nonempty_comps (abspath_l cwd start) in
      let path_list := nonempty_comps (abspath_l cwd path) in
      let i := commonprefix_len start_list path_list in
      let rel_list := repeat pardir (length start_list - i) ++ skipn i path_list in
      match rel_list with
      | [] => Ok curdir
      | _ => Ok (join_chars sep rel_list)
      end
  end.

Definition relpath (cwd path start : string) : result string :=
  try! r <- relpath_l (to_chars cwd) (to_chars path) (to_chars start);
  Ok (of_chars r).

(** [basename(p)] *)
Definition basename (p : string) : string :=
  let l := to_chars p in
  match rfind sep l with
  | Some i => of_chars (skipn (S i) l)
  | None => p
  end.

(** [splitext(p)]: a dot that only follows leading dots of the last
    component does not start an extension. *)
Definition splitext (p : string) : string * string :=
  let l := to_chars p in
  let filenameIndex := match rfind sep l with Some i => S i | None => 0 end in
  match rfind extsep l with
  | Some dotIndex =>
      if Nat.leb filenameIndex dotIndex
         && existsb (fun c => negb (ascii_eqb c extsep))
              (firstn (dotIndex - filenameIndex) (skipn filenameIndex l))
      then (of_chars (firstn dotIndex l), of_chars (skipn dotIndex l))
      else (p, "")
  | None => (p, "")
  end.

End os_path.

(** ** The canonical records

    Each extractor returns a dict with the keys [file], [functions],
    [classes], [imports], [function_calls] and [endpoints]. *)

Record file_info := mk_file_info { fi_path : string; fi_name : string }.
Record func_info := mk_func_info { fn_name : string; fn_file : string }.
Record class_info := mk_class_info {
  cls_name : string; cls_bases : list string; cls_file : string }.
Record call_info := mk_call_info {
  fc_caller : option string;
  fc_caller_file : string;
  fc_called : string;
  fc_called_file : option string }.
Record endpoint_info := mk_endpoint_info {
  ep_name : string; ep_file : string; ep_decorator : string }.

Record parsed := mk_parsed {
  p_file : file_info;
  p_functions : list func_info;
  p_classes : list class_info;
  p_imports : list string;
  p_function_calls : list call_info;
  p_endpoints : list endpoint_info }.

(** ** Python syntax trees

    The node classes [parse_python_file] tests with [isinstance], and
    [Other] for every other class ([Module], [AsyncFunctionDef], [Expr],
    [arguments], [keyword], ...), with its child nodes in [_fields] order.
    The leaf nodes [alias] and the expression contexts ([Load], [Store])
    match no test of the extractor and have no children; they are left
    out of the children lists. *)

Inductive AST : Type :=
| Import (names : list string)
| ImportFrom (module : option string) (names : list string)
| ClassDef (name : string) (bases keywords body decorator_list rest : list AST)
| FunctionDef (name : string) (args : AST) (body decorator_list rest : list AST)
| Name (id : string)
| Attribute (value : AST) (attr : string)
| Call (func : AST) (args keywords : list AST)
| Other (cls : string) (children : list AST).

(** [ast.iter_child_nodes]: the child nodes, field by field. *)
Definition iter_child_nodes (node : AST) : list AST :=
  match node with
  | Import _ | ImportFrom _ _ | Name _ => []
  | ClassDef _ bases keywords body decorator_list rest =>
      bases ++ keywords ++ body ++ decorator_list ++ rest
  | FunctionDef _ args body decorator_list rest =>
      args :: body ++ decorator_list ++ rest
  | Attribute value _ => [value]
  | Call func args keywords => func :: args ++ keywords
  | Other _ children => children
  end.

Fixpoint ast_size (node : AST) : nat :=
  let sizes := fun l => list_sum (List.map ast_size l) in
  match node with
  | Import _ | ImportFrom _ _ | Name _ => 1
  | ClassDef _ bases keywords body decorator_list rest =>
      S (sizes bases + sizes keywords + sizes body + sizes decorator_list
         + sizes rest)
  | FunctionDef _ args body decorator_list rest =>
      S (ast_size args + sizes body + sizes decorator_list + sizes rest)
  | Attribute value _ => S (ast_size value)
  | Call func args keywords => S (ast_size func + sizes args + sizes keywords)
  | Other _ children => S (sizes children)
  end.

Definition queue_size (todo : list AST) : nat := list_sum (List.map ast_size todo).

(** [ast.walk]: breadth first, [todo] is the deque.  One unit of [fuel] is
    spent per node taken from the queue. *)
Fixpoint walk_queue (fuel : nat) (todo : list AST) : list AST :=
  match fuel with
  | 0 => []
  | S fuel' =>
      match todo with
      | [] => []
      | node :: todo' => node :: walk_queue fuel' (todo' ++ iter_child_nodes node)
      end
  end.

Definition walk (node : AST) : list AST := walk_queue (ast_size node) [node].

(** The dotted name of an attribute chain: the loop
    [while isinstance(curr, ast.Attribute): parts.insert(0, curr.attr)]
    followed by [if isinstance(curr, ast.Name): parts.insert(0, curr.id)]. *)
Fixpoint attr_parts (curr : AST) : list string :=
  match curr with
  | Attribute value attr => attr_parts value ++ [attr]
  | Name id => [id]
  | _ => []
  end.

Definition dotted (node : AST) : string := Str.join "." (attr_parts node).

(** ** The environment of a run

    Everything the pipeline obtains from outside the source file: the
    module-level configuration, the file system, and the three parsing
    libraries.  A reader that raises is [None]. *)

Inductive TSNode : Type :=
| TSN (type : string) (text : string) (name_field : option nat)
      (children : list TSNode).

Record Env := mk_env {
  cwd : string;                      (* os.getcwd() *)
  REPO_ROOT : string;                (* module constant *)
  os_walk : string -> list (string * list string * list string);
  isfile : string -> bool;           (* os.path.isfile *)
  read_utf8 : string -> option string;        (* open(p,'r',encoding='utf-8').read() *)
  read_utf8_ignore : string -> option string; (* the same with errors='ignore' *)
  read_bytes : string -> option string;       (* open(p,'rb').read() *)
  ast_parse : string -> option AST;           (* ast.parse; None when it raises *)
  ast_dump : AST -> string;                   (* ast.dump *)
  (* LANGUAGE_PARSERS.get(lang_key); a parser is None when parse raises *)
  LANGUAGE_PARSERS : string -> option (string -> option TSNode);
  (* group 1 of every match of re.finditer, in order, for the six patterns
     of parse_js_like_file *)
  re_import : string -> list string;
  re_require : string -> list string;
  re_function_decl : string -> list string;
  re_function_assign : string -> list string;
  re_class_decl : string -> list string;
  re_call : string -> list string }.

(** [os.path.relpath(filepath, start).replace(os.sep, "/")] *)
Definition rel_path_of (env : Env) (filepath start : string) : result string :=
  try! r <- os_path.relpath (cwd env) filepath start;
  Ok (Str.replace_char os_path.sep "/" r).

(** ** [parse_python_file] *)

Section Python.
Variable rel_path : string.

Definition is_http_verb (dec_name : string) : bool :=
  existsb (String.eqb dec_name) ["get"; "post"; "put"; "delete"; "patch"].

(** The body of [for dec in node.decorator_list]. *)
Definition endpoint_of_decorator (fname : string) (dec : AST)
  : list endpoint_info :=
  match dec with
  | Call (Attribute _ attr) _ _ =>
      let dec_name := Str.lower attr in
      if is_http_verb dec_name
      then [mk_endpoint_info fname rel_path dec_name]
      else []
  | _ => []
  end.

Definition base_name (dump : AST -> string) (base : AST) : string :=
  match base with
  | Name id => id
  | Attribute _ _ => dotted base
  | _ => dump base
  end.

Definition import_from_names (module : option string) (names : list string)
  : list string :=
  let module := default "" module in
  List.map (fun alias =>
    if Str.truthy module then (module ++ "." ++ alias)%string else alias) names.

(** The lists filled by the first loop. *)
Record py_acc := mk_py_acc {
  acc_functions : list func_info;
  acc_classes : list class_info;
  acc_imports : list string;
  acc_endpoints : list endpoint_info;
  acc_func_defs : list (AST * func_info) }.

Definition py_visit (dump : AST -> string) (acc : py_acc) (node : AST) : py_acc :=
  match node with
  | Import names =>
      mk_py_acc (acc_functions acc) (acc_classes acc)
        (acc_imports acc ++ names) (acc_endpoints acc) (acc_func_defs acc)
  | ImportFrom module names =>
      mk_py_acc (acc_functions acc) (acc_classes acc)
        (acc_imports acc ++ import_from_names module names)
        (acc_endpoints acc) (acc_func_defs acc)
  | ClassDef name bases _ _ _ _ =>
      mk_py_acc (acc_functions acc)
        (acc_classes acc
         ++ [mk_class_info name (List.map (base_name dump) bases) rel_path])
        (acc_imports acc) (acc_endpoints acc) (acc_func_defs acc)
  | FunctionDef name _ _ decorator_list _ =>
      mk_py_acc
        (acc_functions acc ++ [mk_func_info name rel_path])
        (acc_classes acc) (acc_imports acc)
        (acc_endpoints acc
         ++ flat_map (endpoint_of_decorator name) decorator_list)
        (acc_func_defs acc ++ [(node, mk_func_info name rel_path)])
  | _ => acc
  end.

(** The name a call expression is recorded under, or [None]. *)
Definition called_name (sub : AST) : option string :=
  match sub with
  | Call (Name id) _ _ => Some id
  | Call (Attribute value attr) _ _ => Some (dotted (Attribute value attr))
  | _ => None
  end.

(** The body of [for sub in ast.walk(func_node)]. *)
Definition call_of_sub (caller_info : func_info) (sub : AST) : list call_info :=
  match called_name sub with
  | Some called =>
      if Str.truthy called
      then [mk_call_info (Some (fn_name caller_info)) (fn_file caller_info)
              called None]
      else []
  | None => []
  end.

Definition calls_of_func_def (fd : AST * func_info) : list call_info :=
  flat_map (call_of_sub (snd fd)) (walk (fst fd)).

Definition python_extract (dump : AST -> string) (fname : string) (tree : AST)
  : parsed :=
  let acc := fold_left (py_visit dump) (walk tree) (mk_py_acc [] [] [] [] []) in
  mk_parsed (mk_file_info rel_path fname)
    (acc_functions acc) (acc_classes acc) (acc_imports acc)
    (flat_map calls_of_func_def (acc_func_defs acc))
    (acc_endpoints acc).

End Python.

Definition parse_python_file (env : Env) (filepath : string)
  : result (option parsed) :=
  match read_utf8 env filepath with
  | None => Ok None
  | Some source =>
      match ast_parse env source with
      | None => Ok None
      | Some tree =>
          try! rel_path <- rel_path_of env filepath (REPO_ROOT env);
          Ok (Some (python_extract rel_path (ast_dump env)
                      (os_path.basename filepath) tree))
      end
  end.

(** ** [parse_with_treesitter] *)

Definition ts_type (n : TSNode) : string := let 'TSN t _ _ _ := n in t.
(** [source_bytes[n.start_byte:n.end_byte].decode("utf-8", errors="ignore")] *)
Definition ts_text (n : TSNode) : string := let 'TSN _ s _ _ := n in s.
Definition ts_children (n : TSNode) : list TSNode := let 'TSN _ _ _ c := n in c.
(** [n.child_by_field_name("name")] *)
Definition ts_name_node (n : TSNode) : option TSNode :=
  let 'TSN _ _ f c := n in
  match f with
  | Some i => c !! i
  | None => None
  end.

Definition type_in (n : TSNode) (types : list string) : bool :=
  existsb (String.eqb (ts_type n)) types.

Definition ts_import_types := ["import_statement"; "import_clause"; "import_declaration"].
Definition ts_function_types := ["function_declaration"; "method_definition"; "arrow_function"].
Definition ts_class_types := ["class_declaration"; "class_definition"].
Definition ts_call_types := ["call_expression"; "call"; "member_expression"].
Definition ts_heritage_types := ["extends_clause"; "heritage_clause"; "superclass"].

(** The generator [walk(node)]: every proper descendant, depth first, each
    with its chain of [parent] links (nearest first). *)
Fixpoint ts_walk (parents : list TSNode) (node : TSNode)
  : list (TSNode * list TSNode) :=
  match node with
  | TSN _ _ _ children =>
      flat_map (fun child =>
                  (child, node :: parents) :: ts_walk (node :: parents) child)
               children
  end.

(** Text of the first child of type [identifier], if any. *)
Definition first_identifier (n : TSNode) : option string :=
  ts_text <$> List.find (fun c => String.eqb (ts_type c) "identifier") (ts_children n).

(** The loop [while tmp: ... tmp = tmp.parent] over the node and its
    ancestors: it stops at the first function-like node, named or not. *)
Fixpoint find_caller (chain : list TSNode) : option string :=
  match chain with
  | [] => None
  | tmp :: up =>
      if type_in tmp ts_function_types
      then ts_text <$> ts_name_node tmp
      else find_caller up
  end.

Section TreeSitter.
Variable rel_path : string.

Record ts_acc := mk_ts_acc {
  tacc_functions : list func_info;
  tacc_classes : list class_info;
  tacc_imports : list string;
  tacc_function_calls : list call_info }.

Definition ts_function_name (node : TSNode) : option string :=
  match ts_name_node node with
  | Some name_node => Some (ts_text name_node)
  | None => first_identifier node
  end.

Definition ts_class_bases (node : TSNode) : list string :=
  flat_map (fun c =>
    if type_in c ts_heritage_types
    then List.map ts_text
           (List.filter (fun b => String.eqb (ts_type b) "identifier")
              (ts_children c))
    else []) (ts_children node).

Definition ts_visit (acc : ts_acc) (item : TSNode * list TSNode) : ts_acc :=
  let '(node, parents) := item in
  if type_in node ts_import_types then
    mk_ts_acc (tacc_functions acc) (tacc_classes acc)
      (tacc_imports acc ++ [Str.strip (ts_text node)]) (tacc_function_calls acc)
  else if type_in node ts_function_types then
    match ts_function_name node with
    | Some fname =>
        if Str.truthy fname
        then mk_ts_acc (tacc_functions acc ++ [mk_func_info fname rel_path])
               (tacc_classes acc) (tacc_imports acc) (tacc_function_calls acc)
        else acc
    | None => acc
    end
  else if type_in node ts_class_types then
    let cname := default "UnknownClass" (ts_text <$> ts_name_node node) in
    mk_ts_acc (tacc_functions acc)
      (tacc_classes acc ++ [mk_class_info cname (ts_class_bases node) rel_path])
      (tacc_imports acc) (tacc_function_calls acc)
  else if type_in node ts_call_types then
    match first_identifier node with
    | Some called =>
        if Str.truthy called then
          match find_caller (node :: parents) with
          | Some caller =>
              if Str.truthy caller
              then mk_ts_acc (tacc_functions acc) (tacc_classes acc)
                     (tacc_imports acc)
                     (tacc_function_calls acc
                      ++ [mk_call_info (Some caller) rel_path called None])
              else acc
          | None => acc
          end
        else acc
    | None => acc
    end
  else acc.

Definition ts_extract (fname : string) (root : TSNode) : parsed :=
  let acc := fold_left ts_visit (ts_walk [] root) (mk_ts_acc [] [] [] []) in
  mk_parsed (mk_file_info rel_path fname)
    (tacc_functions acc) (tacc_classes acc) (tacc_imports acc)
    (tacc_function_calls acc) [].

End TreeSitter.

(** With no parser for [lang_key] the function counts the file in
    [SKIPPED_COUNTS] and returns [None]. *)
Definition parse_with_treesitter (env : Env) (filepath lang_key : string)
  : result (option parsed) :=
  match LANGUAGE_PARSERS env lang_key with
  | None => Ok None
  | Some parser =>
      match read_bytes env filepath with
      | None => Ok None
      | Some source_bytes =>
          match parser source_bytes with
          | None => Ok None
          | Some root =>
              try! rel_path <- rel_path_of env filepath (REPO_ROOT env);
              Ok (Some (ts_extract rel_path (os_path.basename filepath) root))
          end
      end
  end.

(** ** [parse_js_like_file] *)

(** Adding to a [set] of strings kept in the order [sorted] lists it. *)
Fixpoint set_add (x : string) (s : list string) : list string :=
  match s with
  | [] => [x]
  | y :: s' =>
      match String.compare x y with
      | Eq => s
      | Lt => x :: s
      | Gt => y :: set_add x s'
      end
  end.

(** [sorted(set(xs))] *)
Definition sorted_set (xs : list string) : list string :=
  fold_left (fun s x => set_add x s) xs [].

Definition keyword_blocklist : list string :=
  ["if"; "for"; "while"; "switch"; "return"; "function"; "class"; "new";
   "catch"; "typeof"; "await"; "super"; "constructor"; "import"; "export";
   "case"; "delete"; "in"; "of"; "do"; "else"; "try"; "finally"; "with";
   "yield"; "void"; "instanceof"].

Definition js_extract (env : Env) (rel_path fname src : string) : parsed :=
  let imports_set := re_import env src ++ re_require env src in
  let functions_set := re_function_decl env src ++ re_function_assign env src in
  let classes_set := re_class_decl env src in
  let called_set :=
    List.filter (fun name => negb (existsb (String.eqb name) keyword_blocklist))
      (re_call env src) in
  mk_parsed (mk_file_info rel_path fname)
    (List.map (fun n => mk_func_info n rel_path) (sorted_set functions_set))
    (List.map (fun n => mk_class_info n [] rel_path) (sorted_set classes_set))
    (sorted_set imports_set)
    (List.map (fun n => mk_call_info None rel_path n None) called_set)
    [].

Definition parse_js_like_file (env : Env) (filepath lang_key : string)
  : result (option parsed) :=
  match read_utf8_ignore env filepath with
  | None => Ok None
  | Some src =>
      try! rel_path <- rel_path_of env filepath (REPO_ROOT env);
      Ok (Some (js_extract env rel_path (os_path.basename filepath) src))
  end.

(** ** The language router *)

Definition EXT_LANG_MAP : list (string * string) :=
  [(".py", "python"); (".js", "javascript"); (".jsx", "javascript");
   (".ts", "typescript"); (".tsx", "typescript")].

(** [d.get(k)] on a dict given by its items. *)
Fixpoint dict_get (d : list (string * string)) (k : string) : option string :=
  match d with
  | [] => None
  | (k', v) :: d' => if String.eqb k k' then Some v else dict_get d' k
  end.

(** [k in d] *)
Definition dict_mem (d : list (string * string)) (k : string) : bool :=
  match dict_get d k with Some _ => true | None => false end.

Definition parse_any_file (env : Env) (filepath : string)
  : result (option parsed) :=
  let ext := snd (os_path.splitext (Str.lower filepath)) in
  match dict_get EXT_LANG_MAP ext with
  | None => Ok None
  | Some lang_key =>
      if negb (Str.truthy lang_key) then Ok None
      else if String.eqb lang_key "python" then parse_python_file env filepath
      else
        let fallback := parse_js_like_file env filepath lang_key in
        match LANGUAGE_PARSERS env lang_key with
        | Some _ =>
            try! ts_parsed <- parse_with_treesitter env filepath lang_key;
            match ts_parsed with
            | Some r => Ok (Some r)
            | None => fallback
            end
        | None => fallback
        end
  end.

(** ** The graph store and [GraphIngestor]

    The store holds labelled nodes identified by their key properties and
    typed relationships between them.  A Cypher [MERGE] of a node pattern
    or of a relationship between bound nodes creates it only when no match
    exists.  The [name] property that [ingest_file] sets on a File node is
    kept beside the nodes. *)

Inductive node : Type :=
| FileN (path : string)
| ClassN (name file : string)
| FunctionN (name file : string)
| EndpointN (name file decorator : string).

Inductive rel_type : Type :=
| DEFINED_IN | IMPORTS | CALLS | USED_IN | HANDLED_BY | EXTENDS.

Record edge := mk_edge { e_from : node; e_type : rel_type; e_to : node }.

Global Instance node_eq_dec : EqDecision node.
Proof. solve_decision. Defined.
Global Instance rel_type_eq_dec : EqDecision rel_type.
Proof. solve_decision. Defined.
Global Instance edge_eq_dec : EqDecision edge.
Proof. solve_decision. Defined.

Record graph := mk_graph {
  nodes : list node;
  edges : list edge;
  file_names : gmap string string }.

Definition empty_graph : graph := mk_graph [] [] ∅.

Definition merge_node (n : node) (g : graph) : graph :=
  if decide (n ∈ nodes g) then g
  else mk_graph (nodes g ++ [n]) (edges g) (file_names g).

Definition merge_edge (a : node) (t : rel_type) (b : node) (g : graph) : graph :=
  if decide (mk_edge a t b ∈ edges g) then g
  else mk_graph (nodes g) (edges g ++ [mk_edge a t b]) (file_names g).

(** [MERGE (a) MERGE (b) MERGE (a)-[:t]->(b)] *)
Definition merge_path (a : node) (t : rel_type) (b : node) (g : graph) : graph :=
  merge_edge a t b (merge_node b (merge_node a g)).

Definition set_file_name (path name : string) (g : graph) : graph :=
  mk_graph (nodes g) (edges g) (<[path := name]> (file_names g)).

(** [x or ""] for an optional string *)
Definition or_empty (x : option string) : string :=
  match x with
  | Some s => s
  | None => ""
  end.

Module GraphIngestor.

Definition ingest_file (fi : file_info) (g : graph) : graph :=
  set_file_name (fi_path fi) (fi_name fi) (merge_node (FileN (fi_path fi)) g).

Definition ingest_class (c : class_info) (g : graph) : graph :=
  merge_path (ClassN (cls_name c) (cls_file c)) DEFINED_IN (FileN (cls_file c)) g.

Definition ingest_function (f : func_info) (g : graph) : graph :=
  merge_path (FunctionN (fn_name f) (fn_file f)) DEFINED_IN (FileN (fn_file f)) g.

Definition ingest_import (from_file : string) (to_file_path : option string)
    (g : graph) : graph :=
  match to_file_path with
  | Some to_path =>
      if Str.truthy to_path
      then merge_path (FileN from_file) IMPORTS (FileN to_path) g
      else g
  | None => g
  end.

Definition ingest_function_call (caller caller_file called : string)
    (called_file : option string) (g : graph) : graph :=
  merge_path (FunctionN caller caller_file) CALLS
    (FunctionN called (or_empty called_file)) g.

Definition ingest_function_used_in (called : string)
    (called_file : option string) (used_in_file : string) (g : graph) : graph :=
  merge_path (FunctionN called (or_empty called_file)) USED_IN
    (FileN used_in_file) g.

Definition ingest_endpoint (ep : endpoint_info) (g : graph) : graph :=
  merge_path (EndpointN (ep_name ep) (ep_file ep) (ep_decorator ep)) HANDLED_BY
    (FunctionN (ep_name ep) (ep_file ep)) g.

Definition ingest_class_extends (child_name child_file parent_name : string)
    (parent_file : option string) (g : graph) : graph :=
  merge_path (ClassN child_name child_file) EXTENDS
    (ClassN parent_name (or_empty parent_file)) g.

End GraphIngestor.

(** ** [run_ingestion] *)

Import GraphIngestor.

(** The record built when [parse_any_file] returns [None]. *)
Definition degenerate_record (env : Env) (repo_root full : string)
  : result parsed :=
  try! rel_path <- rel_path_of env full repo_root;
  Ok (mk_parsed (mk_file_info rel_path (os_path.basename full)) [] [] [] [] []).

Definition record_functions (tbl : gmap string string) (p : parsed)
  : gmap string string :=
  fold_left (fun t f => <[fn_name f := fn_file f]> t) (p_functions p) tbl.

(** The state of the first pass: [parsed_all] and [func_name_to_file]. *)
Definition pass1_state : Type := list parsed * gmap string string.

(** The body of [for fname in files]. *)
Definition scan_file (env : Env) (repo_root root : string)
    (st : pass1_state) (fname : string) : result pass1_state :=
  let ext := Str.lower (snd (os_path.splitext fname)) in
  if dict_mem EXT_LANG_MAP ext then
    let full := os_path.join root fname in
    try! parsed <- parse_any_file env full;
    try! parsed <- match parsed with
                   | Some p => Ok p
                   | None => degenerate_record env repo_root full
                   end;
    Ok (fst st ++ [parsed], record_functions (snd st) parsed)
  else Ok st.

Definition first_pass (env : Env) (repo_root : string) : result pass1_state :=
  for_each
    (fun st entry =>
       let '(root, dirs, files) := entry in
       for_each (scan_file env repo_root root) files st)
    (os_walk env repo_root) ([], ∅).

Definition import_extensions : list string := [".py"; ".js"; ".ts"; ".jsx"; ".tsx"].

(** The probing loop [for e in [...]: ... break]. *)
Fixpoint probe (env : Env) (repo_root candidate : string) (exts : list string)
  : result (option string) :=
  match exts with
  | [] => Ok None
  | e :: exts' =>
      let cand := os_path.join repo_root (candidate ++ e)%string in
      if isfile env cand
      then try! to_path <- rel_path_of env cand repo_root; Ok (Some to_path)
      else probe env repo_root candidate exts'
  end.

Definition clean_import (imp : string) : string :=
  Str.strip (Str.rstrip_char ";" (Str.strip imp)).

Definition resolve_import (env : Env) (repo_root imp : string)
  : result (option string) :=
  let imp_clean := clean_import imp in
  let candidate := Str.replace_char "." "/" imp_clean in
  probe env repo_root candidate import_extensions.

(** The body of [for imp in parsed.get("imports", [])]. *)
Definition import_step (env : Env) (repo_root from_file : string)
    (g : graph) (imp : string) : result graph :=
  try! to_path <- resolve_import env repo_root imp;
  match to_path with
  | Some p => if Str.truthy p then Ok (ingest_import from_file (Some p) g) else Ok g
  | None => Ok g
  end.

(** [func_name_to_file.get(fc["called"]) or fc.get("caller_file")] *)
Definition resolved_called_file (tbl : gmap string string) (fc : call_info)
  : string :=
  match tbl !! fc_called fc with
  | Some f => if Str.truthy f then f else fc_caller_file fc
  | None => fc_caller_file fc
  end.

(** The body of [for fc in parsed.get("function_calls", [])]. *)
Definition call_step (tbl : gmap string string) (g : graph) (fc : call_info)
  : graph :=
  let resolved := resolved_called_file tbl fc in
  let g1 :=
    match fc_caller fc with
    | Some caller =>
        if Str.truthy caller
        then ingest_function_call caller (fc_caller_file fc) (fc_called fc)
               (Some resolved) g
        else g
    | None => g
    end in
  ingest_function_used_in (fc_called fc) (Some resolved) (fc_caller_file fc) g1.

Definition class_step (g : graph) (cls : class_info) : graph :=
  fold_left
    (fun g base_name =>
       if Str.truthy base_name
       then ingest_class_extends (cls_name cls) (cls_file cls) base_name None g
       else g)
    (cls_bases cls) (ingest_class cls g).

(** What [run_ingestion] prints. *)
Inductive printed : Type :=
| DryRunParsed (path : string) (funcs imports classes : nat).

(** The writes of the second pass for one record. *)
Definition ingest_parsed (env : Env) (repo_root : string)
    (tbl : gmap string string) (p : parsed) (g : graph) : result graph :=
  let g := ingest_file (p_file p) g in
  let g := fold_left class_step (p_classes p) g in
  let g := fold_left (fun g f => ingest_function f g) (p_functions p) g in
  let g := fold_left (fun g ep => ingest_endpoint ep g) (p_endpoints p) g in
  try! g <- for_each (import_step env repo_root (fi_path (p_file p)))
              (p_imports p) g;
  Ok (fold_left (call_step tbl) (p_function_calls p) g).

(** The body of [for parsed in parsed_all]. *)
Definition second_pass_step (env : Env) (repo_root : string) (dry_run : bool)
    (tbl : gmap string string) (st : graph * list printed) (p : parsed)
  : result (graph * list printed) :=
  if dry_run then
    Ok (fst st,
        snd st ++ [DryRunParsed (fi_path (p_file p)) (length (p_functions p))
                     (length (p_imports p)) (length (p_classes p))])
  else
    try! g <- ingest_parsed env repo_root tbl p (fst st);
    Ok (g, snd st).

(** [run_ingestion(repo_root, ingestor, dry_run)]: the store behind the
    ingestor before the run is [g]; the result is the store after the run
    and the lines printed. *)
Definition run_ingestion (env : Env) (repo_root : string) (g : graph)
    (dry_run : bool) : result (graph * list printed) :=
  try! st <- first_pass env repo_root;
  let '(parsed_all, func_name_to_file) := st in
  for_each (second_pass_step env repo_root dry_run func_name_to_file)
    parsed_all (g, []).

(** ** [main], the tally [SKIPPED_COUNTS] and the standard output

    [SKIPPED_COUNTS] is a [defaultdict(int)] that [main] reads after the
    run, item by item in insertion order: an association list.  The
    functions on the way from [main] to the statements that write the
    tally or print are given here with both passed along: the tally and
    the lines printed so far.  The text of an exception inside a
    diagnostic line is not modelled. *)

Definition tally : Type := list (string * nat).

(** [SKIPPED_COUNTS[k] += 1] *)
Fixpoint bump (k : string) (skipped : tally) : tally :=
  match skipped with
  | [] => [(k, 1)]
  | (k', n) :: rest =>
      if String.eqb k k' then (k', S n) :: rest else (k', n) :: bump k rest
  end.

(** The lines the program prints while [main] runs. *)
Inductive line : Type :=
| PythonCouldNotRead (filepath : string)
| PythonCouldNotParse (filepath : string)
| TsFailedToRead (filepath : string)
| TsFailedToParse (filepath : string)
| RunLine (p : printed)
| MissingParserSummary (total_skipped : nat)
| MissingParserItem (lk : string) (cnt : nat)
| IngestionComplete
| Summary (files functions classes imports calls used_in extends : nat).

Record io := mk_io { SKIPPED_COUNTS : tally; stdout : list line }.

(** [print] of several lines, in order. *)
Definition prints (ls : list line) (s : io) : io :=
  mk_io (SKIPPED_COUNTS s) (stdout s ++ ls).

Definition parse_python_file_io (env : Env) (filepath : string) (s : io)
  : result (option parsed * io) :=
  match read_utf8 env filepath with
  | None => Ok (None, prints [PythonCouldNotRead filepath] s)
  | Some source =>
      match ast_parse env source with
      | None => Ok (None, prints [PythonCouldNotParse filepath] s)
      | Some tree =>
          try! rel_path <- rel_path_of env filepath (REPO_ROOT env);
          Ok (Some (python_extract rel_path (ast_dump env)
                      (os_path.basename filepath) tree), s)
      end
  end.

Definition parse_with_treesitter_io (env : Env) (filepath lang_key : string)
    (s : io) : result (option parsed * io) :=
  match LANGUAGE_PARSERS env lang_key with
  | None => Ok (None, mk_io (bump lang_key (SKIPPED_COUNTS s)) (stdout s))
  | Some parser =>
      match read_bytes env filepath with
      | None => Ok (None, prints [TsFailedToRead filepath] s)
      | Some source_bytes =>
          match parser source_bytes with
          | None => Ok (None, prints [TsFailedToParse filepath] s)
          | Some root =>
              try! rel_path <- rel_path_of env filepath (REPO_ROOT env);
              Ok (Some (ts_extract rel_path (os_path.basename filepath) root), s)
          end
      end
  end.

Definition parse_any_file_io (env : Env) (filepath : string) (s : io)
  : result (option parsed * io) :=
  let ext := snd (os_path.splitext (Str.lower filepath)) in
  match dict_get EXT_LANG_MAP ext with
  | None => Ok (None, s)
  | Some lang_key =>
      if negb (Str.truthy lang_key) then Ok (None, s)
      else if String.eqb lang_key "python" then parse_python_file_io env filepath s
      else
        let fallback := fun s : io =>
          try! r <- parse_js_like_file env filepath lang_key; Ok (r, s) in
        match LANGUAGE_PARSERS env lang_key with
        | Some _ =>
            try! ts <- parse_with_treesitter_io env filepath lang_key s;
            match fst ts with
            | Some r => Ok (Some r, snd ts)
            | None => fallback (snd ts)
            end
        | None => fallback s
        end
  end.

Definition scan_file_io (env : Env) (repo_root root : string)
    (st : pass1_state * io) (fname : string) : result (pass1_state * io) :=
  let ext := Str.lower (snd (os_path.splitext fname)) in
  if dict_mem EXT_LANG_MAP ext then
    let full := os_path.join root fname in
    try! res <- parse_any_file_io env full (snd st);
    try! parsed <- match fst res with
                   | Some p => Ok p
                   | None => degenerate_record env repo_root full
                   end;
    Ok (fst (fst st) ++ [parsed], record_functions (snd (fst st)) parsed, snd res)
  else Ok st.

Definition first_pass_io (env : Env) (repo_root : string) (s : io)
  : result (pass1_state * io) :=
  for_each
    (fun st entry =>
       let '(root, dirs, files) := entry in
       for_each (scan_file_io env repo_root root) files st)
    (os_walk env repo_root) ([], ∅, s).

(** The second pass prints its lines after the first pass has ended. *)
Definition run_ingestion_io (env : Env) (repo_root : string) (g : graph)
    (dry_run : bool) (s : io) : result (graph * io) :=
  try! st <- first_pass_io env repo_root s;
  let '(parsed_all, func_name_to_file, s) := st in
  try! out <- for_each (second_pass_step env repo_root dry_run func_name_to_file)
                parsed_all (g, []);
  Ok (fst out, prints (List.map RunLine (snd out)) s).

(** [MATCH ()-[r:T]->() RETURN count(r)] *)
Definition count_relationships (t : rel_type) (g : graph) : nat :=
  length (List.filter (fun e => bool_decide (e_type e = t)) (edges g)).

(** [MATCH (n:Label) RETURN count(n)] *)
Definition count_nodes (label : node -> bool) (g : graph) : nat :=
  length (List.filter label (nodes g)).

Definition is_File (n : node) : bool :=
  match n with FileN _ => true | _ => false end.
Definition is_Function (n : node) : bool :=
  match n with FunctionN _ _ => true | _ => false end.
Definition is_Class (n : node) : bool :=
  match n with ClassN _ _ => true | _ => false end.

Definition print_summary_counts (g : graph) : line :=
  let calls := count_relationships CALLS g in
  let used_in := count_relationships USED_IN g in
  let extends := count_relationships EXTENDS g in
  let imports := count_relationships IMPORTS g in
  let files := count_nodes is_File g in
  let funcs := count_nodes is_Function g in
  let classes := count_nodes is_Class g in
  Summary files funcs classes imports calls used_in extends.

(** [main()] with the parsed arguments [--repo], [--dry-run] and
    [--log-missing]; [s] holds [SKIPPED_COUNTS] and what was printed when
    [main] starts, [g] is the store behind the ingestor. *)
Definition main (env : Env) (repo : option string) (dry_run log_missing : bool)
    (g : graph) (s : io) : result (graph * io) :=
  let repo := default (REPO_ROOT env) repo in
  try! res <- run_ingestion_io env repo g dry_run s;
  let '(g, s) := res in
  let s :=
    match SKIPPED_COUNTS s with
    | [] => s
    | _ :: _ =>
        let total_skipped := list_sum (List.map snd (SKIPPED_COUNTS s)) in
        prints (MissingParserSummary total_skipped
                :: List.map (fun item => MissingParserItem (fst item) (snd item))
                     (SKIPPED_COUNTS s)) s
    end in
  let s :=
    if negb dry_run then prints [IngestionComplete; print_summary_counts g] s
    else s in
  Ok (g, s).

(** * The schema uploader (upload_schema.py)

    [run_cypher_script] removes the comments of a Cypher script, splits
    it into statements and sends them one by one.  What a statement does
    in the database is outside the model; the statements sent are not. *)

Module upload_schema.
Import Str.

(** A line boundary of [str.splitlines]: LF, VT, FF, CR, FS, GS, RS, NEL. *)
Definition is_linebreak (c : ascii) : bool :=
  let n := nat_of_ascii c in
  (Nat.leb 10 n && Nat.leb n 13) || (Nat.leb 28 n && Nat.leb n 30)
  || Nat.eqb n 133.

Definition LF : ascii := "010"%char.
Definition CR : ascii := "013"%char.

(** [s.splitlines()]: CR LF counts as one boundary, and a boundary at
    the end of the text does not open a last, empty line. *)
Fixpoint splitlines (l : chars) : list chars :=
  match l with
  | [] => []
  | c :: l' =>
      if is_linebreak c then
        [] :: match l' with
              | c' :: l'' =>
                  if ascii_eqb c CR && ascii_eqb c' LF
                  then splitlines l'' else splitlines l'
              | [] => []
              end
      else match splitlines l' with
           | [] => [[c]]
           | line :: rest => (c :: line) :: rest
           end
  end.

(** [sub in s] *)
Fixpoint contains (sub l : chars) : bool :=
  starts_with sub l
  || match l with
     | [] => false
     | _ :: l' => contains sub l'
     end.

(** [s.split(sub, 1)[0]] for a non-empty [sub] *)
Fixpoint before (sub l : chars) : chars :=
  if starts_with sub l then []
  else match l with
       | [] => []
       | c :: l' => c :: before sub l'
       end.

Definition comment_mark : chars := ["/"%char; "/"%char].

(** The body of [for line in script.splitlines()]: the line to append,
    if any. *)
Definition strip_line (line : chars) : option chars :=
  let stripped := to_chars (strip (of_chars line)) in
  match stripped with
  | [] => None
  | _ :: _ =>
      if starts_with comment_mark stripped then None
      else Some (if contains comment_mark line then before comment_mark line
                 else line)
  end.

Definition _strip_cypher_comments (script : string) : string :=
  let lines := omap strip_line (splitlines (to_chars script)) in
  of_chars (join_chars LF lines).

(** The variables of the loop of [_split_statements]. *)
Record splitter := mk_splitter {
  statements : list string;
  current : chars;
  in_single : bool;
  in_double : bool;
  escape : bool }.

Definition backslash : ascii := "\"%char.
Definition single_quote : ascii := "'"%char.
Definition double_quote : ascii := "034"%char.

(** The body of [for ch in script]. *)
Definition split_step (st : splitter) (ch : ascii) : splitter :=
  if ascii_eqb ch backslash && negb (escape st) then
    mk_splitter (statements st) (current st ++ [ch])
      (in_single st) (in_double st) true
  else
    let '(in_single', in_double') :=
      if ascii_eqb ch single_quote && negb (in_double st) && negb (escape st)
      then (negb (in_single st), in_double st)
      else if ascii_eqb ch double_quote && negb (in_single st) && negb (escape st)
      then (in_single st, negb (in_double st))
      else (in_single st, in_double st) in
    if ascii_eqb ch ";" && negb in_single' && negb in_double' then
      let stmt := strip (of_chars (current st)) in
      mk_splitter (if truthy stmt then statements st ++ [stmt] else statements st)
        [] in_single' in_double' false
    else
      mk_splitter (statements st) (current st ++ [ch]) in_single' in_double' false.

Definition finish (st : splitter) : list string :=
  let tail := strip (of_chars (current st)) in
  if truthy tail then statements st ++ [tail] else statements st.

Definition _split_statements (script : string) : list string :=
  finish (fold_left split_step (to_chars script)
            (mk_splitter [] [] false false false)).

(** What [run_cypher_script] does: the statements it sends, each with
    its position and the number of statements, or the message that
    there is none. *)
Inductive event : Type :=
| NoStatementsToRun
| Run (idx total : nat) (stmt : string).

Definition run_cypher_script (script : string) : list event :=
  let cleaned := _strip_cypher_comments script in
  let statements := _split_statements cleaned in
  match statements with
  | [] => [NoStatementsToRun]
  | _ :: _ =>
      imap (fun i stmt => Run (S i) (length statements) stmt) statements
  end.

End upload_schema.

(** * Vocabulary of the statements *)

(** ** Paths *)

(** A relative path as the extractors record it: not empty, and not
    starting with the separator. *)
Definition relative_path (p : string) : Prop :=
  Str.truthy p = true /\ Str.startswith p "/" = false.

(** ** Syntax trees

    [node_functions] and its siblings give what one visited node adds to
    each list of the Python extractor. *)

(** [subnode d n]: [d] is [n] or one of its descendants. *)
Inductive subnode : AST -> AST -> Prop :=
| subnode_self (n : AST) : subnode n n
| subnode_child (d c n : AST) :
    c ∈ iter_child_nodes n -> subnode d c -> subnode d n.

Definition node_functions (rel_path : string) (node : AST) : list func_info :=
  match node with
  | FunctionDef name _ _ _ _ => [mk_func_info name rel_path]
  | _ => []
  end.

Definition node_endpoints (rel_path : string) (node : AST) : list endpoint_info :=
  match node with
  | FunctionDef name _ _ decorator_list _ =>
      flat_map (endpoint_of_decorator rel_path name) decorator_list
  | _ => []
  end.

Definition node_func_defs (rel_path : string) (node : AST) : list (AST * func_info) :=
  match node with
  | FunctionDef name _ _ _ _ => [(node, mk_func_info name rel_path)]
  | _ => []
  end.

Definition node_classes (rel_path : string) (dump : AST -> string) (node : AST)
  : list class_info :=
  match node with
  | ClassDef name bases _ _ _ _ =>
      [mk_class_info name (List.map (base_name dump) bases) rel_path]
  | _ => []
  end.

(** ** Records *)

Definition record_files_are (rel : string) (r : parsed) : Prop :=
  fi_path (p_file r) = rel
  /\ (forall f, f ∈ p_functions r -> fn_file f = rel)
  /\ (forall c, c ∈ p_classes r -> cls_file c = rel)
  /\ (forall fc, fc ∈ p_function_calls r -> fc_caller_file fc = rel)
  /\ (forall ep, ep ∈ p_endpoints r -> ep_file ep = rel).

Definition ts_acc_files_are (rel : string) (acc : ts_acc) : Prop :=
  (forall f, f ∈ tacc_functions acc -> fn_file f = rel)
  /\ (forall c, c ∈ tacc_classes acc -> cls_file c = rel)
  /\ (forall fc, fc ∈ tacc_function_calls acc ->
        fc_caller_file fc = rel /\ exists caller,
          fc_caller fc = Some caller /\ Str.truthy caller = true).

(** ** The first pass and the symbol table *)

(** [ext in EXT_LANG_MAP] for a file name. *)
Definition recognized (fname : string) : bool :=
  dict_mem EXT_LANG_MAP (Str.lower (snd (os_path.splitext fname))).

(** The files the first pass parses, in traversal order. *)
Definition scanned_files (env : Env) (repo_root : string) : list string :=
  flat_map (fun entry : string * list string * list string =>
              let '(root, dirs, files) := entry in
              List.map (os_path.join root) (List.filter recognized files))
           (os_walk env repo_root).

(** The record appended to [parsed_all] for one scanned file. *)
Definition record_of (env : Env) (repo_root full : string) : result parsed :=
  try! parsed <- parse_any_file env full;
  match parsed with
  | Some p => Ok p
  | None => degenerate_record env repo_root full
  end.

(** [func_name_to_file] after the records [recs], starting from [tbl]. *)
Definition symbol_table_from (tbl : gmap string string) (recs : list parsed)
  : gmap string string :=
  fold_left record_functions recs tbl.

Definition symbol_table (recs : list parsed) : gmap string string :=
  symbol_table_from ∅ recs.

Definition all_functions (recs : list parsed) : list func_info :=
  flat_map p_functions recs.

Definition table_of (fs : list func_info) (tbl : gmap string string)
  : gmap string string :=
  fold_left (fun t f => <[fn_name f := fn_file f]> t) fs tbl.

Definition defines_name (r : parsed) (name : string) : Prop :=
  exists f, f ∈ p_functions r /\ fn_name f = name.

Global Instance defines_name_dec (r : parsed) (name : string) :
  Decision (defines_name r name).
Proof.
  unfold defines_name.
  destruct (decide (Exists (fun f => fn_name f = name) (p_functions r))) as [H | H];
    rewrite Exists_exists in H; [left | right]; exact H.
Defined.

(** ** The store after a sequence of upserts *)

(** [writes g g' N E]: the store [g'] holds what [g] held plus the nodes
    [N] and the relationships [E], and no duplicate was introduced. *)
Definition writes (g g' : graph) (N : node -> Prop) (E : edge -> Prop) : Prop :=
  (forall n, n ∈ nodes g' <-> n ∈ nodes g \/ N n)
  /\ (forall e, e ∈ edges g' <-> e ∈ edges g \/ E e)
  /\ (NoDup (nodes g) -> NoDup (nodes g'))
  /\ (NoDup (edges g) -> NoDup (edges g')).

Definition no_node : node -> Prop := fun _ => False.
Definition no_edge : edge -> Prop := fun _ => False.

Definition class_nodes (c : class_info) (n : node) : Prop :=
  n = ClassN (cls_name c) (cls_file c) \/ n = FileN (cls_file c)
  \/ exists b, b ∈ cls_bases c /\ Str.truthy b = true /\ n = ClassN b "".

Definition class_edges (c : class_info) (e : edge) : Prop :=
  e = mk_edge (ClassN (cls_name c) (cls_file c)) DEFINED_IN (FileN (cls_file c))
  \/ exists b, b ∈ cls_bases c /\ Str.truthy b = true
       /\ e = mk_edge (ClassN (cls_name c) (cls_file c)) EXTENDS (ClassN b "").

Definition function_nodes (f : func_info) (n : node) : Prop :=
  n = FunctionN (fn_name f) (fn_file f) \/ n = FileN (fn_file f).

Definition function_edges (f : func_info) (e : edge) : Prop :=
  e = mk_edge (FunctionN (fn_name f) (fn_file f)) DEFINED_IN (FileN (fn_file f)).

Definition endpoint_nodes (ep : endpoint_info) (n : node) : Prop :=
  n = EndpointN (ep_name ep) (ep_file ep) (ep_decorator ep)
  \/ n = FunctionN (ep_name ep) (ep_file ep).

Definition endpoint_edges (ep : endpoint_info) (e : edge) : Prop :=
  e = mk_edge (EndpointN (ep_name ep) (ep_file ep) (ep_decorator ep)) HANDLED_BY
        (FunctionN (ep_name ep) (ep_file ep)).

Definition import_nodes (env : Env) (repo_root from_file imp : string) (n : node)
  : Prop :=
  exists p, resolve_import env repo_root imp = Ok (Some p)
    /\ (n = FileN from_file \/ n = FileN p).

Definition import_edges (env : Env) (repo_root from_file imp : string) (e : edge)
  : Prop :=
  exists p, resolve_import env repo_root imp = Ok (Some p)
    /\ e = mk_edge (FileN from_file) IMPORTS (FileN p).

(** The caller of a call site when it is known. *)
Definition known_caller (fc : call_info) (caller : string) : Prop :=
  fc_caller fc = Some caller /\ Str.truthy caller = true.

Definition call_nodes (tbl : gmap string string) (fc : call_info) (n : node) : Prop :=
  (exists caller, known_caller fc caller /\ n = FunctionN caller (fc_caller_file fc))
  \/ n = FunctionN (fc_called fc) (resolved_called_file tbl fc)
  \/ n = FileN (fc_caller_file fc).

Definition call_edges (tbl : gmap string string) (fc : call_info) (e : edge) : Prop :=
  (exists caller, known_caller fc caller
     /\ e = mk_edge (FunctionN caller (fc_caller_file fc)) CALLS
              (FunctionN (fc_called fc) (resolved_called_file tbl fc)))
  \/ e = mk_edge (FunctionN (fc_called fc) (resolved_called_file tbl fc)) USED_IN
           (FileN (fc_caller_file fc)).

(** Everything the second pass upserts for one record. *)
Definition record_nodes (env : Env) (repo_root : string) (tbl : gmap string string)
    (r : parsed) (n : node) : Prop :=
  n = FileN (fi_path (p_file r))
  \/ (exists c, c ∈ p_classes r /\ class_nodes c n)
  \/ (exists f, f ∈ p_functions r /\ function_nodes f n)
  \/ (exists ep, ep ∈ p_endpoints r /\ endpoint_nodes ep n)
  \/ (exists imp, imp ∈ p_imports r
        /\ import_nodes env repo_root (fi_path (p_file r)) imp n)
  \/ (exists fc, fc ∈ p_function_calls r /\ call_nodes tbl fc n).

Definition record_edges (env : Env) (repo_root : string) (tbl : gmap string string)
    (r : parsed) (e : edge) : Prop :=
  (exists c, c ∈ p_classes r /\ class_edges c e)
  \/ (exists f, f ∈ p_functions r /\ function_edges f e)
  \/ (exists ep, ep ∈ p_endpoints r /\ endpoint_edges ep e)
  \/ (exists imp, imp ∈ p_imports r
        /\ import_edges env repo_root (fi_path (p_file r)) imp e)
  \/ (exists fc, fc ∈ p_function_calls r /\ call_edges tbl fc e).

Definition run_nodes (env : Env) (repo_root : string) (recs : list parsed)
    (n : node) : Prop :=
  exists r, r ∈ recs /\ record_nodes env repo_root (symbol_table recs) r n.

Definition run_edges (env : Env) (repo_root : string) (recs : list parsed)
    (e : edge) : Prop :=
  exists r, r ∈ recs /\ record_edges env repo_root (symbol_table recs) r e.

Definition dry_run_line (p : parsed) : printed :=
  DryRunParsed (fi_path (p_file p)) (length (p_functions p))
    (length (p_imports p)) (length (p_classes p)).

(** The expression [root.a1.a2...an] for the attribute names [a1 ... an]. *)
Definition attribute_chain (root : AST) (attrs : list string) : AST :=
  fold_left Attribute attrs root.

(** No extractor can produce a record for the file [full]: a Python file
    that cannot be read or does not parse; a file of another language
    that the heuristic extractor cannot read and for which no grammar is
    loaded, or whose grammar-based parse fails. *)
Definition unparsed (env : Env) (full : string) : Prop :=
  exists lang_key,
    dict_get EXT_LANG_MAP (snd (os_path.splitext (Str.lower full))) = Some lang_key
    /\ if String.eqb lang_key "python"
       then read_utf8 env full = None
            \/ exists source, read_utf8 env full = Some source
                 /\ ast_parse env source = None
       else read_utf8_ignore env full = None
            /\ (LANGUAGE_PARSERS env lang_key = None
                \/ exists parser, LANGUAGE_PARSERS env lang_key = Some parser
                     /\ (read_bytes env full = None
                         \/ exists source_bytes,
                              read_bytes env full = Some source_bytes
                              /\ parser source_bytes = None)).

(** The extension part of [splitext] on a list of characters. *)
Definition ext_l (l : Str.chars) : Str.chars :=
  let filenameIndex :=
    match Str.rfind os_path.sep l with Some i => S i | None => 0 end in
  match Str.rfind os_path.extsep l with
  | Some dotIndex =>
      if Nat.leb filenameIndex dotIndex
         && existsb (fun c => negb (Str.ascii_eqb c os_path.extsep))
              (firstn (dotIndex - filenameIndex) (skipn filenameIndex l))
      then skipn dotIndex l
      else []
  | None => []
  end.

(** A statement as the splitter returns it: not empty, and without
    whitespace at either end ([s.strip() == s]). *)
Definition trimmed (s : string) : Prop := s <> "" /\ Str.strip s = s.

(** Pieces of a script, stripped, without the empty ones. *)
Definition keep_statements (ws : list Str.chars) : list string :=
  List.filter Str.truthy (List.map (fun w => Str.strip (Str.of_chars w)) ws).

(** The statements of [script.split(";")]. *)
Definition plain_statements (script : string) : list string :=
  keep_statements (Str.split_chars ";" (Str.to_chars script)).

(** The pieces to come when [cur] is the piece under construction and
    [l] is still to be read. *)
Definition pieces_after (cur : Str.chars) (l : Str.chars) : list Str.chars :=
  match Str.split_chars ";" l with
  | [] => [cur]
  | w :: ws => (cur ++ w) :: ws
  end.

(** No quote and no backslash. *)
Definition plain (c : ascii) : bool :=
  negb (Str.ascii_eqb c upload_schema.backslash)
  && negb (Str.ascii_eqb c upload_schema.single_quote)
  && negb (Str.ascii_eqb c upload_schema.double_quote).

(** [a] occurs in [l] as a run of consecutive characters. *)
Definition infix (a l : Str.chars) : Prop := exists pre post, l = pre ++ a ++ post.

(** The text has no ["//"]. *)
Definition no_comment_mark (l : Str.chars) : Prop :=
  upload_schema.contains upload_schema.comment_mark l = false.

(** A line of a cleaned script: not blank, without line boundary and
    without ["//"]. *)
Definition clean_line (line : Str.chars) : Prop :=
  Str.strip (Str.of_chars line) <> ""
  /\ forallb (fun c => negb (upload_schema.is_linebreak c)) line = true
  /\ no_comment_mark line.

(** The scanned root is the configured [REPO_ROOT]: the same directory,
    however it is written. *)
Definition same_root (env : Env) (repo_root : string) : Prop :=
  os_path.abspath_l (Str.to_chars (cwd env)) (Str.to_chars repo_root)
  = os_path.abspath_l (Str.to_chars (cwd env)) (Str.to_chars (REPO_ROOT env)).

(** Two paths of one file: they have the same absolute path. *)
Definition same_file (env : Env) (a b : string) : Prop :=
  os_path.abspath_l (Str.to_chars (cwd env)) (Str.to_chars a)
  = os_path.abspath_l (Str.to_chars (cwd env)) (Str.to_chars b).

(** From [g] to [g'] every node is as often in the store as before, or
    was not there and is there once. *)
Definition adds_at_most_once (g g' : graph) : Prop :=
  forall n,
    count_occ node_eq_dec (nodes g') n = count_occ node_eq_dec (nodes g) n
    \/ (count_occ node_eq_dec (nodes g) n = 0
        /\ count_occ node_eq_dec (nodes g') n = 1).

(** The diagnostic lines the extractors print for the file [full]: a
    Python file that cannot be read or does not parse, a file whose
    loaded grammar cannot read or parse it.  The heuristic extractor and
    a missing grammar print nothing. *)
Definition file_diagnostics (env : Env) (full : string) : list line :=
  match dict_get EXT_LANG_MAP (snd (os_path.splitext (Str.lower full))) with
  | None => []
  | Some lang_key =>
      if String.eqb lang_key "python" then
        match read_utf8 env full with
        | None => [PythonCouldNotRead full]
        | Some source =>
            match ast_parse env source with
            | None => [PythonCouldNotParse full]
            | Some _ => []
            end
        end
      else
        match LANGUAGE_PARSERS env lang_key with
        | None => []
        | Some parser =>
            match read_bytes env full with
            | None => [TsFailedToRead full]
            | Some source_bytes =>
                match parser source_bytes with
                | None => [TsFailedToParse full]
                | Some _ => []
                end
            end
        end
  end.

(** The order of [sorted] on strings: code point by code point. *)
Definition str_lt (a b : string) : Prop := String.compare a b = Lt.

(** ** Well-formed stores *)

(** Both ends of every relationship are nodes of the store. *)
Definition edges_closed (g : graph) : Prop :=
  forall e, e ∈ edges g -> e_from e ∈ nodes g /\ e_to e ∈ nodes g.

(** The labels a relationship of each type connects. *)
Definition well_typed (e : edge) : Prop :=
  match e_type e, e_from e, e_to e with
  | DEFINED_IN, ClassN _ _, FileN _ => True
  | DEFINED_IN, FunctionN _ _, FileN _ => True
  | IMPORTS, FileN _, FileN _ => True
  | CALLS, FunctionN _ _, FunctionN _ _ => True
  | USED_IN, FunctionN _ _, FileN _ => True
  | HANDLED_BY, EndpointN _ _ _, FunctionN _ _ => True
  | EXTENDS, ClassN _ _, ClassN _ _ => True
  | _, _, _ => False
  end.

(** The [name] properties after the File upserts of the records. *)
Definition names_after (recs : list parsed) (names : gmap string string)
  : gmap string string :=
  fold_left (fun m r => <[fi_path (p_file r) := fi_name (p_file r)]> m) recs names.

(** ** Source files, imports and decorators *)

(** [full] is a Python source file that reads and parses to [tree]. *)
Definition python_source (env : Env) (full : string) (tree : AST) : Prop :=
  dict_get EXT_LANG_MAP (snd (os_path.splitext (Str.lower full))) = Some "python"
  /\ exists source, read_utf8 env full = Some source
       /\ ast_parse env source = Some tree.

(** The tree contains a definition of the function [name]. *)
Definition defines_function (tree : AST) (name : string) : Prop :=
  exists args body decorator_list rest,
    subnode (FunctionDef name args body decorator_list rest) tree.

(** The tree contains a function [caller] whose body contains a call
    [callee(...)]. *)
Definition body_calls (tree : AST) (caller callee : string) : Prop :=
  exists args body decorator_list rest stmt cargs ckeywords,
    subnode (FunctionDef caller args body decorator_list rest) tree
    /\ stmt ∈ body /\ subnode (Call (Name callee) cargs ckeywords) stmt.

(** The candidate path probed for the extension [e]. *)
Definition import_candidate (repo_root imp e : string) : string :=
  os_path.join repo_root (Str.replace_char "." "/" (clean_import imp) ++ e)%string.

(** [dec] is a call-style decorator [@obj.attr(...)] whose attribute name,
    lower-cased, is [kind]. *)
Definition carries_verb (kind : string) (dec : AST) : bool :=
  match dec with
  | Call (Attribute _ attr) _ _ => String.eqb (Str.lower attr) kind
  | _ => false
  end.

Definition is_kind (kind : string) (ep : endpoint_info) : bool :=
  String.eqb (ep_decorator ep) kind.

(** * Example trees

    An environment given by tables: the directory listing, the text of
    each file, the syntax tree of each Python source, the grammars that
    are loaded with the tree they produce for each source, and the
    matches of the six regular expressions on each source. *)

Fixpoint assoc {V} (table : list (string * V)) (k : string) : option V :=
  match table with
  | [] => None
  | (k', v) :: table' => if String.eqb k k' then Some v else assoc table' k
  end.

Record regex_matches := mk_regex_matches {
  m_import : list string;
  m_require : list string;
  m_function_decl : list string;
  m_function_assign : list string;
  m_class_decl : list string;
  m_call : list string }.

Definition table_env (root_dir : string)
    (listing : list (string * list string * list string))
    (sources : list (string * string))
    (python_trees : list (string * AST))
    (grammars : list (string * list (string * TSNode)))
    (matches : list (string * regex_matches)) : Env :=
  let rx := fun (field : regex_matches -> list string) (src : string) =>
              match assoc matches src with
              | Some m => field m
              | None => []
              end in
  {| cwd := "/work";
     REPO_ROOT := root_dir;
     os_walk := fun top => if String.eqb top root_dir then listing else [];
     isfile := fun p => match assoc sources p with Some _ => true | None => false end;
     read_utf8 := assoc sources;
     read_utf8_ignore := assoc sources;
     read_bytes := assoc sources;
     ast_parse := assoc python_trees;
     ast_dump := fun _ => "<dump>";
     LANGUAGE_PARSERS := fun lang => assoc <$> assoc grammars lang;
     re_import := rx m_import;
     re_require := rx m_require;
     re_function_decl := rx m_function_decl;
     re_function_assign := rx m_function_assign;
     re_class_decl := rx m_class_decl;
     re_call := rx m_call |}.

Definition no_arguments : AST := Other "arguments" [].
Definition module_of (body : list AST) : AST := Other "Module" body.
Definition expr_stmt (value : AST) : AST := Other "Expr" [value].
Definition pass_stmt : AST := Other "Pass" [].

(** repo/a.py defines [helper]; repo/b.py defines [main], which calls
    [helper()]; repo/notes.txt is not a source file. *)
Module ExampleAB.
Definition src_a := "def helper(): pass".
Definition src_b := "def main(): helper()".
Definition tree_a := module_of [FunctionDef "helper" no_arguments [pass_stmt] [] []].
Definition main_def :=
  FunctionDef "main" no_arguments [expr_stmt (Call (Name "helper") [] [])] [] [].
Definition tree_b := module_of [main_def].
Definition env : Env :=
  table_env "repo"
    [("repo", [], ["a.py"; "b.py"; "notes.txt"])]
    [("repo/a.py", src_a); ("repo/b.py", src_b); ("repo/notes.txt", "todo")]
    [(src_a, tree_a); (src_b, tree_b)] [] [].
End ExampleAB.

(** repo/web/app.js is read by the heuristic extractor (no grammar is
    loaded); repo/web/ui.ts by the TypeScript grammar. *)
Module ExampleJS.
Definition src_app := "import x from './ui'; function start() { render(); } class App {}".
Definition src_ui := "function render() { paint(); }".
Definition token (t : string) : TSNode := TSN t t None [].
Definition ui_tree : TSNode :=
  TSN "program" src_ui None
    [TSN "function_declaration" src_ui (Some 1)
       [token "function";
        TSN "identifier" "render" None [];
        TSN "formal_parameters" "()" None [token "("; token ")"];
        TSN "statement_block" "{ paint(); }" None
          [token "{";
           TSN "expression_statement" "paint();" None
             [TSN "call_expression" "paint()" None
                [TSN "identifier" "paint" None [];
                 TSN "arguments" "()" None [token "("; token ")"]];
              token ";"];
           token "}"]]].
Definition env : Env :=
  table_env "repo"
    [("repo", ["web"], []); ("repo/web", [], ["app.js"; "ui.ts"])]
    [("repo/web/app.js", src_app); ("repo/web/ui.ts", src_ui)]
    []
    [("typescript", [(src_ui, ui_tree)])]
    [(src_app, mk_regex_matches ["./ui"] [] ["start"] [] ["App"] ["start"; "render"])].
End ExampleJS.

(** repo/jobs/x.py and repo/jobs/y.py both define [run]; repo/z.py calls it. *)
Module ExampleRun.
Definition src_x := "def run(): pass".
Definition src_y := "def run(): return 1".
Definition src_z := "def go(): run()".
Definition tree_x := module_of [FunctionDef "run" no_arguments [pass_stmt] [] []].
Definition tree_y :=
  module_of [FunctionDef "run" no_arguments [Other "Return" [Other "Constant" []]] [] []].
Definition tree_z :=
  module_of [FunctionDef "go" no_arguments [expr_stmt (Call (Name "run") [] [])] [] []].
Definition env : Env :=
  table_env "repo"
    [("repo", ["jobs"], ["z.py"]); ("repo/jobs", [], ["x.py"; "y.py"])]
    [("repo/z.py", src_z); ("repo/jobs/x.py", src_x); ("repo/jobs/y.py", src_y)]
    [(src_x, tree_x); (src_y, tree_y); (src_z, tree_z)] [] [].
End ExampleRun.

(** repo/pkg/mod.py contains [import pkg.util] and [import pkg.missing];
    repo/pkg/util.py exists, no file for [pkg.missing] does. *)
Module ExamplePkg.
Definition src_mod := "import pkg.util; import pkg.missing".
Definition src_util := "def tool(): pass".
Definition tree_mod := module_of [Import ["pkg.util"]; Import ["pkg.missing"]].
Definition tree_util := module_of [FunctionDef "tool" no_arguments [pass_stmt] [] []].
Definition env : Env :=
  table_env "repo"
    [("repo", ["pkg"], []); ("repo/pkg", [], ["mod.py"; "util.py"])]
    [("repo/pkg/mod.py", src_mod); ("repo/pkg/util.py", src_util)]
    [(src_mod, tree_mod); (src_util, tree_util)] [] [].
End ExamplePkg.

(** repo/api.py:
    [@router.get('/items') def list_items],
    [@app.get('/a') @app.get('/b') def both_routes],
    [@staticmethod @functools.wraps(f) def plain]. *)
Module ExampleApi.
Definition route (obj verb : string) : AST :=
  Call (Attribute (Name obj) verb) [Other "Constant" []] [].
Definition list_items_def :=
  FunctionDef "list_items" no_arguments [pass_stmt] [route "router" "get"] [].
Definition both_routes_def :=
  FunctionDef "both_routes" no_arguments [pass_stmt]
    [route "app" "get"; route "app" "get"] [].
Definition plain_def :=
  FunctionDef "plain" no_arguments [pass_stmt]
    [Name "staticmethod"; Call (Attribute (Name "functools") "wraps") [Name "f"] []] [].
Definition src_api :=
  "@router.get('/items')
def list_items(): pass
@app.get('/a')
@app.get('/b')
def both_routes(): pass
@staticmethod
@functools.wraps(f)
def plain(): pass".
Definition tree_api := module_of [list_items_def; both_routes_def; plain_def].
Definition env : Env :=
  table_env "repo" [("repo", [], ["api.py"])] [("repo/api.py", src_api)]
    [(src_api, tree_api)] [] [].
End ExampleApi.

(** A file named [.py] has no extension; repo/app.js requires "lib.". *)
Module ExampleDotfile.
Definition src_app := "require('lib.')".
Definition env : Env :=
  table_env "repo"
    [("repo", ["lib"], ["app.js"]); ("repo/lib", [], [".py"])]
    [("repo/app.js", src_app); ("repo/lib/.py", "")]
    [] []
    [(src_app, mk_regex_matches [] ["lib."] [] [] [] ["require"])].
End ExampleDotfile.

(** repo/h.js, with the JavaScript grammar loaded:
    [function outer() { const h = () => { hidden(); }; shown(); }]. *)
Module ExampleArrow.
Definition src_h := "function outer() { const h = () => { hidden(); }; shown(); }".
Definition call_of (name : string) : TSNode :=
  TSN "call_expression" (name ++ "()") None
    [TSN "identifier" name None [];
     TSN "arguments" "()" None [ExampleJS.token "("; ExampleJS.token ")"]].
Definition call_stmt (name : string) : TSNode :=
  TSN "expression_statement" (name ++ "();") None [call_of name; ExampleJS.token ";"].
Definition arrow : TSNode :=
  TSN "arrow_function" "() => { hidden(); }" None
    [TSN "formal_parameters" "()" None [ExampleJS.token "("; ExampleJS.token ")"];
     ExampleJS.token "=>";
     TSN "statement_block" "{ hidden(); }" None
       [ExampleJS.token "{"; call_stmt "hidden"; ExampleJS.token "}"]].
Definition declaration : TSNode :=
  TSN "lexical_declaration" "const h = () => { hidden(); };" None
    [ExampleJS.token "const";
     TSN "variable_declarator" "h = () => { hidden(); }" (Some 0)
       [TSN "identifier" "h" None []; ExampleJS.token "="; arrow];
     ExampleJS.token ";"].
Definition block : TSNode :=
  TSN "statement_block" "{ const h = () => { hidden(); }; shown(); }" None
    [ExampleJS.token "{"; declaration; call_stmt "shown"; ExampleJS.token "}"].
Definition outer : TSNode :=
  TSN "function_declaration" src_h (Some 1)
    [ExampleJS.token "function";
     TSN "identifier" "outer" None [];
     TSN "formal_parameters" "()" None [ExampleJS.token "("; ExampleJS.token ")"];
     block].
Definition tree : TSNode := TSN "program" src_h None [outer].
Definition env : Env :=
  table_env "repo" [("repo", [], ["h.js"])] [("repo/h.js", src_h)] []
    [("javascript", [(src_h, tree)])] [].
End ExampleArrow.

(** repo/f.js, read by the heuristic extractor: [f] matches both function
    patterns, the call pattern matches [f], [function], [if], [go], [go]. *)
Module ExampleHeuristic.
Definition src_f := "function f() {} const f = function () {}; if (ok) { go(); go(); }".
Definition env : Env :=
  table_env "repo" [("repo", [], ["f.js"])] [("repo/f.js", src_f)] [] []
    [(src_f, mk_regex_matches [] [] ["f"] ["f"] [] ["f"; "function"; "if"; "go"; "go"])].
End ExampleHeuristic.

(** repo/bad.py does not parse: [def broken(:]. *)
Module ExampleBroken.
Definition src_bad := "def broken(:".
Definition env : Env :=
  table_env "repo" [("repo", [], ["bad.py"])] [("repo/bad.py", src_bad)] [] [] [].
End ExampleBroken.

(** repo/srv.py holds one handler, [async def ping] under the decorator
    [@app.get('/ping')], which returns [pong()].  An [async def] is an
    [ast.AsyncFunctionDef], not an [ast.FunctionDef]. *)
Module ExampleAsync.
Definition src_srv :=
  "@app.get('/ping')
async def ping():
    return pong()".
Definition ping_def : AST :=
  Other "AsyncFunctionDef"
    [no_arguments;
     Other "Return" [Call (Name "pong") [] []];
     ExampleApi.route "app" "get"].
Definition tree_srv := module_of [ping_def].
Definition env : Env :=
  table_env "repo" [("repo", [], ["srv.py"])] [("repo/srv.py", src_srv)]
    [(src_srv, tree_srv)] [] [].
End ExampleAsync.

(** * Properties *)

(** ** Outcomes *)

Lemma rbind_Ok {A B} (r : result A) (k : A -> result B) (b : B) :
  rbind r k = Ok b <-> exists a, r = Ok a /\ k a = Ok b.
Proof.
  destruct r as [a|e]; simpl; split.
  - intros H. exists a. split; [reflexivity | exact H].
  - intros (a' & Ha & Hk). inversion Ha; subst. exact Hk.
  - discriminate.
  - intros (a' & Ha & _). discriminate.
Qed.

(** ** Strings and paths *)

Lemma truthy_true (s : string) : Str.truthy s = true <-> s <> "".
Proof. destruct s; simpl; split; congruence. Qed.

Lemma of_chars_truthy (l : Str.chars) : l <> [] -> Str.truthy (Str.of_chars l) = true.
Proof. destruct l; [congruence | reflexivity]. Qed.

Lemma to_chars_nonempty (s : string) : s <> "" -> Str.to_chars s <> [].
Proof. destruct s; [congruence | discriminate]. Qed.

Lemma to_of_chars (l : Str.chars) : Str.to_chars (Str.of_chars l) = l.
Proof. apply list_ascii_of_string_of_list_ascii. Qed.

Lemma of_to_chars (s : string) : Str.of_chars (Str.to_chars s) = s.
Proof. apply string_of_list_ascii_of_string. Qed.

Lemma to_chars_app (a b : string) :
  Str.to_chars (a ++ b)%string = Str.to_chars a ++ Str.to_chars b.
Proof. induction a as [|c a IH]; simpl; [reflexivity | now rewrite IH]. Qed.

Lemma ascii_eqb_true (a b : ascii) : Str.ascii_eqb a b = true <-> a = b.
Proof. apply Ascii.eqb_eq. Qed.

Lemma chars_eqb_true (a b : Str.chars) : os_path.chars_eqb a b = true <-> a = b.
Proof.
  unfold os_path.chars_eqb. rewrite String.eqb_eq. split.
  - intros H. apply (f_equal Str.to_chars) in H. now rewrite !to_of_chars in H.
  - now intros ->.
Qed.

Lemma join_chars_nonempty (c : ascii) (w : Str.chars) (ws : list Str.chars) :
  w <> [] -> Str.join_chars c (w :: ws) <> [].
Proof. destruct w; [congruence|]. destruct ws; discriminate. Qed.

Lemma join_chars_head (c x : ascii) (w : Str.chars) (ws : list Str.chars) :
  exists l, Str.join_chars c ((x :: w) :: ws) = x :: l.
Proof. destruct ws; simpl; eauto. Qed.

(** No piece of [s.split(c)] contains [c]. *)
Lemma split_chars_no_sep (c : ascii) (l : Str.chars) (w : Str.chars) :
  w ∈ Str.split_chars c l -> c ∉ w.
Proof.
  revert w. induction l as [|x l IH]; simpl; intros w Hw.
  - apply list_elem_of_singleton in Hw. subst. apply not_elem_of_nil.
  - destruct (Str.ascii_eqb x c) eqn:Hx.
    + apply elem_of_cons in Hw as [-> | Hw]; [apply not_elem_of_nil | now apply IH].
    + destruct (Str.split_chars c l) as [|w0 ws] eqn:Hs.
      * apply list_elem_of_singleton in Hw. subst. intros Hc.
        apply list_elem_of_singleton in Hc. subst.
        rewrite (proj2 (ascii_eqb_true x x) eq_refl) in Hx. discriminate.
      * apply elem_of_cons in Hw as [-> | Hw].
        -- intros Hc. apply elem_of_cons in Hc as [-> | Hc].
           ++ rewrite (proj2 (ascii_eqb_true x x) eq_refl) in Hx. discriminate.
           ++ revert Hc. apply IH. left.
        -- apply IH. now right.
Qed.

Lemma nonempty_comps_spec (l w : Str.chars) :
  w ∈ os_path.nonempty_comps l -> w <> [] /\ os_path.sep ∉ w.
Proof.
  unfold os_path.nonempty_comps. intros H.
  apply list_elem_of_In, filter_In in H as [Hin Hne]. split.
  - intros ->. discriminate.
  - apply split_chars_no_sep with l. now apply list_elem_of_In.
Qed.

Lemma pardir_spec : os_path.pardir <> [] /\ os_path.sep ∉ os_path.pardir.
Proof.
  split; [discriminate|]. unfold os_path.pardir, os_path.sep. intros H.
  repeat (apply elem_of_cons in H as [H|H]; [discriminate|]).
  now apply not_elem_of_nil in H.
Qed.

(** [relpath] returns for every non-empty path. *)
Lemma relpath_l_returns (cwd path start : Str.chars) :
  path <> [] -> exists r, os_path.relpath_l cwd path start = Ok r.
Proof.
  intros Hp. unfold os_path.relpath_l. destruct path; [congruence|].
  match goal with |- context [match ?l with [] => _ | _ :: _ => _ end] =>
    destruct l end; eauto.
Qed.

(** What [relpath] returns is not empty and does not start with "/". *)
Lemma relpath_l_relative (cwd path start r : Str.chars) :
  os_path.relpath_l cwd path start = Ok r ->
  exists c l, r = c :: l /\ c <> os_path.sep.
Proof.
  unfold os_path.relpath_l. destruct path as [|p0 path]; [discriminate|].
  set (sl := os_path.nonempty_comps (os_path.abspath_l cwd start)).
  set (pl := os_path.nonempty_comps (os_path.abspath_l cwd (p0 :: path))).
  set (i := os_path.commonprefix_len sl pl).
  destruct (repeat os_path.pardir (length sl - i) ++ skipn i pl) as [|w ws] eqn:Hrel.
  - intros [= <-]. exists "."%char, []. split; [reflexivity | discriminate].
  - intros [= <-].
    assert (Hw : w <> [] /\ os_path.sep ∉ w).
    { assert (Hin : w ∈ repeat os_path.pardir (length sl - i) ++ skipn i pl)
        by (rewrite Hrel; left).
      apply elem_of_app in Hin as [Hin | Hin].
      - apply list_elem_of_In, repeat_spec in Hin. subst. apply pardir_spec.
      - apply (nonempty_comps_spec (os_path.abspath_l cwd (p0 :: path))).
        fold pl. apply list_elem_of_In. apply list_elem_of_In in Hin.
        revert Hin. rewrite <- (firstn_skipn i pl) at 2. intros Hin.
        apply in_or_app. now right. }
    destruct Hw as [Hne Hsep]. destruct w as [|x w]; [congruence|].
    destruct (join_chars_head os_path.sep x w ws) as [l Hl].
    exists x, l. split; [exact Hl|]. intros ->. apply Hsep. left.
Qed.

Lemma rel_path_of_returns (env : Env) (filepath start : string) :
  filepath <> "" -> exists r, rel_path_of env filepath start = Ok r.
Proof.
  intros Hne. unfold rel_path_of, os_path.relpath.
  destruct (relpath_l_returns (Str.to_chars (cwd env)) (Str.to_chars filepath)
              (Str.to_chars start)) as [r Hr]; [now apply to_chars_nonempty|].
  rewrite Hr. simpl. eauto.
Qed.

Lemma rel_path_of_relative (env : Env) (filepath start r : string) :
  rel_path_of env filepath start = Ok r -> relative_path r.
Proof.
  unfold rel_path_of, os_path.relpath. intros H.
  apply rbind_Ok in H as (r1 & H1 & H2). injection H2 as <-.
  apply rbind_Ok in H1 as (r0 & H0 & H1). injection H1 as <-.
  apply relpath_l_relative in H0 as (c & l & -> & Hc).
  unfold relative_path, Str.replace_char, Str.startswith.
  rewrite !to_of_chars. cbn [List.map].
  destruct (Str.ascii_eqb c os_path.sep) eqn:Hcs.
  - apply ascii_eqb_true in Hcs. contradiction.
  - split; [reflexivity|].
    change (Str.to_chars "/") with [os_path.sep]. cbn [Str.starts_with].
    destruct (Str.ascii_eqb os_path.sep c) eqn:Hc'; [|reflexivity].
    apply ascii_eqb_true in Hc'. subst c. now contradiction Hc.
Qed.

Lemma join_nonempty (a b : string) : b <> "" -> os_path.join a b <> "".
Proof.
  intros Hb. apply truthy_true, of_chars_truthy.
  apply to_chars_nonempty in Hb. unfold os_path.join_l.
  destruct (Str.starts_with [os_path.sep] (Str.to_chars b)); [exact Hb|].
  destruct (Str.to_chars a) as [|x l] eqn:Ha; [exact Hb|].
  destruct (Str.starts_with [os_path.sep] (rev (x :: l))); discriminate.
Qed.

(** The path operations on the inputs of the standard library's own
    documentation and on the paths of a run. *)
Example splitext_examples :
  os_path.splitext "archive.tar.GZ" = ("archive.tar", ".GZ")
  /\ os_path.splitext ".cshrc" = (".cshrc", "")
  /\ os_path.splitext "dir.d/file" = ("dir.d/file", "")
  /\ os_path.splitext "repo/pkg/mod.py" = ("repo/pkg/mod", ".py").
Proof. repeat split; reflexivity. Qed.

Example relpath_examples :
  os_path.relpath "/work" "repo/pkg/mod.py" "repo" = Ok "pkg/mod.py"
  /\ os_path.relpath "/work" "repo" "repo" = Ok "."
  /\ os_path.relpath "/work" "other/./x.py" "repo" = Ok "../other/x.py"
  /\ os_path.relpath "/work" "/etc/x.py" "repo" = Ok "../../etc/x.py"
  /\ os_path.relpath "/work" "" "repo" = Raise ValueError.
Proof. repeat split; reflexivity. Qed.

Example join_basename_examples :
  os_path.join "repo" "a.py" = "repo/a.py"
  /\ os_path.join "repo/" "a.py" = "repo/a.py"
  /\ os_path.join "repo" "/abs.py" = "/abs.py"
  /\ os_path.basename "repo/pkg/mod.py" = "mod.py"
  /\ os_path.basename "mod.py" = "mod.py".
Proof. repeat split; reflexivity. Qed.

Example clean_import_examples :
  clean_import "  pkg.util ;; " = "pkg.util"
  /\ clean_import "import x from './ui';" = "import x from './ui'"
  /\ Str.replace_char "." "/" "pkg.util" = "pkg/util"
  /\ Str.lower "Module.PY" = "module.py".
Proof. repeat split; reflexivity. Qed.

Example sorted_set_example :
  sorted_set ["render"; "App"; "start"; "render"; "_x"] = ["App"; "_x"; "render"; "start"].
Proof. reflexivity. Qed.

(** ** Generic loop lemmas *)

Lemma fold_left_invariant {A S} (P : S -> Prop) (f : S -> A -> S) (l : list A) (s : S) :
  P s -> (forall s x, x ∈ l -> P s -> P (f s x)) -> P (fold_left f l s).
Proof.
  revert s. induction l as [|x l IH]; simpl; intros s Hs Hf; [exact Hs|].
  apply IH.
  - apply Hf; [left | exact Hs].
  - intros s' y Hy. apply Hf. now right.
Qed.

Lemma for_each_invariant {A S} (P : S -> Prop) (f : S -> A -> result S)
    (l : list A) (s s' : S) :
  P s -> (forall s x s', x ∈ l -> P s -> f s x = Ok s' -> P s') ->
  for_each f l s = Ok s' -> P s'.
Proof.
  revert s. induction l as [|x l IH]; simpl; intros s Hs Hf H.
  - now injection H as <-.
  - apply rbind_Ok in H as (s1 & H1 & H2).
    apply (IH s1); [| |exact H2].
    + apply (Hf s x s1); [left | exact Hs | exact H1].
    + intros t y t' Hy. apply Hf. now right.
Qed.

Lemma for_each_returns {A S} (P : S -> Prop) (f : S -> A -> result S)
    (l : list A) (s : S) :
  P s -> (forall s x, x ∈ l -> P s -> exists s', f s x = Ok s' /\ P s') ->
  exists s', for_each f l s = Ok s' /\ P s'.
Proof.
  revert s. induction l as [|x l IH]; simpl; intros s Hs Hf; [eauto|].
  destruct (Hf s x) as (s1 & H1 & Hs1); [left | exact Hs |].
  rewrite H1. simpl. apply IH; [exact Hs1|].
  intros t y Hy. apply Hf. now right.
Qed.

(** ** [ast.walk] visits every node of the tree *)

Lemma queue_size_app (a b : list AST) :
  queue_size (a ++ b) = queue_size a + queue_size b.
Proof. unfold queue_size. now rewrite List.map_app, list_sum_app. Qed.

Lemma ast_size_children (n : AST) :
  ast_size n = S (queue_size (iter_child_nodes n)).
Proof.
  destruct n; simpl; try reflexivity;
    repeat (rewrite ?queue_size_app; unfold queue_size at 1; simpl); try lia.
  all: unfold queue_size; simpl; rewrite ?List.map_app, ?list_sum_app; lia.
Qed.

Lemma queue_size_cons (n : AST) (todo : list AST) :
  queue_size (n :: todo) = S (queue_size (todo ++ iter_child_nodes n)).
Proof.
  rewrite queue_size_app. change (queue_size (n :: todo)) with (ast_size n + queue_size todo).
  rewrite (ast_size_children n). lia.
Qed.

(** The fuel [walk] starts with is enough: more fuel changes nothing. *)
Lemma walk_queue_enough (fuel : nat) (todo : list AST) :
  queue_size todo <= fuel ->
  walk_queue fuel todo = walk_queue (queue_size todo) todo.
Proof.
  revert todo. induction fuel as [|fuel IH]; intros todo Hle.
  - assert (queue_size todo = 0) as -> by lia. reflexivity.
  - destruct todo as [|n todo]; [reflexivity|].
    pose proof (queue_size_cons n todo) as Hq.
    rewrite Hq. simpl. f_equal. apply IH. lia.
Qed.

(** [walk] yields as many nodes as the tree has: the fuel is never
    exhausted with nodes left in the queue. *)
Lemma length_walk_queue (fuel : nat) (todo : list AST) :
  queue_size todo <= fuel -> length (walk_queue fuel todo) = queue_size todo.
Proof.
  revert todo. induction fuel as [|fuel IH]; intros todo Hle.
  - destruct todo as [|n todo]; [reflexivity|]. rewrite queue_size_cons in Hle. lia.
  - destruct todo as [|n todo]; [reflexivity|].
    pose proof (queue_size_cons n todo) as Hq. simpl.
    rewrite IH by lia. lia.
Qed.

Lemma length_walk (n : AST) : length (walk n) = ast_size n.
Proof.
  unfold walk. rewrite length_walk_queue.
  - change (queue_size [n]) with (ast_size n + 0). lia.
  - change (queue_size [n]) with (ast_size n + 0). lia.
Qed.

Example walk_is_breadth_first :
  walk (Other "Module"
          [FunctionDef "f" (Other "arguments" []) [Other "Expr" [Call (Name "g") [] []]] [] [];
           ClassDef "C" [Name "B"] [] [] [] []])
  = [Other "Module"
       [FunctionDef "f" (Other "arguments" []) [Other "Expr" [Call (Name "g") [] []]] [] [];
        ClassDef "C" [Name "B"] [] [] [] []];
     FunctionDef "f" (Other "arguments" []) [Other "Expr" [Call (Name "g") [] []]] [] [];
     ClassDef "C" [Name "B"] [] [] [] [];
     Other "arguments" [];
     Other "Expr" [Call (Name "g") [] []];
     Name "B";
     Call (Name "g") [] [];
     Name "g"].
Proof. reflexivity. Qed.

Lemma walk_queue_complete (fuel : nat) (todo : list AST) (x d : AST) :
  queue_size todo <= fuel -> x ∈ todo -> subnode d x -> d ∈ walk_queue fuel todo.
Proof.
  revert todo x d. induction fuel as [|fuel IH]; intros todo x d Hle Hx Hd.
  - destruct todo as [|n todo]; [now apply not_elem_of_nil in Hx|].
    rewrite queue_size_cons in Hle. lia.
  - destruct todo as [|n todo]; [now apply not_elem_of_nil in Hx|].
    assert (Hq : queue_size (todo ++ iter_child_nodes n) <= fuel)
      by (rewrite queue_size_cons in Hle; lia).
    simpl. apply elem_of_cons in Hx as [-> | Hx].
    + inversion Hd as [|d' c n' Hc Hdc]; subst; [left|].
      right. apply (IH _ c); [exact Hq | | exact Hdc].
      apply elem_of_app. now right.
    + right. apply (IH _ x); [exact Hq | | exact Hd].
      apply elem_of_app. now left.
Qed.

Lemma walk_complete (n d : AST) : subnode d n -> d ∈ walk n.
Proof.
  intros Hd. apply (walk_queue_complete _ _ n).
  - change (queue_size [n]) with (ast_size n + 0). lia.
  - left.
  - exact Hd.
Qed.

Lemma walk_queue_sound (fuel : nat) (todo : list AST) (d : AST) :
  d ∈ walk_queue fuel todo -> exists x, x ∈ todo /\ subnode d x.
Proof.
  revert todo. induction fuel as [|fuel IH]; intros todo Hd.
  - now apply not_elem_of_nil in Hd.
  - destruct todo as [|n todo]; [now apply not_elem_of_nil in Hd|].
    simpl in Hd. apply elem_of_cons in Hd as [-> | Hd].
    + exists n. split; [left | constructor].
    + apply IH in Hd as (x & Hx & Hdx).
      apply elem_of_app in Hx as [Hx | Hx].
      * exists x. split; [now right | exact Hdx].
      * exists n. split; [left | now apply (subnode_child d x n)].
Qed.

Lemma walk_sound (n d : AST) : d ∈ walk n -> subnode d n.
Proof.
  intros Hd. apply walk_queue_sound in Hd as (x & Hx & Hdx).
  apply list_elem_of_singleton in Hx. now subst.
Qed.

(** ** What the Python extractor collects *)

Lemma py_fold_spec (rel_path : string) (dump : AST -> string) (l : list AST)
    (acc : py_acc) :
  let acc' := fold_left (py_visit rel_path dump) l acc in
  acc_functions acc' = acc_functions acc ++ flat_map (node_functions rel_path) l
  /\ acc_endpoints acc' = acc_endpoints acc ++ flat_map (node_endpoints rel_path) l
  /\ acc_func_defs acc' = acc_func_defs acc ++ flat_map (node_func_defs rel_path) l
  /\ acc_classes acc' = acc_classes acc ++ flat_map (node_classes rel_path dump) l.
Proof.
  revert acc. induction l as [|n l IH]; intros acc; simpl.
  - now rewrite !app_nil_r.
  - destruct (IH (py_visit rel_path dump acc n)) as (H1 & H2 & H3 & H4).
    rewrite H1, H2, H3, H4.
    destruct n; simpl; rewrite ?app_nil_r, <- ?app_assoc; auto.
Qed.

Lemma python_extract_functions (rel_path : string) (dump : AST -> string)
    (fname : string) (tree : AST) :
  p_functions (python_extract rel_path dump fname tree)
  = flat_map (node_functions rel_path) (walk tree).
Proof.
  unfold python_extract. simpl.
  now destruct (py_fold_spec rel_path dump (walk tree) (mk_py_acc [] [] [] [] []))
    as (-> & _).
Qed.

Lemma python_extract_endpoints (rel_path : string) (dump : AST -> string)
    (fname : string) (tree : AST) :
  p_endpoints (python_extract rel_path dump fname tree)
  = flat_map (node_endpoints rel_path) (walk tree).
Proof.
  unfold python_extract. simpl.
  now destruct (py_fold_spec rel_path dump (walk tree) (mk_py_acc [] [] [] [] []))
    as (_ & -> & _).
Qed.

Lemma python_extract_calls (rel_path : string) (dump : AST -> string)
    (fname : string) (tree : AST) :
  p_function_calls (python_extract rel_path dump fname tree)
  = flat_map calls_of_func_def (flat_map (node_func_defs rel_path) (walk tree)).
Proof.
  unfold python_extract. simpl.
  now destruct (py_fold_spec rel_path dump (walk tree) (mk_py_acc [] [] [] [] []))
    as (_ & _ & -> & _).
Qed.

Lemma python_extract_classes (rel_path : string) (dump : AST -> string)
    (fname : string) (tree : AST) :
  p_classes (python_extract rel_path dump fname tree)
  = flat_map (node_classes rel_path dump) (walk tree).
Proof.
  unfold python_extract. simpl.
  now destruct (py_fold_spec rel_path dump (walk tree) (mk_py_acc [] [] [] [] []))
    as (_ & _ & _ & ->).
Qed.

Lemma elem_of_flat_map {A B} (f : A -> list B) (l : list A) (y : B) :
  y ∈ flat_map f l <-> exists x, x ∈ l /\ y ∈ f x.
Proof.
  rewrite list_elem_of_In, in_flat_map. split; intros (x & Hx & Hy); exists x.
  - now rewrite !list_elem_of_In.
  - now rewrite <- !list_elem_of_In.
Qed.

Lemma elem_of_map {A B} (f : A -> B) (l : list A) (y : B) :
  y ∈ List.map f l <-> exists x, y = f x /\ x ∈ l.
Proof.
  rewrite list_elem_of_In, in_map_iff. split; intros (x & Hx & Hy); exists x.
  - now rewrite list_elem_of_In.
  - now rewrite <- list_elem_of_In.
Qed.

Lemma elem_of_filter_bool {A} (p : A -> bool) (l : list A) (x : A) :
  x ∈ List.filter p l <-> x ∈ l /\ p x = true.
Proof. now rewrite !list_elem_of_In, filter_In. Qed.

(** ** Every record names one file

    All [file] and [caller_file] fields of a record are the relative path
    of the file it was extracted from. *)

Lemma endpoint_of_decorator_spec (rel fname : string) (dec : AST) (ep : endpoint_info) :
  ep ∈ endpoint_of_decorator rel fname dec ->
  ep_name ep = fname /\ ep_file ep = rel /\ is_http_verb (ep_decorator ep) = true.
Proof.
  destruct dec as [| | | | | |func args kws|]; simpl; try (intros H; now apply not_elem_of_nil in H).
  destruct func; try (intros H; now apply not_elem_of_nil in H).
  destruct (is_http_verb (Str.lower attr)) eqn:Hv;
    [|intros H; now apply not_elem_of_nil in H].
  intros H. apply list_elem_of_singleton in H. subst. auto.
Qed.

Lemma call_of_sub_spec (ci : func_info) (sub : AST) (fc : call_info) :
  fc ∈ call_of_sub ci sub ->
  fc_caller fc = Some (fn_name ci) /\ fc_caller_file fc = fn_file ci
  /\ called_name sub = Some (fc_called fc) /\ Str.truthy (fc_called fc) = true.
Proof.
  unfold call_of_sub. destruct (called_name sub) as [called|];
    [|intros H; now apply not_elem_of_nil in H].
  destruct (Str.truthy called) eqn:Ht; [|intros H; now apply not_elem_of_nil in H].
  intros H. apply list_elem_of_singleton in H. subst. auto.
Qed.

Lemma python_extract_files (rel : string) (dump : AST -> string)
    (fname : string) (tree : AST) :
  record_files_are rel (python_extract rel dump fname tree).
Proof.
  unfold record_files_are. split; [reflexivity|].
  rewrite python_extract_functions, python_extract_classes,
    python_extract_calls, python_extract_endpoints.
  repeat split.
  - intros f Hf. apply elem_of_flat_map in Hf as (n & _ & Hf).
    destruct n; simpl in Hf; try now apply not_elem_of_nil in Hf.
    apply list_elem_of_singleton in Hf. now subst.
  - intros c Hc. apply elem_of_flat_map in Hc as (n & _ & Hc).
    destruct n; simpl in Hc; try now apply not_elem_of_nil in Hc.
    apply list_elem_of_singleton in Hc. now subst.
  - intros fc Hfc. apply elem_of_flat_map in Hfc as (fd & Hfd & Hfc).
    apply elem_of_flat_map in Hfd as (n & _ & Hfd).
    destruct n; simpl in Hfd; try now apply not_elem_of_nil in Hfd.
    apply list_elem_of_singleton in Hfd. subst fd.
    apply elem_of_flat_map in Hfc as (sub & _ & Hfc).
    apply call_of_sub_spec in Hfc as (_ & -> & _). reflexivity.
  - intros ep Hep. apply elem_of_flat_map in Hep as (n & _ & Hep).
    destruct n; simpl in Hep; try now apply not_elem_of_nil in Hep.
    apply elem_of_flat_map in Hep as (dec & _ & Hep).
    now apply endpoint_of_decorator_spec in Hep.
Qed.

Lemma ts_visit_files (rel : string) (acc : ts_acc) (item : TSNode * list TSNode) :
  ts_acc_files_are rel acc -> ts_acc_files_are rel (ts_visit rel acc item).
Proof.
  intros (Hf & Hc & Hfc). destruct item as [node parents]. unfold ts_visit.
  repeat case_match; try (split; [|split]; assumption);
    (split; [|split]); simpl; try assumption.
  - intros f [Hin | ->%list_elem_of_singleton]%elem_of_app; [now apply Hf | reflexivity].
  - intros c [Hin | ->%list_elem_of_singleton]%elem_of_app; [now apply Hc | reflexivity].
  - intros fc [Hin | ->%list_elem_of_singleton]%elem_of_app; [now apply Hfc|].
    simpl. split; [reflexivity|]. eauto.
Qed.

Lemma ts_extract_files (rel fname : string) (root : TSNode) :
  record_files_are rel (ts_extract rel fname root).
Proof.
  assert (H : ts_acc_files_are rel
                (fold_left (ts_visit rel) (ts_walk [] root) (mk_ts_acc [] [] [] []))).
  { apply fold_left_invariant.
    - split; [|split]; intros x Hx; now apply not_elem_of_nil in Hx.
    - intros s x _. apply ts_visit_files. }
  destruct H as (Hf & Hc & Hfc). unfold record_files_are, ts_extract. simpl.
  repeat split; try assumption.
  - intros fc Hin. now apply Hfc.
  - intros ep Hep. now apply not_elem_of_nil in Hep.
Qed.

Lemma js_extract_files (env : Env) (rel fname src : string) :
  record_files_are rel (js_extract env rel fname src).
Proof.
  unfold record_files_are, js_extract. simpl. repeat split.
  - intros f (n & -> & _)%elem_of_map. reflexivity.
  - intros c (n & -> & _)%elem_of_map. reflexivity.
  - intros fc (n & -> & _)%elem_of_map. reflexivity.
  - intros ep Hep. now apply not_elem_of_nil in Hep.
Qed.

(** The three extractors, and therefore the router, only ever name the
    file they were given, by its path relative to [REPO_ROOT]. *)
Lemma parse_python_file_spec (env : Env) (fp : string) (r : parsed) :
  parse_python_file env fp = Ok (Some r) ->
  exists rel, rel_path_of env fp (REPO_ROOT env) = Ok rel /\ record_files_are rel r.
Proof.
  unfold parse_python_file. repeat case_match; try discriminate.
  intros (rel & Hrel & [= <-])%rbind_Ok. exists rel. split; [exact Hrel|].
  apply python_extract_files.
Qed.

Lemma parse_with_treesitter_spec (env : Env) (fp lang : string) (r : parsed) :
  parse_with_treesitter env fp lang = Ok (Some r) ->
  exists rel, rel_path_of env fp (REPO_ROOT env) = Ok rel /\ record_files_are rel r.
Proof.
  unfold parse_with_treesitter. repeat case_match; try discriminate.
  intros (rel & Hrel & [= <-])%rbind_Ok. exists rel. split; [exact Hrel|].
  apply ts_extract_files.
Qed.

Lemma parse_js_like_file_spec (env : Env) (fp lang : string) (r : parsed) :
  parse_js_like_file env fp lang = Ok (Some r) ->
  exists rel, rel_path_of env fp (REPO_ROOT env) = Ok rel /\ record_files_are rel r.
Proof.
  unfold parse_js_like_file. repeat case_match; try discriminate.
  intros (rel & Hrel & [= <-])%rbind_Ok. exists rel. split; [exact Hrel|].
  apply js_extract_files.
Qed.

Lemma parse_any_file_spec (env : Env) (fp : string) (r : parsed) :
  parse_any_file env fp = Ok (Some r) ->
  exists rel, rel_path_of env fp (REPO_ROOT env) = Ok rel /\ record_files_are rel r.
Proof.
  unfold parse_any_file. repeat case_match; try discriminate.
  - apply parse_python_file_spec.
  - intros (ts_parsed & Hts & Ho)%rbind_Ok. destruct ts_parsed as [r'|].
    + injection Ho as ->. now apply parse_with_treesitter_spec in Hts.
    + now apply parse_js_like_file_spec in Ho.
  - apply parse_js_like_file_spec.
Qed.

(** None of the extractors raises on a non-empty path. *)
Lemma parse_any_file_returns (env : Env) (fp : string) :
  fp <> "" -> exists o, parse_any_file env fp = Ok o.
Proof.
  intros Hfp. destruct (rel_path_of_returns env fp (REPO_ROOT env) Hfp) as [rel Hrel].
  assert (Hjs : forall lang, exists o, parse_js_like_file env fp lang = Ok o).
  { intros lang. unfold parse_js_like_file. case_match; [|eauto].
    rewrite Hrel. simpl. eauto. }
  unfold parse_any_file. repeat case_match; eauto.
  - unfold parse_python_file. repeat case_match; eauto. rewrite Hrel. simpl. eauto.
  - unfold parse_with_treesitter. repeat case_match; simpl; eauto.
    rewrite Hrel. simpl. eauto.
Qed.

(** ** The first pass *)

Lemma recognized_nonempty (fname : string) : recognized fname = true -> fname <> "".
Proof. intros H ->. discriminate H. Qed.

Lemma degenerate_record_files (env : Env) (repo_root full : string) (r : parsed) :
  degenerate_record env repo_root full = Ok r ->
  exists rel, rel_path_of env full repo_root = Ok rel /\ record_files_are rel r
    /\ r = mk_parsed (mk_file_info rel (os_path.basename full)) [] [] [] [] [].
Proof.
  unfold degenerate_record. intros (rel & Hrel & [= <-])%rbind_Ok.
  exists rel. split; [exact Hrel|]. split; [|reflexivity].
  unfold record_files_are. simpl.
  repeat split; intros x Hx; now apply not_elem_of_nil in Hx.
Qed.

Lemma record_of_returns (env : Env) (repo_root full : string) :
  full <> "" -> exists r, record_of env repo_root full = Ok r.
Proof.
  intros Hne. unfold record_of.
  destruct (parse_any_file_returns env full Hne) as [o ->]. simpl.
  destruct o as [p|]; [eauto|]. unfold degenerate_record.
  destruct (rel_path_of_returns env full repo_root Hne) as [rel ->]. simpl. eauto.
Qed.

(** Every record carries one relative path: the path of its file
    relative to [REPO_ROOT] when an extractor produced it, relative to
    [repo_root] for the File-only record. *)
Lemma record_of_files (env : Env) (repo_root full : string) (r : parsed) :
  record_of env repo_root full = Ok r ->
  exists rel, relative_path rel /\ record_files_are rel r
    /\ (rel_path_of env full (REPO_ROOT env) = Ok rel
        \/ rel_path_of env full repo_root = Ok rel).
Proof.
  unfold record_of. intros (o & Hp & Ho)%rbind_Ok. destruct o as [p|].
  - injection Ho as ->. apply parse_any_file_spec in Hp as (rel & Hrel & Hwf).
    exists rel. split; [now apply rel_path_of_relative in Hrel|]. auto.
  - apply degenerate_record_files in Ho as (rel & Hrel & Hwf & _).
    exists rel. split; [now apply rel_path_of_relative in Hrel|]. auto.
Qed.

Lemma scan_file_unfold (env : Env) (repo_root root : string) (st : pass1_state)
    (fname : string) :
  scan_file env repo_root root st fname
  = if recognized fname
    then try! r <- record_of env repo_root (os_path.join root fname);
         Ok (fst st ++ [r], record_functions (snd st) r)
    else Ok st.
Proof.
  unfold scan_file, recognized, record_of.
  destruct (dict_mem _ _); [|reflexivity].
  destruct (parse_any_file env (os_path.join root fname)) as [[p|]|e]; reflexivity.
Qed.

Lemma scan_files_spec (env : Env) (repo_root root : string) (files : list string)
    (st : pass1_state) :
  exists recs,
    for_each (scan_file env repo_root root) files st
    = Ok (fst st ++ recs, symbol_table_from (snd st) recs)
    /\ Forall2 (fun full r => record_of env repo_root full = Ok r)
         (List.map (os_path.join root) (List.filter recognized files)) recs.
Proof.
  revert st. induction files as [|fname files IH]; intros st.
  - exists []. simpl. rewrite app_nil_r. destruct st. split; [reflexivity | constructor].
  - simpl. rewrite scan_file_unfold. destruct (recognized fname) eqn:Hrec.
    + destruct (record_of_returns env repo_root (os_path.join root fname)) as [r Hr].
      { apply join_nonempty. now apply recognized_nonempty. }
      rewrite Hr. simpl.
      destruct (IH (fst st ++ [r], record_functions (snd st) r)) as (recs & Hfor & Hall).
      exists (r :: recs). split.
      * rewrite Hfor. simpl. now rewrite <- app_assoc.
      * simpl. now constructor.
    + simpl. apply IH.
Qed.

Lemma first_pass_from_spec (env : Env) (repo_root : string)
    (entries : list (string * list string * list string)) (st : pass1_state) :
  exists recs,
    for_each (fun st entry =>
                let '(root, dirs, files) := entry in
                for_each (scan_file env repo_root root) files st) entries st
    = Ok (fst st ++ recs, symbol_table_from (snd st) recs)
    /\ Forall2 (fun full r => record_of env repo_root full = Ok r)
         (flat_map (fun entry : string * list string * list string =>
                      let '(root, dirs, files) := entry in
                      List.map (os_path.join root) (List.filter recognized files))
                   entries) recs.
Proof.
  revert st. induction entries as [|[[root dirs] files] entries IH]; intros st.
  - exists []. simpl. rewrite app_nil_r. destruct st. split; [reflexivity | constructor].
  - simpl. destruct (scan_files_spec env repo_root root files st) as (recs1 & -> & H1).
    simpl. destruct (IH (fst st ++ recs1, symbol_table_from (snd st) recs1))
      as (recs2 & -> & H2).
    exists (recs1 ++ recs2). split.
    + simpl. rewrite <- app_assoc. unfold symbol_table_from.
      now rewrite fold_left_app.
    + now apply Forall2_app.
Qed.

(** The first pass always returns: one record per scanned file, in
    traversal order, and the table built from these records. *)
Lemma first_pass_spec (env : Env) (repo_root : string) :
  exists recs,
    first_pass env repo_root = Ok (recs, symbol_table recs)
    /\ Forall2 (fun full r => record_of env repo_root full = Ok r)
         (scanned_files env repo_root) recs.
Proof.
  destruct (first_pass_from_spec env repo_root (os_walk env repo_root) ([], ∅))
    as (recs & H & Hall).
  exists recs. split; [exact H | exact Hall].
Qed.

Lemma first_pass_inv (env : Env) (repo_root : string) (recs : list parsed)
    (tbl : gmap string string) :
  first_pass env repo_root = Ok (recs, tbl) ->
  tbl = symbol_table recs
  /\ Forall2 (fun full r => record_of env repo_root full = Ok r)
       (scanned_files env repo_root) recs.
Proof.
  destruct (first_pass_spec env repo_root) as (recs' & H & Hall).
  rewrite H. intros [= <- <-]. auto.
Qed.

Lemma first_pass_record (env : Env) (repo_root : string) (recs : list parsed)
    (tbl : gmap string string) (r : parsed) :
  first_pass env repo_root = Ok (recs, tbl) -> r ∈ recs ->
  exists full, full ∈ scanned_files env repo_root
    /\ record_of env repo_root full = Ok r.
Proof.
  intros (_ & Hall)%first_pass_inv Hr.
  apply list_elem_of_lookup in Hr as [i Hi].
  destruct (Forall2_lookup_r _ _ _ _ _ Hall Hi) as (full & Hfull & Hrec).
  exists full. split; [|exact Hrec]. apply list_elem_of_lookup. eauto.
Qed.

(** ** The symbol table: the last definition in traversal order wins *)

Lemma symbol_table_from_all (recs : list parsed) (tbl : gmap string string) :
  symbol_table_from tbl recs = table_of (all_functions recs) tbl.
Proof.
  revert tbl. induction recs as [|r recs IH]; intros tbl; [reflexivity|].
  simpl. rewrite IH. unfold table_of, all_functions. simpl.
  now rewrite fold_left_app.
Qed.

Lemma table_of_snoc (fs : list func_info) (f : func_info) (tbl : gmap string string) :
  table_of (fs ++ [f]) tbl = <[fn_name f := fn_file f]> (table_of fs tbl).
Proof. unfold table_of. now rewrite fold_left_app. Qed.

Lemma table_of_other (fs : list func_info) (tbl : gmap string string) (name : string) :
  (forall f, f ∈ fs -> fn_name f <> name) -> table_of fs tbl !! name = tbl !! name.
Proof.
  revert tbl. induction fs as [|f fs IH]; intros tbl Hfs; [reflexivity|].
  simpl. unfold table_of in IH. rewrite IH.
  - apply lookup_insert_ne. apply Hfs. left.
  - intros f' Hf'. apply Hfs. now right.
Qed.

Lemma table_of_last (l1 l2 : list func_info) (f : func_info)
    (tbl : gmap string string) :
  (forall f', f' ∈ l2 -> fn_name f' <> fn_name f) ->
  table_of (l1 ++ f :: l2) tbl !! fn_name f = Some (fn_file f).
Proof.
  intros Hl2. unfold table_of. rewrite fold_left_app. simpl.
  fold (table_of l1 tbl).
  fold (table_of l2 (<[fn_name f:=fn_file f]> (table_of l1 tbl))).
  rewrite table_of_other by exact Hl2. apply lookup_insert_eq.
Qed.

(** A name that is defined has a last definition. *)
Lemma last_definition (fs : list func_info) (name : string) :
  (exists f, f ∈ fs /\ fn_name f = name) ->
  exists l1 f l2, fs = l1 ++ f :: l2 /\ fn_name f = name
    /\ forall f', f' ∈ l2 -> fn_name f' <> name.
Proof.
  induction fs as [|f0 fs IH]; intros (f & Hf & Hname).
  - now apply not_elem_of_nil in Hf.
  - destruct (decide (Exists (fun f' => fn_name f' = name) fs)) as [Hex | Hno];
      rewrite Exists_exists in *.
    + destruct (IH Hex) as (l1 & f1 & l2 & -> & H1 & H2).
      exists (f0 :: l1), f1, l2. auto.
    + apply elem_of_cons in Hf as [-> | Hf]; [|exfalso; eauto].
      exists [], f0, fs. repeat split; [exact Hname|].
      intros f' Hf' Heq. apply Hno. eauto.
Qed.

Lemma table_of_lookup_Some (fs : list func_info) (name file : string) :
  table_of fs ∅ !! name = Some file ->
  exists f, f ∈ fs /\ fn_name f = name /\ fn_file f = file.
Proof.
  induction fs as [|f fs IH] using rev_ind; intros H.
  - unfold table_of in H. simpl in H. now rewrite lookup_empty in H.
  - rewrite table_of_snoc in H. destruct (decide (fn_name f = name)) as [Heq | Hne].
    + rewrite <- Heq, lookup_insert_eq in H. injection H as <-.
      exists f. split; [apply elem_of_app; right; left | auto].
    + rewrite lookup_insert_ne in H by exact Hne.
      destruct (IH H) as (f' & Hf' & Hn & Hfile).
      exists f'. split; [apply elem_of_app; now left | auto].
Qed.

(** ** The graph writer: what a sequence of upserts leaves in the store *)

Lemma writes_refl (g : graph) : writes g g no_node no_edge.
Proof. unfold writes, no_node, no_edge. repeat split; tauto. Qed.

Lemma writes_trans (g g1 g2 : graph) (N1 N2 : node -> Prop) (E1 E2 : edge -> Prop) :
  writes g g1 N1 E1 -> writes g1 g2 N2 E2 ->
  writes g g2 (fun n => N1 n \/ N2 n) (fun e => E1 e \/ E2 e).
Proof.
  intros (Hn1 & He1 & Hd1 & Hd1') (Hn2 & He2 & Hd2 & Hd2'). repeat split.
  - rewrite Hn2, Hn1. tauto.
  - rewrite Hn2, Hn1. tauto.
  - rewrite He2, He1. tauto.
  - rewrite He2, He1. tauto.
  - auto.
  - auto.
Qed.

Lemma writes_equiv (g g' : graph) (N N' : node -> Prop) (E E' : edge -> Prop) :
  writes g g' N E -> (forall n, N n <-> N' n) -> (forall e, E e <-> E' e) ->
  writes g g' N' E'.
Proof.
  intros (Hn & He & Hd & Hd') HN HE. repeat split; try assumption.
  - rewrite Hn, HN. tauto.
  - rewrite Hn, HN. tauto.
  - rewrite He, HE. tauto.
  - rewrite He, HE. tauto.
Qed.

Lemma merge_node_writes (n : node) (g : graph) :
  writes g (merge_node n g) (fun m => m = n) no_edge.
Proof.
  unfold merge_node, writes, no_edge. destruct (decide (n ∈ nodes g)) as [Hin | Hnin]; simpl.
  - repeat split; try tauto. intros [H | ->]; assumption.
  - repeat split; try tauto.
    + rewrite elem_of_app, list_elem_of_singleton. tauto.
    + rewrite elem_of_app, list_elem_of_singleton. tauto.
    + intros Hd. apply NoDup_app. repeat split; [exact Hd | | apply NoDup_singleton].
      intros x Hx ->%list_elem_of_singleton. contradiction.
Qed.

Lemma merge_edge_writes (a : node) (t : rel_type) (b : node) (g : graph) :
  writes g (merge_edge a t b g) no_node (fun e => e = mk_edge a t b).
Proof.
  unfold merge_edge, writes, no_node.
  destruct (decide (mk_edge a t b ∈ edges g)) as [Hin | Hnin]; simpl.
  - repeat split; try tauto. intros [H | ->]; assumption.
  - repeat split; try tauto.
    + rewrite elem_of_app, list_elem_of_singleton. tauto.
    + rewrite elem_of_app, list_elem_of_singleton. tauto.
    + intros Hd. apply NoDup_app. repeat split; [exact Hd | | apply NoDup_singleton].
      intros x Hx ->%list_elem_of_singleton. contradiction.
Qed.

Lemma merge_path_writes (a : node) (t : rel_type) (b : node) (g : graph) :
  writes g (merge_path a t b g) (fun n => n = a \/ n = b) (fun e => e = mk_edge a t b).
Proof.
  unfold merge_path.
  pose proof (merge_node_writes a g) as H1.
  pose proof (merge_node_writes b (merge_node a g)) as H2.
  pose proof (merge_edge_writes a t b (merge_node b (merge_node a g))) as H3.
  pose proof (writes_trans _ _ _ _ _ _ _ (writes_trans _ _ _ _ _ _ _ H1 H2) H3) as H.
  eapply writes_equiv; [exact H | |].
  - unfold no_node. simpl. tauto.
  - unfold no_edge. simpl. tauto.
Qed.

Lemma set_file_name_writes (path name : string) (g : graph) :
  writes g (set_file_name path name g) no_node no_edge.
Proof. unfold writes, no_node, no_edge. simpl. repeat split; tauto. Qed.

Lemma fold_left_writes {A} (f : graph -> A -> graph) (N : A -> node -> Prop)
    (E : A -> edge -> Prop) (l : list A) (g : graph) :
  (forall g x, x ∈ l -> writes g (f g x) (N x) (E x)) ->
  writes g (fold_left f l g)
    (fun n => exists x, x ∈ l /\ N x n) (fun e => exists x, x ∈ l /\ E x e).
Proof.
  revert g. induction l as [|x l IH]; intros g Hf; simpl.
  - eapply writes_equiv; [apply writes_refl | |]; unfold no_node, no_edge;
      intros y; (split; [tauto | intros (x & Hx & _); now apply not_elem_of_nil in Hx]).
  - eapply writes_equiv.
    + eapply writes_trans; [apply Hf; left | apply IH].
      intros g' y Hy. apply Hf. now right.
    + intros n. split.
      * intros [H | (y & Hy & H)]; [exists x | exists y]; split; auto; [left | now right].
      * intros (y & Hy & H). apply elem_of_cons in Hy as [-> | Hy]; eauto.
    + intros e. split.
      * intros [H | (y & Hy & H)]; [exists x | exists y]; split; auto; [left | now right].
      * intros (y & Hy & H). apply elem_of_cons in Hy as [-> | Hy]; eauto.
Qed.

Lemma for_each_writes {A} (f : graph -> A -> result graph) (N : A -> node -> Prop)
    (E : A -> edge -> Prop) (l : list A) (g : graph) :
  (forall g x, x ∈ l -> exists g', f g x = Ok g' /\ writes g g' (N x) (E x)) ->
  exists g', for_each f l g = Ok g'
    /\ writes g g' (fun n => exists x, x ∈ l /\ N x n) (fun e => exists x, x ∈ l /\ E x e).
Proof.
  revert g. induction l as [|x l IH]; intros g Hf; simpl.
  - exists g. split; [reflexivity|].
    eapply writes_equiv; [apply writes_refl | |]; unfold no_node, no_edge;
      intros y; (split; [tauto | intros (x & Hx & _); now apply not_elem_of_nil in Hx]).
  - destruct (Hf g x) as (g1 & -> & H1); [left|]. simpl.
    destruct (IH g1) as (g2 & -> & H2).
    { intros g' y Hy. apply Hf. now right. }
    exists g2. split; [reflexivity|].
    eapply writes_equiv; [eapply writes_trans; [exact H1 | exact H2] | |].
    + intros n. split.
      * intros [H | (y & Hy & H)]; [exists x | exists y]; split; auto; [left | now right].
      * intros (y & Hy & H). apply elem_of_cons in Hy as [-> | Hy]; eauto.
    + intros e. split.
      * intros [H | (y & Hy & H)]; [exists x | exists y]; split; auto; [left | now right].
      * intros (y & Hy & H). apply elem_of_cons in Hy as [-> | Hy]; eauto.
Qed.

(** ** The second pass, record by record *)

Lemma strings_app_nonempty (a e : string) : e <> "" -> (a ++ e)%string <> "".
Proof. intros He. destruct a; [exact He | discriminate]. Qed.

(** The probing loop never raises, and what it finds is a relative path. *)
Lemma probe_returns (env : Env) (repo_root candidate : string) (exts : list string) :
  (forall e, e ∈ exts -> e <> "") ->
  exists o, probe env repo_root candidate exts = Ok o
    /\ forall p, o = Some p -> relative_path p.
Proof.
  induction exts as [|e exts IH]; intros Hne; simpl.
  - exists None. split; [reflexivity | discriminate].
  - destruct (isfile env _) eqn:Hfile.
    + destruct (rel_path_of_returns env
                  (os_path.join repo_root (candidate ++ e)%string) repo_root)
        as [r Hr].
      { apply join_nonempty, strings_app_nonempty, Hne. left. }
      rewrite Hr. simpl. exists (Some r). split; [reflexivity|].
      intros p [= <-]. now apply rel_path_of_relative in Hr.
    + apply IH. intros e' He'. apply Hne. now right.
Qed.

Lemma import_extensions_nonempty (e : string) : e ∈ import_extensions -> e <> "".
Proof.
  unfold import_extensions. intros H ->.
  repeat (apply elem_of_cons in H as [H|H]; [discriminate|]).
  now apply not_elem_of_nil in H.
Qed.

Lemma resolve_import_returns (env : Env) (repo_root imp : string) :
  exists o, resolve_import env repo_root imp = Ok o
    /\ forall p, o = Some p -> relative_path p.
Proof. apply probe_returns, import_extensions_nonempty. Qed.

Lemma ingest_file_writes (fi : file_info) (g : graph) :
  writes g (ingest_file fi g) (fun n => n = FileN (fi_path fi)) no_edge.
Proof.
  unfold ingest_file.
  pose proof (writes_trans _ _ _ _ _ _ _ (merge_node_writes (FileN (fi_path fi)) g)
                (set_file_name_writes (fi_path fi) (fi_name fi) _)) as H.
  eapply writes_equiv; [exact H | |]; unfold no_node, no_edge; simpl; tauto.
Qed.

Lemma class_step_writes (c : class_info) (g : graph) :
  writes g (class_step g c) (class_nodes c) (class_edges c).
Proof.
  unfold class_step.
  pose proof (merge_path_writes (ClassN (cls_name c) (cls_file c)) DEFINED_IN
                (FileN (cls_file c)) g) as H1.
  fold (ingest_class c g) in H1.
  pose proof (fold_left_writes
    (fun g base_name =>
       if Str.truthy base_name
       then ingest_class_extends (cls_name c) (cls_file c) base_name None g
       else g)
    (fun b n => Str.truthy b = true
                /\ (n = ClassN (cls_name c) (cls_file c) \/ n = ClassN b ""))
    (fun b e => Str.truthy b = true
                /\ e = mk_edge (ClassN (cls_name c) (cls_file c)) EXTENDS (ClassN b ""))
    (cls_bases c) (ingest_class c g)) as H2.
  eapply writes_equiv; [eapply writes_trans; [exact H1 | apply H2] | |].
  - intros g' b _. destruct (Str.truthy b) eqn:Hb.
    + eapply writes_equiv; [apply merge_path_writes | |]; simpl; tauto.
    + eapply writes_equiv; [apply writes_refl | |]; unfold no_node, no_edge;
        intros y; (split; [tauto | intros [? _]; discriminate]).
  - intros n. unfold class_nodes. split.
    + intros [[-> | ->] | (b & Hb & Ht & [-> | ->])]; eauto 10.
    + intros [-> | [-> | (b & Hb & Ht & ->)]]; eauto 10.
  - intros e. unfold class_edges. split.
    + intros [-> | (b & Hb & Ht & ->)]; eauto 10.
    + intros [-> | (b & Hb & Ht & ->)]; eauto 10.
Qed.

Lemma import_step_writes (env : Env) (repo_root from_file : string) (g : graph)
    (imp : string) :
  exists g', import_step env repo_root from_file g imp = Ok g'
    /\ writes g g' (import_nodes env repo_root from_file imp)
         (import_edges env repo_root from_file imp).
Proof.
  unfold import_step, import_nodes, import_edges.
  destruct (resolve_import_returns env repo_root imp) as (o & Ho & Hrel).
  rewrite Ho. cbn [rbind]. destruct o as [p|].
  - destruct (Hrel p eq_refl) as [Ht _]. rewrite Ht.
    eexists. split; [reflexivity|].
    unfold ingest_import. rewrite Ht.
    eapply writes_equiv; [apply merge_path_writes | |].
    + intros n. split; [eauto|]. now intros (p' & [= <-] & H).
    + intros e. split; [eauto|]. now intros (p' & [= <-] & H).
  - exists g. split; [reflexivity|].
    eapply writes_equiv; [apply writes_refl | |]; unfold no_node, no_edge;
      intros y; (split; [tauto | intros (p & Hp & _); discriminate]).
Qed.

Lemma call_step_writes (tbl : gmap string string) (fc : call_info) (g : graph) :
  writes g (call_step tbl g fc) (call_nodes tbl fc) (call_edges tbl fc).
Proof.
  unfold call_step, call_nodes, call_edges, known_caller,
    ingest_function_call, ingest_function_used_in. simpl.
  set (resolved := resolved_called_file tbl fc).
  destruct (fc_caller fc) as [caller|] eqn:Hc;
    [destruct (Str.truthy caller) eqn:Ht|].
  - eapply writes_equiv;
      [eapply writes_trans; apply merge_path_writes | |].
    + intros n. split.
      * intros [[-> | ->] | [-> | ->]]; eauto 10.
      * intros [(c & [[= <-] _] & ->) | [-> | ->]]; tauto.
    + intros e. split.
      * intros [-> | ->]; eauto 10.
      * intros [(c & [[= <-] _] & ->) | ->]; tauto.
  - eapply writes_equiv; [apply merge_path_writes | |].
    + intros n. split; [tauto|].
      intros [(c & [[= <-] Ht'] & _) | H]; [congruence | tauto].
    + intros e. split; [tauto|].
      intros [(c & [[= <-] Ht'] & _) | H]; [congruence | tauto].
  - eapply writes_equiv; [apply merge_path_writes | |].
    + intros n. split; [tauto|].
      intros [(c & [[=] _] & _) | H]; tauto.
    + intros e. split; [tauto|].
      intros [(c & [[=] _] & _) | H]; tauto.
Qed.

(** The writes for one record never raise, and they upsert exactly the
    nodes and relationships of the record. *)
Lemma ingest_parsed_writes (env : Env) (repo_root : string)
    (tbl : gmap string string) (r : parsed) (g : graph) :
  exists g', ingest_parsed env repo_root tbl r g = Ok g'
    /\ writes g g' (record_nodes env repo_root tbl r)
         (record_edges env repo_root tbl r).
Proof.
  unfold ingest_parsed.
  set (g1 := ingest_file (p_file r) g).
  set (g2 := fold_left class_step (p_classes r) g1).
  set (g3 := fold_left (fun g f => ingest_function f g) (p_functions r) g2).
  set (g4 := fold_left (fun g ep => ingest_endpoint ep g) (p_endpoints r) g3).
  pose proof (ingest_file_writes (p_file r) g) as H1. fold g1 in H1.
  pose proof (fold_left_writes class_step class_nodes class_edges (p_classes r) g1
                (fun g' c _ => class_step_writes c g')) as H2. fold g2 in H2.
  pose proof (fold_left_writes (fun g f => ingest_function f g)
                function_nodes function_edges (p_functions r) g2
                (fun g' f _ => merge_path_writes _ _ _ g')) as H3. fold g3 in H3.
  pose proof (fold_left_writes (fun g ep => ingest_endpoint ep g)
                endpoint_nodes endpoint_edges (p_endpoints r) g3
                (fun g' ep _ => merge_path_writes _ _ _ g')) as H4. fold g4 in H4.
  destruct (for_each_writes (import_step env repo_root (fi_path (p_file r)))
              (import_nodes env repo_root (fi_path (p_file r)))
              (import_edges env repo_root (fi_path (p_file r)))
              (p_imports r) g4
              (fun g' imp _ => import_step_writes env repo_root _ g' imp))
    as (g5 & -> & H5).
  simpl. eexists. split; [reflexivity|].
  pose proof (fold_left_writes (call_step tbl) (call_nodes tbl) (call_edges tbl)
                (p_function_calls r) g5
                (fun g' fc _ => call_step_writes tbl fc g')) as H6.
  pose proof (writes_trans _ _ _ _ _ _ _
                (writes_trans _ _ _ _ _ _ _
                   (writes_trans _ _ _ _ _ _ _
                      (writes_trans _ _ _ _ _ _ _
                         (writes_trans _ _ _ _ _ _ _ H1 H2) H3) H4) H5) H6) as H.
  eapply writes_equiv; [exact H | |].
  - intros n. unfold record_nodes, no_edge. tauto.
  - intros e. unfold record_edges, no_edge. tauto.
Qed.

(** ** The whole run *)

Lemma second_pass_writes (env : Env) (repo_root : string) (tbl : gmap string string)
    (recs : list parsed) (g : graph) (out : list printed) :
  exists g',
    for_each (second_pass_step env repo_root false tbl) recs (g, out) = Ok (g', out)
    /\ writes g g'
         (fun n => exists r, r ∈ recs /\ record_nodes env repo_root tbl r n)
         (fun e => exists r, r ∈ recs /\ record_edges env repo_root tbl r e).
Proof.
  revert g. induction recs as [|r recs IH]; intros g; cbn [for_each].
  - exists g. split; [reflexivity|].
    eapply writes_equiv; [apply writes_refl | |]; unfold no_node, no_edge;
      intros y; (split; [tauto | intros (x & Hx & _); now apply not_elem_of_nil in Hx]).
  - unfold second_pass_step at 1. cbn [fst snd].
    destruct (ingest_parsed_writes env repo_root tbl r g) as (g1 & -> & H1).
    cbn [rbind].
    destruct (IH g1) as (g2 & -> & H2). exists g2. split; [reflexivity|].
    eapply writes_equiv; [eapply writes_trans; [exact H1 | exact H2] | |].
    + intros n. split.
      * intros [H | (y & Hy & H)]; [exists r | exists y]; split; auto; [left | now right].
      * intros (y & Hy & H). apply elem_of_cons in Hy as [-> | Hy]; eauto.
    + intros e. split.
      * intros [H | (y & Hy & H)]; [exists r | exists y]; split; auto; [left | now right].
      * intros (y & Hy & H). apply elem_of_cons in Hy as [-> | Hy]; eauto.
Qed.

Lemma second_pass_dry (env : Env) (repo_root : string) (tbl : gmap string string)
    (recs : list parsed) (g : graph) (out : list printed) :
  for_each (second_pass_step env repo_root true tbl) recs (g, out)
  = Ok (g, out ++ List.map dry_run_line recs).
Proof.
  revert out. induction recs as [|r recs IH]; intros out; simpl.
  - now rewrite app_nil_r.
  - rewrite IH. now rewrite <- app_assoc.
Qed.

(** A full run always returns; it prints nothing and leaves in the store
    what was there plus the nodes and relationships of every record. *)
Lemma run_ingestion_full (env : Env) (repo_root : string) (g : graph) :
  exists recs g',
    first_pass env repo_root = Ok (recs, symbol_table recs)
    /\ run_ingestion env repo_root g false = Ok (g', [])
    /\ writes g g' (run_nodes env repo_root recs) (run_edges env repo_root recs).
Proof.
  destruct (first_pass_spec env repo_root) as (recs & Hfp & _).
  destruct (second_pass_writes env repo_root (symbol_table recs) recs g [])
    as (g' & Hsp & Hw).
  exists recs, g'. split; [exact Hfp|]. split; [|exact Hw].
  unfold run_ingestion. rewrite Hfp. exact Hsp.
Qed.

Lemma run_ingestion_dry (env : Env) (repo_root : string) (g : graph) :
  exists recs,
    first_pass env repo_root = Ok (recs, symbol_table recs)
    /\ run_ingestion env repo_root g true = Ok (g, List.map dry_run_line recs).
Proof.
  destruct (first_pass_spec env repo_root) as (recs & Hfp & _).
  exists recs. split; [exact Hfp|].
  unfold run_ingestion. rewrite Hfp. simpl. apply second_pass_dry.
Qed.

(** The paths in the table are the relative paths of scanned files. *)
Lemma symbol_table_relative (env : Env) (repo_root : string) (recs : list parsed)
    (tbl : gmap string string) (name file : string) :
  first_pass env repo_root = Ok (recs, tbl) ->
  tbl !! name = Some file ->
  relative_path file
  /\ exists r, r ∈ recs /\ fi_path (p_file r) = file
       /\ mk_func_info name file ∈ p_functions r.
Proof.
  intros Hfp Hlk. pose proof (first_pass_inv _ _ _ _ Hfp) as [-> _].
  unfold symbol_table in Hlk. rewrite symbol_table_from_all in Hlk.
  apply table_of_lookup_Some in Hlk as (f & Hf & Hname & Hfile).
  apply elem_of_flat_map in Hf as (r & Hr & Hf).
  destruct (first_pass_record _ _ _ _ r Hfp Hr) as (full & _ & Hrec).
  apply record_of_files in Hrec as (rel & Hrel & (Hp & Hfs & _) & _).
  pose proof (Hfs f Hf) as Hff. split; [congruence|].
  exists r. split; [exact Hr|]. split; [congruence|].
  destruct f as [fname ffile]. simpl in *. now subst.
Qed.

Lemma call_site_caller_file (env : Env) (repo_root : string) (recs : list parsed)
    (tbl : gmap string string) (r : parsed) (fc : call_info) :
  first_pass env repo_root = Ok (recs, tbl) -> r ∈ recs ->
  fc ∈ p_function_calls r ->
  fc_caller_file fc = fi_path (p_file r) /\ relative_path (fc_caller_file fc).
Proof.
  intros Hfp Hr Hfc.
  destruct (first_pass_record _ _ _ _ r Hfp Hr) as (full & _ & Hrec).
  apply record_of_files in Hrec as (rel & Hrel & (Hp & _ & _ & Hcs & _) & _).
  rewrite (Hcs fc Hfc). split; [congruence | exact Hrel].
Qed.

(** The lookup [tbl.get(called) or caller_file] on a table of the first pass. *)
Lemma resolved_called_file_spec (env : Env) (repo_root : string)
    (recs : list parsed) (tbl : gmap string string) (fc : call_info) :
  first_pass env repo_root = Ok (recs, tbl) ->
  resolved_called_file tbl fc = default (fc_caller_file fc) (tbl !! fc_called fc).
Proof.
  intros Hfp. unfold resolved_called_file.
  destruct (tbl !! fc_called fc) as [file|] eqn:Hlk; [|reflexivity].
  apply (symbol_table_relative _ _ _ _ _ _ Hfp) in Hlk as [[-> _] _]. reflexivity.
Qed.

(** * The claims *)

(** ** Dry run *)

(** C8.  In dry-run mode the first pass is performed in full (one record
    per scanned file with a recognised extension, and the symbol table
    built from them), one line with the counts of each record is
    printed, and the run returns the store exactly as it received it: no
    upsert is made. *)
Theorem dry_run_leaves_store_unchanged (env : Env) (repo_root : string) (g : graph) :
  exists recs,
    first_pass env repo_root = Ok (recs, symbol_table recs)
    /\ Forall2 (fun full r => record_of env repo_root full = Ok r)
         (scanned_files env repo_root) recs
    /\ run_ingestion env repo_root g true
       = Ok (g, List.map (fun p =>
                   DryRunParsed (fi_path (p_file p)) (length (p_functions p))
                     (length (p_imports p)) (length (p_classes p))) recs).
Proof.
  destruct (first_pass_spec env repo_root) as (recs & Hfp & Hall).
  exists recs. split; [exact Hfp|]. split; [exact Hall|].
  unfold run_ingestion. rewrite Hfp. simpl. apply second_pass_dry.
Qed.

(** ** Call sites of the heuristic extractor *)

Lemma record_edges_calls (env : Env) (repo_root : string) (tbl : gmap string string)
    (r : parsed) (e : edge) :
  record_edges env repo_root tbl r e -> e_type e = CALLS ->
  exists fc caller, fc ∈ p_function_calls r /\ known_caller fc caller
    /\ e = mk_edge (FunctionN caller (fc_caller_file fc)) CALLS
             (FunctionN (fc_called fc) (resolved_called_file tbl fc)).
Proof.
  intros [(c & _ & [-> | (b & _ & _ & ->)]) | [(f & _ & ->) | [(ep & _ & ->)
    | [(imp & _ & (p & _ & ->)) | (fc & Hfc & [(caller & Hk & ->) | ->])]]]];
    simpl; try discriminate.
  intros _. eauto.
Qed.

(** A file of a language other than Python whose grammar is not loaded
    goes to the heuristic extractor. *)
Lemma unloaded_grammar_routes_to_heuristic (env : Env) (filepath lang_key : string) :
  dict_get EXT_LANG_MAP (snd (os_path.splitext (Str.lower filepath))) = Some lang_key ->
  lang_key <> "python" -> LANGUAGE_PARSERS env lang_key = None ->
  parse_any_file env filepath = parse_js_like_file env filepath lang_key.
Proof.
  intros Hext Hpy Hnone. unfold parse_any_file. rewrite Hext, Hnone.
  assert (Ht : Str.truthy lang_key = true).
  { unfold EXT_LANG_MAP in Hext. simpl in Hext.
    repeat (case_match; [injection Hext as <-; reflexivity|]). discriminate. }
  rewrite Ht. simpl. apply String.eqb_neq in Hpy. now rewrite Hpy.
Qed.

(** C5.  Every call site of a record returned by the heuristic lexical
    extractor has no caller; the second pass therefore adds no CALLS
    relationship for such a record, whatever functions and classes it
    defines, while it adds the USED_IN relationship of every call site. *)
Theorem heuristic_record_adds_no_calls (env : Env) (filepath lang_key : string)
    (r : parsed) :
  parse_js_like_file env filepath lang_key = Ok (Some r) ->
  (forall fc, fc ∈ p_function_calls r -> fc_caller fc = None)
  /\ forall repo_root tbl g, exists g',
       ingest_parsed env repo_root tbl r g = Ok g'
       /\ (forall e, e_type e = CALLS -> (e ∈ edges g' <-> e ∈ edges g))
       /\ (forall fc, fc ∈ p_function_calls r ->
             mk_edge (FunctionN (fc_called fc) (resolved_called_file tbl fc))
               USED_IN (FileN (fc_caller_file fc)) ∈ edges g').
Proof.
  intros Hparse.
  assert (Hnone : forall fc, fc ∈ p_function_calls r -> fc_caller fc = None).
  { unfold parse_js_like_file in Hparse.
    destruct (read_utf8_ignore env filepath) as [src|]; [|discriminate].
    apply rbind_Ok in Hparse as (rel & _ & [= <-]).
    intros fc (n & -> & _)%elem_of_map. reflexivity. }
  split; [exact Hnone|]. intros repo_root tbl g.
  destruct (ingest_parsed_writes env repo_root tbl r g) as (g' & Hg' & _ & He & _).
  exists g'. split; [exact Hg'|]. split.
  - intros e Ht. rewrite He. split; [|tauto].
    intros [H | H]; [exact H|].
    apply record_edges_calls in H as (fc & caller & Hfc & [Hc _] & _); [|exact Ht].
    rewrite (Hnone fc Hfc) in Hc. discriminate.
  - intros fc Hfc. apply He. right. unfold record_edges.
    do 4 right. exists fc. split; [exact Hfc|]. now right.
Qed.

Lemma heuristic_record_adds_no_calls_witness :
  exists r,
    parse_js_like_file ExampleJS.env "repo/web/app.js" "javascript" = Ok (Some r)
    /\ p_functions r <> [] /\ p_classes r <> [] /\ p_function_calls r <> []
    /\ forall fc, fc ∈ p_function_calls r -> fc_caller fc = None.
Proof.
  eexists. split; [vm_compute; reflexivity|].
  split; [discriminate|]. split; [discriminate|]. split; [discriminate|].
  apply (heuristic_record_adds_no_calls ExampleJS.env "repo/web/app.js" "javascript").
  vm_compute. reflexivity.
Defined.

(** ** Endpoints *)

(** C10.  A record returned by the grammar-based extractor or by the
    heuristic lexical extractor has an empty list of endpoints, for every
    input file: only the Python extractor produces Endpoint records. *)
Theorem only_python_produces_endpoints (env : Env) (filepath lang_key : string)
    (r : parsed) :
  parse_with_treesitter env filepath lang_key = Ok (Some r)
  \/ parse_js_like_file env filepath lang_key = Ok (Some r) ->
  p_endpoints r = [].
Proof.
  intros [H | H].
  - unfold parse_with_treesitter in H. repeat case_match; try discriminate.
    apply rbind_Ok in H as (rel & _ & [= <-]). reflexivity.
  - unfold parse_js_like_file in H. repeat case_match; try discriminate.
    apply rbind_Ok in H as (rel & _ & [= <-]). reflexivity.
Qed.

Lemma only_python_produces_endpoints_witness :
  exists r,
    parse_with_treesitter ExampleJS.env "repo/web/ui.ts" "typescript" = Ok (Some r)
    /\ p_functions r <> [] /\ p_endpoints r = [].
Proof.
  eexists. split; [vm_compute; reflexivity|]. split; [discriminate|].
  apply (only_python_produces_endpoints ExampleJS.env "repo/web/ui.ts" "typescript").
  left. vm_compute. reflexivity.
Defined.

(** ** Call resolution *)

(** C2.  For every call site of every record of the first pass, the
    resolved called file is the symbol table's entry for the called name
    when there is one and the caller's file otherwise; and after a full
    run the store holds the USED_IN relationship from the called function
    (by its resolved file) to the caller's file, whether or not the call
    site has a caller name. *)
Theorem call_site_resolution (env : Env) (repo_root : string) (g : graph)
    (recs : list parsed) (tbl : gmap string string) (r : parsed) (fc : call_info) :
  first_pass env repo_root = Ok (recs, tbl) ->
  r ∈ recs -> fc ∈ p_function_calls r ->
  resolved_called_file tbl fc
  = match tbl !! fc_called fc with
    | Some file => file
    | None => fc_caller_file fc
    end
  /\ exists g' out,
       run_ingestion env repo_root g false = Ok (g', out)
       /\ mk_edge (FunctionN (fc_called fc) (resolved_called_file tbl fc)) USED_IN
            (FileN (fc_caller_file fc)) ∈ edges g'.
Proof.
  intros Hfp Hr Hfc. split.
  - rewrite (resolved_called_file_spec _ _ _ _ fc Hfp).
    now destruct (tbl !! fc_called fc).
  - destruct (run_ingestion_full env repo_root g) as (recs' & g' & Hfp' & Hrun & Hw).
    rewrite Hfp in Hfp'. injection Hfp' as <- ->.
    exists g', []. split; [exact Hrun|].
    destruct Hw as (_ & He & _). apply He. right.
    exists r. split; [exact Hr|]. unfold record_edges. do 4 right.
    exists fc. split; [exact Hfc|]. now right.
Qed.

Lemma call_site_resolution_witness :
  exists g' out,
    run_ingestion ExampleJS.env "repo" empty_graph false = Ok (g', out)
    /\ mk_edge (FunctionN "render" "web/ui.ts") USED_IN (FileN "web/app.js")
         ∈ edges g'.
Proof.
  destruct (first_pass ExampleJS.env "repo") as [[recs tbl]|] eqn:Hfp;
    [|vm_compute in Hfp; discriminate].
  pose proof Hfp as Hval. vm_compute in Hval. injection Hval as Hrecs Htbl.
  set (fc := mk_call_info None "web/app.js" "render" None).
  destruct (call_site_resolution ExampleJS.env "repo" empty_graph recs tbl
              (mk_parsed (mk_file_info "web/app.js" "app.js")
                 [mk_func_info "start" "web/app.js"]
                 [mk_class_info "App" [] "web/app.js"] ["./ui"]
                 [mk_call_info None "web/app.js" "start" None; fc] []) fc Hfp)
    as (Hres & g' & out & Hrun & Hin).
  - rewrite <- Hrecs. left.
  - right. left.
  - exists g', out. split; [exact Hrun|].
    replace (resolved_called_file tbl fc) with "web/ui.ts" in Hin; [exact Hin|].
    rewrite <- Htbl. vm_compute. reflexivity.
Defined.

(** C9.  For every call site of a run, the caller's file is a non-empty
    relative path and the resolved called file is non-empty: the lookup
    falls back to the caller's file whenever the table has no entry.
    Hence every CALLS or USED_IN relationship written by a full run
    names its called function with a non-empty file: the empty-string
    default of the two upserts is never what the resolver passes. *)
Theorem resolved_file_never_empty (env : Env) (repo_root : string)
    (recs : list parsed) (tbl : gmap string string) :
  first_pass env repo_root = Ok (recs, tbl) ->
  (forall r fc, r ∈ recs -> fc ∈ p_function_calls r ->
     relative_path (fc_caller_file fc)
     /\ (tbl !! fc_called fc = None ->
         resolved_called_file tbl fc = fc_caller_file fc)
     /\ resolved_called_file tbl fc <> ""
     /\ or_empty (Some (resolved_called_file tbl fc)) <> "")
  /\ forall g, exists g' out,
       run_ingestion env repo_root g false = Ok (g', out)
       /\ forall e name file, e ∈ edges g' -> e ∉ edges g ->
            (e_type e = CALLS /\ e_to e = FunctionN name file)
            \/ (e_type e = USED_IN /\ e_from e = FunctionN name file) ->
            file <> "".
Proof.
  intros Hfp.
  assert (Hsite : forall r fc, r ∈ recs -> fc ∈ p_function_calls r ->
            relative_path (fc_caller_file fc)
            /\ (tbl !! fc_called fc = None ->
                resolved_called_file tbl fc = fc_caller_file fc)
            /\ resolved_called_file tbl fc <> "").
  { intros r fc Hr Hfc.
    destruct (call_site_caller_file _ _ _ _ _ _ Hfp Hr Hfc) as [_ Hrel].
    split; [exact Hrel|]. rewrite (resolved_called_file_spec _ _ _ _ fc Hfp).
    split; [now intros ->|].
    destruct (tbl !! fc_called fc) as [file|] eqn:Hlk; simpl.
    - apply (symbol_table_relative _ _ _ _ _ _ Hfp) in Hlk as [[Ht _] _].
      now apply truthy_true.
    - destruct Hrel as [Ht _]. now apply truthy_true. }
  split.
  - intros r fc Hr Hfc. destruct (Hsite r fc Hr Hfc) as (H1 & H2 & H3). auto.
  - intros g.
    destruct (run_ingestion_full env repo_root g) as (recs' & g' & Hfp' & Hrun & Hw).
    rewrite Hfp in Hfp'. injection Hfp' as <- ->.
    exists g', []. split; [exact Hrun|].
    intros e name file Hin Hnew Hkind. destruct Hw as (_ & He & _).
    apply He in Hin as [Hold | (r & Hr & Hrec)]; [contradiction|].
    destruct Hrec as [(c & _ & [-> | (b & _ & _ & ->)]) | [(f & _ & ->)
      | [(ep & _ & ->) | [(imp & _ & (p & _ & ->))
      | (fc & Hfc & [(caller & _ & ->) | ->])]]]]; simpl in Hkind;
      destruct Hkind as [[Ht Hn] | [Ht Hn]]; try discriminate;
      injection Hn as _ <-; now apply (Hsite r fc Hr Hfc).
Qed.

Lemma resolved_file_never_empty_witness :
  exists g' out,
    run_ingestion ExampleJS.env "repo" empty_graph false = Ok (g', out)
    /\ forall e name file, e ∈ edges g' -> e ∉ edges empty_graph ->
         (e_type e = CALLS /\ e_to e = FunctionN name file)
         \/ (e_type e = USED_IN /\ e_from e = FunctionN name file) ->
         file <> "".
Proof.
  destruct (first_pass ExampleJS.env "repo") as [[recs tbl]|] eqn:Hfp;
    [|vm_compute in Hfp; discriminate].
  exact (proj2 (resolved_file_never_empty ExampleJS.env "repo" recs tbl Hfp)
           empty_graph).
Defined.

(** ** Name collisions in the symbol table *)

(** Among the records that define a name there is a last one. *)
Lemma last_defining_record (recs : list parsed) (name : string) :
  (exists r, r ∈ recs /\ defines_name r name) ->
  exists l1 r l2, recs = l1 ++ r :: l2 /\ defines_name r name
    /\ forall r', r' ∈ l2 -> ~ defines_name r' name.
Proof.
  induction recs as [|r0 recs IH]; intros (r & Hr & Hdef).
  - now apply not_elem_of_nil in Hr.
  - destruct (decide (Exists (fun r' => defines_name r' name) recs)) as [Hex | Hno];
      rewrite Exists_exists in *.
    + destruct (IH Hex) as (l1 & r1 & l2 & -> & H1 & H2).
      exists (r0 :: l1), r1, l2. auto.
    + apply elem_of_cons in Hr as [-> | Hr]; [|exfalso; eauto].
      exists [], r0, recs. repeat split; [exact Hdef|].
      intros r' Hr' Hd. apply Hno. eauto.
Qed.

Lemma symbol_table_last_record (l1 l2 : list parsed) (r : parsed) (name : string) :
  defines_name r name ->
  (forall r', r' ∈ l2 -> ~ defines_name r' name) ->
  exists f, f ∈ p_functions r /\ fn_name f = name
    /\ symbol_table (l1 ++ r :: l2) !! name = Some (fn_file f).
Proof.
  intros Hdef Hl2.
  destruct (last_definition (p_functions r) name Hdef) as (a & f & b & Hr & Hname & Hb).
  exists f. split; [rewrite Hr; apply elem_of_app; right; left|]. split; [exact Hname|].
  unfold symbol_table. rewrite symbol_table_from_all. unfold all_functions.
  rewrite flat_map_app. simpl. rewrite Hr, <- !app_assoc. simpl.
  rewrite app_assoc. rewrite <- Hname. apply table_of_last.
  intros f' [Hf' | Hf']%elem_of_app; [rewrite Hname; now apply Hb|].
  apply elem_of_flat_map in Hf' as (r' & Hr' & Hf'). rewrite Hname.
  intros Heq. apply (Hl2 r' Hr'). exists f'. auto.
Qed.

(** The entry of a defined name: the file of the last record, in
    traversal order, that defines it. *)
Lemma symbol_table_last_definer (env : Env) (repo_root : string)
    (recs : list parsed) (tbl : gmap string string) (name : string) :
  first_pass env repo_root = Ok (recs, tbl) ->
  (exists r, r ∈ recs /\ defines_name r name) ->
  exists l1 r l2,
    recs = l1 ++ r :: l2
    /\ defines_name r name
    /\ (forall r', r' ∈ l2 -> ~ defines_name r' name)
    /\ tbl !! name = Some (fi_path (p_file r)).
Proof.
  intros Hfp Hex.
  destruct (last_defining_record recs name Hex) as (l1 & r & l2 & Hrecs & Hdef & Hl2).
  exists l1, r, l2. split; [exact Hrecs|]. split; [exact Hdef|]. split; [exact Hl2|].
  pose proof (first_pass_inv _ _ _ _ Hfp) as [-> _]. rewrite Hrecs.
  destruct (symbol_table_last_record l1 l2 r name Hdef Hl2) as (f & Hf & _ & ->).
  destruct (first_pass_record _ _ _ _ r Hfp) as (full & _ & Hrec).
  { rewrite Hrecs. apply elem_of_app. right. left. }
  apply record_of_files in Hrec as (rel & _ & (Hp & Hfs & _) & _).
  rewrite (Hfs f Hf). congruence.
Qed.

(** C3.  When a name is defined in several files, the table built by the
    first pass maps it to exactly one of them: the file of the last
    record, in traversal order, that defines it.  Every call to the name
    is resolved to that file, and every run over the same tree, whatever
    the store holds and whatever the mode, works with this same table. *)
Theorem symbol_table_tie_break (env : Env) (repo_root : string)
    (recs : list parsed) (tbl : gmap string string) (name : string) :
  first_pass env repo_root = Ok (recs, tbl) ->
  (exists r, r ∈ recs /\ defines_name r name) ->
  exists l1 r l2,
    recs = l1 ++ r :: l2
    /\ defines_name r name
    /\ (forall r', r' ∈ l2 -> ~ defines_name r' name)
    /\ tbl !! name = Some (fi_path (p_file r))
    /\ (forall fc, fc_called fc = name ->
          resolved_called_file tbl fc = fi_path (p_file r))
    /\ forall g dry_run,
         run_ingestion env repo_root g dry_run
         = for_each (second_pass_step env repo_root dry_run tbl) recs (g, []).
Proof.
  intros Hfp Hex.
  destruct (symbol_table_last_definer env repo_root recs tbl name Hfp Hex)
    as (l1 & r & l2 & Hrecs & Hdef & Hl2 & Hlk).
  exists l1, r, l2. split; [exact Hrecs|]. split; [exact Hdef|]. split; [exact Hl2|].
  split; [exact Hlk|]. split.
  - intros fc Hfc. rewrite (resolved_called_file_spec _ _ _ _ fc Hfp), Hfc, Hlk.
    reflexivity.
  - intros g dry_run. unfold run_ingestion. rewrite Hfp. reflexivity.
Qed.

Lemma symbol_table_tie_break_witness :
  exists recs tbl,
    first_pass ExampleRun.env "repo" = Ok (recs, tbl)
    /\ List.map (fun r => fi_path (p_file r)) recs = ["z.py"; "jobs/x.py"; "jobs/y.py"]
    /\ tbl !! "run" = Some "jobs/y.py"
    /\ exists l1 r l2, recs = l1 ++ r :: l2
         /\ (forall r', r' ∈ l2 -> ~ defines_name r' "run")
         /\ tbl !! "run" = Some (fi_path (p_file r)).
Proof.
  destruct (first_pass ExampleRun.env "repo") as [[recs tbl]|] eqn:Hfp;
    [|vm_compute in Hfp; discriminate].
  exists recs, tbl. split; [reflexivity|].
  pose proof Hfp as Hval. vm_compute in Hval. injection Hval as Hrecs Htbl.
  split; [rewrite <- Hrecs; reflexivity|].
  split; [rewrite <- Htbl; vm_compute; reflexivity|].
  destruct (symbol_table_tie_break ExampleRun.env "repo" recs tbl "run" Hfp)
    as (l1 & r & l2 & Hsplit & Hdef & Hl2 & Hlk & _).
  - rewrite <- Hrecs. eexists. split; [right; left|].
    eexists. split; [left | reflexivity].
  - exists l1, r, l2. auto.
Defined.

(** ** The resolution example *)

Lemma record_of_python (env : Env) (repo_root full : string) (tree : AST)
    (rel : string) :
  python_source env full tree ->
  rel_path_of env full (REPO_ROOT env) = Ok rel ->
  record_of env repo_root full
  = Ok (python_extract rel (ast_dump env) (os_path.basename full) tree).
Proof.
  intros (Hext & source & Hread & Hparse) Hrel.
  unfold record_of, parse_any_file. rewrite Hext. simpl.
  unfold parse_python_file. rewrite Hread, Hparse, Hrel. reflexivity.
Qed.

Lemma python_extract_defines (rel : string) (dump : AST -> string)
    (fname : string) (tree : AST) (name : string) :
  defines_function tree name ->
  mk_func_info name rel ∈ p_functions (python_extract rel dump fname tree).
Proof.
  intros (args & body & decs & rest & Hsub).
  rewrite python_extract_functions. apply elem_of_flat_map.
  eexists. split; [apply walk_complete, Hsub|]. left.
Qed.

Lemma python_extract_body_calls (rel : string) (dump : AST -> string)
    (fname : string) (tree : AST) (caller callee : string) :
  Str.truthy callee = true ->
  body_calls tree caller callee ->
  mk_call_info (Some caller) rel callee None
    ∈ p_function_calls (python_extract rel dump fname tree).
Proof.
  intros Ht (args & body & decs & rest & stmt & cargs & ckws & Hfn & Hstmt & Hcall).
  rewrite python_extract_calls. apply elem_of_flat_map.
  exists (FunctionDef caller args body decs rest, mk_func_info caller rel). split.
  - apply elem_of_flat_map. eexists. split; [apply walk_complete, Hfn|]. left.
  - unfold calls_of_func_def. apply elem_of_flat_map.
    exists (Call (Name callee) cargs ckws). split.
    + apply walk_complete. apply (subnode_child _ stmt); [|exact Hcall].
      simpl. right. apply elem_of_app. now left.
    + unfold call_of_sub. simpl. rewrite Ht. left.
Qed.

Lemma scanned_record (env : Env) (repo_root : string) (recs : list parsed)
    (tbl : gmap string string) (full : string) (r : parsed) :
  first_pass env repo_root = Ok (recs, tbl) ->
  full ∈ scanned_files env repo_root ->
  record_of env repo_root full = Ok r -> r ∈ recs.
Proof.
  intros (_ & Hall)%first_pass_inv Hfull Hrec.
  apply list_elem_of_lookup in Hfull as [i Hi].
  destruct (Forall2_lookup_l _ _ _ _ _ Hall Hi) as (r' & Hr' & Hrec').
  rewrite Hrec in Hrec'. injection Hrec' as <-.
  apply list_elem_of_lookup. eauto.
Qed.

(** C1.  File [fa] (a.py) defines [helper], file [fb] (b.py) defines
    [main] whose body contains the call [helper()], and no other scanned
    file defines [helper].  After a full run the store holds the
    Function nodes (helper, a.py) and (main, b.py), the CALLS
    relationship from (main, b.py) to (helper, a.py) and the USED_IN
    relationship from (helper, a.py) to the file b.py. *)
Theorem resolution_example (env : Env) (repo_root : string) (g : graph)
    (fa fb : string) (tree_a tree_b : AST) (a_py b_py : string) :
  fa ∈ scanned_files env repo_root -> fb ∈ scanned_files env repo_root ->
  python_source env fa tree_a -> python_source env fb tree_b ->
  rel_path_of env fa (REPO_ROOT env) = Ok a_py ->
  rel_path_of env fb (REPO_ROOT env) = Ok b_py ->
  defines_function tree_a "helper" ->
  body_calls tree_b "main" "helper" ->
  (forall full r, full ∈ scanned_files env repo_root ->
     record_of env repo_root full = Ok r -> defines_name r "helper" -> full = fa) ->
  exists g' out,
    run_ingestion env repo_root g false = Ok (g', out)
    /\ FunctionN "helper" a_py ∈ nodes g'
    /\ FunctionN "main" b_py ∈ nodes g'
    /\ mk_edge (FunctionN "main" b_py) CALLS (FunctionN "helper" a_py) ∈ edges g'
    /\ mk_edge (FunctionN "helper" a_py) USED_IN (FileN b_py) ∈ edges g'.
Proof.
  intros Hfa Hfb Hsa Hsb Hpa Hpb Hdef Hcall Honly.
  destruct (run_ingestion_full env repo_root g) as (recs & g' & Hfp & Hrun & Hw).
  exists g', []. split; [exact Hrun|].
  set (ra := python_extract a_py (ast_dump env) (os_path.basename fa) tree_a).
  set (rb := python_extract b_py (ast_dump env) (os_path.basename fb) tree_b).
  assert (Hra : ra ∈ recs)
    by (apply (scanned_record _ _ _ _ fa ra Hfp Hfa), record_of_python; assumption).
  assert (Hrb : rb ∈ recs)
    by (apply (scanned_record _ _ _ _ fb rb Hfp Hfb), record_of_python; assumption).
  assert (Hhelper : mk_func_info "helper" a_py ∈ p_functions ra)
    by (apply python_extract_defines, Hdef).
  set (fc := mk_call_info (Some "main") b_py "helper" None).
  assert (Hfc : fc ∈ p_function_calls rb)
    by (apply python_extract_body_calls; [reflexivity | exact Hcall]).
  assert (Hmain : mk_func_info "main" b_py ∈ p_functions rb).
  { apply python_extract_defines.
    destruct Hcall as (args & body & decs & rest & _ & _ & _ & Hfn & _).
    now exists args, body, decs, rest. }
  assert (Hres : resolved_called_file (symbol_table recs) fc = a_py).
  { destruct (symbol_table_last_definer env repo_root recs _ "helper" Hfp)
      as (l1 & r & l2 & Hsplit & Hdefr & _ & Hlk).
    { exists ra. split; [exact Hra|]. eexists. split; [exact Hhelper | reflexivity]. }
    rewrite (resolved_called_file_spec _ _ _ _ fc Hfp). simpl. rewrite Hlk. simpl.
    destruct (first_pass_record _ _ _ _ r Hfp) as (full & Hfull & Hrec).
    { rewrite Hsplit. apply elem_of_app. right. left. }
    pose proof (Honly full r Hfull Hrec Hdefr) as ->.
    rewrite (record_of_python env repo_root fa tree_a a_py Hsa Hpa) in Hrec.
    injection Hrec as <-. reflexivity. }
  destruct Hw as (Hn & He & _). repeat split.
  - apply Hn. right. exists ra. split; [exact Hra|]. unfold record_nodes.
    do 2 right. left. eexists. split; [exact Hhelper|]. now left.
  - apply Hn. right. exists rb. split; [exact Hrb|]. unfold record_nodes.
    do 2 right. left. eexists. split; [exact Hmain|]. now left.
  - apply He. right. exists rb. split; [exact Hrb|]. unfold record_edges.
    do 4 right. exists fc. split; [exact Hfc|]. left. exists "main".
    rewrite Hres. split; [split; reflexivity | reflexivity].
  - apply He. right. exists rb. split; [exact Hrb|]. unfold record_edges.
    do 4 right. exists fc. split; [exact Hfc|]. right. rewrite Hres. reflexivity.
Qed.

Lemma resolution_example_witness :
  exists g' out,
    run_ingestion ExampleAB.env "repo" empty_graph false = Ok (g', out)
    /\ FunctionN "helper" "a.py" ∈ nodes g'
    /\ FunctionN "main" "b.py" ∈ nodes g'
    /\ mk_edge (FunctionN "main" "b.py") CALLS (FunctionN "helper" "a.py") ∈ edges g'
    /\ mk_edge (FunctionN "helper" "a.py") USED_IN (FileN "b.py") ∈ edges g'.
Proof.
  apply (resolution_example ExampleAB.env "repo" empty_graph
           "repo/a.py" "repo/b.py" ExampleAB.tree_a ExampleAB.tree_b "a.py" "b.py").
  - vm_compute. left.
  - vm_compute. right. left.
  - split; [vm_compute; reflexivity|]. exists ExampleAB.src_a.
    split; vm_compute; reflexivity.
  - split; [vm_compute; reflexivity|]. exists ExampleAB.src_b.
    split; vm_compute; reflexivity.
  - vm_compute. reflexivity.
  - vm_compute. reflexivity.
  - exists no_arguments, [pass_stmt], [], [].
    apply (subnode_child _ (FunctionDef "helper" no_arguments [pass_stmt] [] []));
      [left | constructor].
  - exists no_arguments, [expr_stmt (Call (Name "helper") [] [])], [], [],
      (expr_stmt (Call (Name "helper") [] [])), [], [].
    split; [|split].
    + apply (subnode_child _ ExampleAB.main_def); [left | constructor].
    + left.
    + apply (subnode_child _ (Call (Name "helper") [] [])); [left | constructor].
  - intros full r Hfull Hrec (f & Hf & Hname).
    change (scanned_files ExampleAB.env "repo") with ["repo/a.py"; "repo/b.py"] in Hfull.
    apply elem_of_cons in Hfull as [-> | Hfull]; [reflexivity|].
    apply list_elem_of_singleton in Hfull. subst full. exfalso.
    vm_compute in Hrec. injection Hrec as <-.
    apply list_elem_of_singleton in Hf. subst f. discriminate Hname.
Defined.

(** ** Import resolution *)

Lemma drop_while_split (p : ascii -> bool) (l : Str.chars) :
  exists pre, l = pre ++ Str.drop_while p l
    /\ Forall (fun c => p c = true) pre
    /\ match Str.drop_while p l with
       | [] => True
       | c :: _ => p c = false
       end.
Proof.
  induction l as [|c l (pre & Hl & Hpre & Hhd)]; simpl.
  - exists []. auto.
  - destruct (p c) eqn:Hc.
    + exists (c :: pre). split; [simpl; congruence|]. split; [now constructor | exact Hhd].
    + exists []. auto.
Qed.

Lemma rstrip_by_split (p : ascii -> bool) (l : Str.chars) :
  exists post, l = Str.rstrip_by p l ++ post
    /\ Forall (fun c => p c = true) post
    /\ match last (Str.rstrip_by p l) with
       | None => True
       | Some c => p c = false
       end.
Proof.
  unfold Str.rstrip_by.
  destruct (drop_while_split p (rev l)) as (pre & Hl & Hpre & Hhd).
  exists (rev pre). split; [|split].
  - rewrite <- rev_app_distr, <- Hl. now rewrite rev_involutive.
  - apply Forall_forall. intros c Hc. rewrite Forall_forall in Hpre.
    apply Hpre. apply list_elem_of_In, in_rev. now apply list_elem_of_In.
  - destruct (Str.drop_while p (rev l)) as [|c l']; [exact I|].
    simpl. now rewrite last_snoc.
Qed.

(** [imp.strip().rstrip(";").strip()] removes whitespace in front and
    whitespace and semicolons behind, and what it returns neither begins
    nor ends with whitespace. *)
Lemma clean_import_spec (imp : string) :
  (exists pre post,
     Str.to_chars imp = pre ++ Str.to_chars (clean_import imp) ++ post
     /\ Forall (fun c => Str.is_space c = true) pre
     /\ Forall (fun c => Str.is_space c = true \/ c = ";"%char) post)
  /\ match Str.to_chars (clean_import imp) with
     | [] => True
     | c :: _ => Str.is_space c = false
     end
  /\ match last (Str.to_chars (clean_import imp)) with
     | None => True
     | Some c => Str.is_space c = false
     end.
Proof.
  unfold clean_import, Str.strip, Str.rstrip_char, Str.lstrip_by.
  rewrite !to_of_chars.
  set (l0 := Str.to_chars imp).
  destruct (drop_while_split Str.is_space l0) as (w1 & H1 & Hw1 & _).
  set (l1 := Str.drop_while Str.is_space l0) in *.
  destruct (rstrip_by_split Str.is_space l1) as (w2 & H2 & Hw2 & _).
  set (l2 := Str.rstrip_by Str.is_space l1) in *.
  destruct (rstrip_by_split (Str.ascii_eqb ";") l2) as (semis & H3 & Hsemis & _).
  set (l3 := Str.rstrip_by (Str.ascii_eqb ";") l2) in *.
  destruct (drop_while_split Str.is_space l3) as (w3 & H4 & Hw3 & Hhd).
  set (l4 := Str.drop_while Str.is_space l3) in *.
  destruct (rstrip_by_split Str.is_space l4) as (w4 & H5 & Hw4 & Hlast).
  set (l5 := Str.rstrip_by Str.is_space l4) in *.
  split; [|split].
  - exists (w1 ++ w3), (w4 ++ semis ++ w2). split; [|split].
    + rewrite H1, H2, H3, H4, H5 at 1. now rewrite <- !app_assoc.
    + apply Forall_app. auto.
    + rewrite !Forall_app. repeat split.
      * eapply Forall_impl; [exact Hw4 | auto].
      * eapply Forall_impl; [exact Hsemis|]. intros c Hc. right.
        apply ascii_eqb_true in Hc. now subst.
      * eapply Forall_impl; [exact Hw2 | auto].
  - destruct l5 as [|c l5'] eqn:Hl5; [exact I|].
    rewrite H5 in Hhd. simpl in Hhd. exact Hhd.
  - exact Hlast.
Qed.

Lemma replace_dots_spec (s : string) :
  ("."%char ∉ Str.to_chars (Str.replace_char "." "/" s))
  /\ length (Str.to_chars (Str.replace_char "." "/" s)) = length (Str.to_chars s).
Proof.
  unfold Str.replace_char. rewrite to_of_chars. split; [|apply length_map].
  intros (c & Hc & _)%elem_of_map.
  destruct (Str.ascii_eqb c ".") eqn:Heq; [discriminate|].
  subst c. now rewrite (proj2 (ascii_eqb_true "." ".") eq_refl) in Heq.
Qed.

Lemma probe_first (env : Env) (repo_root candidate : string)
    (before : list string) (e : string) (after : list string) :
  (forall e', e' ∈ before ->
     isfile env (os_path.join repo_root (candidate ++ e')%string) = false) ->
  isfile env (os_path.join repo_root (candidate ++ e)%string) = true ->
  probe env repo_root candidate (before ++ e :: after)
  = (try! to_path <- rel_path_of env (os_path.join repo_root (candidate ++ e)%string)
                       repo_root;
     Ok (Some to_path)).
Proof.
  intros Hbefore He. induction before as [|e0 before IH]; simpl.
  - now rewrite He.
  - rewrite (Hbefore e0) by left. apply IH. intros e' He'. apply Hbefore. now right.
Qed.

Lemma probe_none (env : Env) (repo_root candidate : string) (exts : list string) :
  (forall e, e ∈ exts ->
     isfile env (os_path.join repo_root (candidate ++ e)%string) = false) ->
  probe env repo_root candidate exts = Ok None.
Proof.
  induction exts as [|e exts IH]; intros Hall; simpl; [reflexivity|].
  rewrite (Hall e) by left. apply IH. intros e' He'. apply Hall. now right.
Qed.

(** C6.  For a raw import string the resolver removes surrounding
    whitespace and trailing semicolons, replaces every "." by "/", and
    probes the extensions .py, .js, .ts, .jsx, .tsx in this order under
    the tree root.  The first candidate that is a file gives the IMPORTS
    relationship from the importing file to it (by its path relative to
    the root); when no candidate is a file the step returns the store
    unchanged, and in neither case is an error raised. *)
Theorem import_resolution (env : Env) (repo_root from_file imp : string) (g : graph) :
  (exists pre post,
     Str.to_chars imp = pre ++ Str.to_chars (clean_import imp) ++ post
     /\ Forall (fun c => Str.is_space c = true) pre
     /\ Forall (fun c => Str.is_space c = true \/ c = ";"%char) post)
  /\ ("."%char ∉ Str.to_chars (Str.replace_char "." "/" (clean_import imp)))
  /\ (forall before e after,
        [".py"; ".js"; ".ts"; ".jsx"; ".tsx"] = before ++ e :: after ->
        (forall e', e' ∈ before ->
           isfile env (import_candidate repo_root imp e') = false) ->
        isfile env (import_candidate repo_root imp e) = true ->
        exists to_path g',
          rel_path_of env (import_candidate repo_root imp e) repo_root = Ok to_path
          /\ import_step env repo_root from_file g imp = Ok g'
          /\ writes g g' (fun n => n = FileN from_file \/ n = FileN to_path)
               (fun e => e = mk_edge (FileN from_file) IMPORTS (FileN to_path)))
  /\ ((forall e, e ∈ [".py"; ".js"; ".ts"; ".jsx"; ".tsx"] ->
         isfile env (import_candidate repo_root imp e) = false) ->
      import_step env repo_root from_file g imp = Ok g).
Proof.
  split; [apply clean_import_spec|]. split; [apply replace_dots_spec|]. split.
  - intros before e after Hexts Hbefore He.
    destruct (rel_path_of_returns env (import_candidate repo_root imp e) repo_root)
      as [to_path Hto].
    { apply join_nonempty, strings_app_nonempty. intros ->.
      assert (Hin : "" ∈ import_extensions).
      { unfold import_extensions. rewrite Hexts. apply elem_of_app. right. left. }
      now apply import_extensions_nonempty in Hin. }
    assert (Hres : resolve_import env repo_root imp = Ok (Some to_path)).
    { unfold resolve_import, import_extensions. rewrite Hexts.
      unfold import_candidate in *. rewrite probe_first by assumption.
      now rewrite Hto. }
    destruct (import_step_writes env repo_root from_file g imp) as (g' & Hstep & Hw).
    exists to_path, g'. split; [exact Hto|]. split; [exact Hstep|].
    eapply writes_equiv; [exact Hw | |].
    + intros n. unfold import_nodes. rewrite Hres. split.
      * now intros (p & [= <-] & H).
      * eauto.
    + intros e0. unfold import_edges. rewrite Hres. split.
      * now intros (p & [= <-] & H).
      * eauto.
  - intros Hnone. unfold import_step, resolve_import, import_extensions.
    rewrite probe_none by exact Hnone. reflexivity.
Qed.

Lemma import_resolution_witness :
  (exists g',
     import_step ExamplePkg.env "repo" "pkg/mod.py" empty_graph " pkg.util ; " = Ok g'
     /\ mk_edge (FileN "pkg/mod.py") IMPORTS (FileN "pkg/util.py") ∈ edges g')
  /\ import_step ExamplePkg.env "repo" "pkg/mod.py" empty_graph "pkg.missing"
     = Ok empty_graph.
Proof.
  split.
  - destruct (import_resolution ExamplePkg.env "repo" "pkg/mod.py" " pkg.util ; "
                empty_graph) as (_ & _ & Hfirst & _).
    destruct (Hfirst [] ".py" [".js"; ".ts"; ".jsx"; ".tsx"] eq_refl)
      as (to_path & g' & Hto & Hstep & Hw).
    + intros e' He'. now apply not_elem_of_nil in He'.
    + vm_compute. reflexivity.
    + exists g'. split; [exact Hstep|].
      vm_compute in Hto. injection Hto as <-.
      destruct Hw as (_ & He & _). apply He. now right.
  - apply (import_resolution ExamplePkg.env "repo" "pkg/mod.py" "pkg.missing"
             empty_graph).
    intros e He. repeat (apply elem_of_cons in He as [-> | He]; [vm_compute; reflexivity|]).
    now apply not_elem_of_nil in He.
Defined.

(** ** Endpoint records *)

Lemma endpoint_of_decorator_count (rel fname kind : string) (dec : AST) :
  is_http_verb kind = true ->
  length (List.filter (is_kind kind) (endpoint_of_decorator rel fname dec))
  = if carries_verb kind dec then 1 else 0.
Proof.
  intros Hkind. destruct dec as [| | | | | |func args kws|]; try reflexivity.
  destruct func; try reflexivity. simpl.
  destruct (is_http_verb (Str.lower attr)) eqn:Hv; simpl.
  - unfold is_kind. simpl. now destruct (String.eqb (Str.lower attr) kind).
  - destruct (String.eqb (Str.lower attr) kind) eqn:Heq; [|reflexivity].
    apply String.eqb_eq in Heq. congruence.
Qed.

Lemma endpoints_count (rel fname kind : string) (decs : list AST) :
  is_http_verb kind = true ->
  length (List.filter (is_kind kind)
            (flat_map (endpoint_of_decorator rel fname) decs))
  = length (List.filter (carries_verb kind) decs).
Proof.
  intros Hkind. induction decs as [|dec decs IH]; [reflexivity|].
  simpl. rewrite List.filter_app, length_app, IH,
    (endpoint_of_decorator_count rel fname kind dec Hkind).
  now destruct (carries_verb kind dec).
Qed.

(** C7, as the code has it.  The Endpoint records of a Python file are
    those of its function definitions, in walk order.  A function
    definition contributes one record per call-style decorator whose
    lower-cased attribute name is one of get, post, put, delete, patch:
    for each such kind, as many records (name, file, kind) as it has
    decorators of that kind, hence at least one when it has one, and none
    at all when it has no such decorator.  The upsert of a record merges
    the Endpoint node (name, file, kind) and links it to the Function
    (name, file). *)
Theorem endpoint_records (rel : string) (dump : AST -> string)
    (fname : string) (tree : AST)
    (name : string) (args : AST) (body decorator_list rest : list AST) :
  subnode (FunctionDef name args body decorator_list rest) tree ->
  let own := flat_map (endpoint_of_decorator rel name) decorator_list in
  p_endpoints (python_extract rel dump fname tree)
  = flat_map (fun node =>
                match node with
                | FunctionDef name _ _ decorator_list _ =>
                    flat_map (endpoint_of_decorator rel name) decorator_list
                | _ => []
                end) (walk tree)
  /\ (forall ep, ep ∈ own -> ep ∈ p_endpoints (python_extract rel dump fname tree))
  /\ (forall ep, ep ∈ own ->
        ep = mk_endpoint_info name rel (ep_decorator ep)
        /\ is_http_verb (ep_decorator ep) = true)
  /\ (forall kind, is_http_verb kind = true ->
        length (List.filter (is_kind kind) own)
        = length (List.filter (carries_verb kind) decorator_list))
  /\ (forall kind dec, is_http_verb kind = true -> dec ∈ decorator_list ->
        carries_verb kind dec = true ->
        mk_endpoint_info name rel kind
          ∈ p_endpoints (python_extract rel dump fname tree))
  /\ ((forall kind dec, is_http_verb kind = true -> dec ∈ decorator_list ->
         carries_verb kind dec = false) -> own = [])
  /\ (forall ep g, ep ∈ own ->
        writes g (GraphIngestor.ingest_endpoint ep g)
          (fun n => n = EndpointN name rel (ep_decorator ep) \/ n = FunctionN name rel)
          (fun e => e = mk_edge (EndpointN name rel (ep_decorator ep)) HANDLED_BY
                          (FunctionN name rel))).
Proof.
  intros Hsub own.
  assert (Hall : p_endpoints (python_extract rel dump fname tree)
                 = flat_map (node_endpoints rel) (walk tree))
    by apply python_extract_endpoints.
  assert (Hown : forall ep, ep ∈ own ->
            ep ∈ p_endpoints (python_extract rel dump fname tree)).
  { intros ep Hep. rewrite Hall. apply elem_of_flat_map.
    exists (FunctionDef name args body decorator_list rest).
    split; [apply walk_complete, Hsub | exact Hep]. }
  assert (Hshape : forall ep, ep ∈ own ->
            ep = mk_endpoint_info name rel (ep_decorator ep)
            /\ is_http_verb (ep_decorator ep) = true).
  { intros ep (dec & _ & Hep)%elem_of_flat_map.
    apply endpoint_of_decorator_spec in Hep as (Hn & Hf & Hv).
    split; [|exact Hv]. destruct ep; simpl in *. now subst. }
  split; [exact Hall|]. split; [exact Hown|]. split; [exact Hshape|].
  split; [intros kind Hkind; now apply endpoints_count|]. split; [|split].
  - intros kind dec Hkind Hdec Hc. apply Hown. apply elem_of_flat_map.
    exists dec. split; [exact Hdec|].
    destruct dec as [| | | | | |func cargs kws|]; try discriminate.
    destruct func; try discriminate. simpl in *.
    apply String.eqb_eq in Hc. subst kind. rewrite Hkind. left.
  - intros Hnone. destruct own as [|ep own'] eqn:Hown'; [reflexivity|]. exfalso.
    assert (Hep : ep ∈ own) by (subst own; rewrite Hown'; left).
    apply elem_of_flat_map in Hep as (dec & Hdec & Hep).
    destruct dec as [| | | | | |func cargs kws|];
      try (now apply not_elem_of_nil in Hep).
    destruct func; try (now apply not_elem_of_nil in Hep). simpl in Hep.
    destruct (is_http_verb (Str.lower attr)) eqn:Hv;
      [|now apply not_elem_of_nil in Hep].
    specialize (Hnone (Str.lower attr) _ Hv Hdec). simpl in Hnone.
    now rewrite String.eqb_refl in Hnone.
  - intros ep g Hep. destruct (Hshape ep Hep) as [-> _]. simpl.
    apply merge_path_writes.
Qed.

Lemma endpoint_records_witness :
  exists r,
    parse_python_file ExampleApi.env "repo/api.py" = Ok (Some r)
    /\ mk_endpoint_info "list_items" "api.py" "get" ∈ p_endpoints r
    /\ length (List.filter (is_kind "get")
                 (flat_map (endpoint_of_decorator "api.py" "list_items")
                    [ExampleApi.route "router" "get"])) = 1.
Proof.
  eexists. split; [vm_compute; reflexivity|].
  destruct (endpoint_records "api.py" (ast_dump ExampleApi.env) "api.py"
              ExampleApi.tree_api "list_items" no_arguments [pass_stmt]
              [ExampleApi.route "router" "get"] [])
    as (_ & _ & _ & Hcount & Hin & _).
  - apply (subnode_child _ ExampleApi.list_items_def); [left | constructor].
  - split.
    + apply (Hin "get" (ExampleApi.route "router" "get")); [reflexivity | left | reflexivity].
    + apply (Hcount "get"). reflexivity.
Defined.

(** C7 as stated fails on a function with two decorators of one kind:
    [both_routes] carries two [@app.get(...)] decorators and the
    extractor returns two Endpoint records (both_routes, api.py, get),
    not exactly one. *)
Lemma endpoint_records_counterexample :
  exists r,
    parse_python_file ExampleApi.env "repo/api.py" = Ok (Some r)
    /\ subnode ExampleApi.both_routes_def ExampleApi.tree_api
    /\ carries_verb "get" (ExampleApi.route "app" "get") = true
    /\ List.filter (fun ep => String.eqb (ep_name ep) "both_routes" && is_kind "get" ep)
         (p_endpoints r)
       = [mk_endpoint_info "both_routes" "api.py" "get";
          mk_endpoint_info "both_routes" "api.py" "get"]
    /\ length (List.filter
                 (fun ep => String.eqb (ep_name ep) "both_routes" && is_kind "get" ep)
                 (p_endpoints r)) <> 1.
Proof.
  eexists. split; [vm_compute; reflexivity|]. split; [|split; [|split]].
  - apply (subnode_child _ ExampleApi.both_routes_def); [right; left | constructor].
  - reflexivity.
  - reflexivity.
  - simpl. lia.
Qed.

(** ** File coverage *)

Lemma elem_of_scanned_files (env : Env) (repo_root full : string) :
  full ∈ scanned_files env repo_root <->
  exists root dirs files fname,
    (root, dirs, files) ∈ os_walk env repo_root /\ fname ∈ files
    /\ recognized fname = true /\ full = os_path.join root fname.
Proof.
  unfold scanned_files. rewrite elem_of_flat_map. split.
  - intros ([[root dirs] files] & Hentry & Hfull).
    apply elem_of_map in Hfull as (fname & -> & Hf).
    apply elem_of_filter_bool in Hf as [Hf Hrec].
    exists root, dirs, files, fname. auto.
  - intros (root & dirs & files & fname & Hentry & Hf & Hrec & ->).
    exists (root, dirs, files). split; [exact Hentry|].
    apply elem_of_map. exists fname. split; [reflexivity|].
    now apply elem_of_filter_bool.
Qed.

(** The File nodes a record upserts: its own, and the targets of its
    resolved imports. *)
Lemma record_file_nodes (env : Env) (repo_root : string) (tbl : gmap string string)
    (r : parsed) (rel p : string) :
  record_files_are rel r ->
  record_nodes env repo_root tbl r (FileN p) <->
  fi_path (p_file r) = p
  \/ exists imp, imp ∈ p_imports r /\ resolve_import env repo_root imp = Ok (Some p).
Proof.
  intros (Hp & Hfs & Hcs & Hfcs & _). unfold record_nodes. split.
  - intros [[= ->] | [(c & Hc & H) | [(f & Hf & H) | [(ep & _ & H)
      | [(imp & Himp & (q & Hq & H)) | (fc & Hfc & H)]]]]].
    + now left.
    + destruct H as [H | [[= ->] | (b & _ & _ & H)]]; try discriminate.
      left. rewrite (Hcs c Hc). exact Hp.
    + destruct H as [H | [= ->]]; try discriminate.
      left. rewrite (Hfs f Hf). exact Hp.
    + destruct H as [H | H]; discriminate.
    + destruct H as [[= ->] | [= ->]]; [now left | right; eauto].
    + destruct H as [(caller & _ & H) | [H | [= ->]]]; try discriminate.
      left. rewrite (Hfcs fc Hfc). exact Hp.
  - intros [<- | (imp & Himp & Hres)]; [now left|].
    do 4 right. left. exists imp. split; [exact Himp|]. exists p. auto.
Qed.

Lemma merge_node_once (g0 g : graph) (n : node) :
  adds_at_most_once g0 g -> adds_at_most_once g0 (merge_node n g).
Proof.
  intros H m. unfold merge_node. case_decide as Hin; [apply H|].
  cbn [nodes]. rewrite count_occ_app. cbn [count_occ].
  destruct (node_eq_dec n m) as [-> | Hne]; [|rewrite Nat.add_0_r; apply H].
  assert (Hzero : count_occ node_eq_dec (nodes g) m = 0).
  { apply count_occ_not_In. intros Hm. apply Hin. now apply list_elem_of_In. }
  rewrite Hzero. destruct (H m) as [Heq | [_ Hone]]; [|congruence].
  right. split; [congruence | reflexivity].
Qed.

Lemma merge_path_once (g0 g : graph) (a : node) (t : rel_type) (b : node) :
  adds_at_most_once g0 g -> adds_at_most_once g0 (merge_path a t b g).
Proof.
  intros H. unfold merge_path.
  pose proof (merge_node_once g0 _ b (merge_node_once g0 g a H)) as H2.
  unfold merge_edge. case_decide; exact H2.
Qed.

Lemma class_step_once (g0 g : graph) (c : class_info) :
  adds_at_most_once g0 g -> adds_at_most_once g0 (class_step g c).
Proof.
  intros H. unfold class_step. apply (fold_left_invariant (adds_at_most_once g0)).
  - now apply merge_path_once.
  - intros g' b _ Hg'. destruct (Str.truthy b); [|exact Hg'].
    now apply merge_path_once.
Qed.

Lemma import_step_once (env : Env) (repo_root from_file : string)
    (g0 g g' : graph) (imp : string) :
  adds_at_most_once g0 g ->
  import_step env repo_root from_file g imp = Ok g' -> adds_at_most_once g0 g'.
Proof.
  intros H. unfold import_step. intros (o & _ & Ho)%rbind_Ok.
  destruct o as [p|]; [|now injection Ho as <-].
  destruct (Str.truthy p) eqn:Ht; [|now injection Ho as <-].
  injection Ho as <-. unfold ingest_import. rewrite Ht. now apply merge_path_once.
Qed.

Lemma call_step_once (tbl : gmap string string) (fc : call_info) (g0 g : graph) :
  adds_at_most_once g0 g -> adds_at_most_once g0 (call_step tbl g fc).
Proof.
  intros H. unfold call_step, ingest_function_used_in, ingest_function_call.
  apply merge_path_once. destruct (fc_caller fc) as [caller|]; [|exact H].
  destruct (Str.truthy caller); [now apply merge_path_once | exact H].
Qed.

Lemma ingest_parsed_once (env : Env) (repo_root : string)
    (tbl : gmap string string) (r : parsed) (g0 g g' : graph) :
  adds_at_most_once g0 g ->
  ingest_parsed env repo_root tbl r g = Ok g' -> adds_at_most_once g0 g'.
Proof.
  intros H. unfold ingest_parsed. intros (g5 & Himports & [= <-])%rbind_Ok.
  apply (fold_left_invariant (adds_at_most_once g0)).
  2:{ intros g' fc _. apply call_step_once. }
  revert Himports. apply (for_each_invariant (adds_at_most_once g0)).
  2:{ intros g1 imp g2 _ Hg1. now apply import_step_once. }
  apply (fold_left_invariant (adds_at_most_once g0)).
  2:{ intros g' ep _. apply merge_path_once. }
  apply (fold_left_invariant (adds_at_most_once g0)).
  2:{ intros g' f _. apply merge_path_once. }
  apply (fold_left_invariant (adds_at_most_once g0)).
  2:{ intros g' c _. apply class_step_once. }
  unfold ingest_file, set_file_name.
  intros n. apply (merge_node_once g0 g (FileN (fi_path (p_file r))) H n).
Qed.

(** A run never gives a node a second copy. *)
Lemma run_ingestion_once (env : Env) (repo_root : string) (g g' : graph)
    (out : list printed) :
  run_ingestion env repo_root g false = Ok (g', out) -> adds_at_most_once g g'.
Proof.
  unfold run_ingestion. intros (st & _ & Hrun)%rbind_Ok.
  destruct st as [parsed_all tbl]. revert Hrun.
  apply (for_each_invariant (fun st => adds_at_most_once g (fst st))).
  - intros n. now left.
  - intros st r st' _ Hst Hstep. unfold second_pass_step in Hstep.
    apply rbind_Ok in Hstep as (g1 & Hg1 & [= <-]). cbn [fst].
    now apply (ingest_parsed_once env repo_root tbl r g (fst st)).
Qed.

(** The path [relpath] returns depends on the file and on the start only
    through their absolute paths. *)
Lemma rel_path_of_same_file (env : Env) (a b start p q : string) :
  same_file env a b ->
  rel_path_of env a start = Ok p -> rel_path_of env b start = Ok q -> p = q.
Proof.
  unfold same_file, rel_path_of, os_path.relpath, os_path.relpath_l.
  intros Hab Ha Hb.
  destruct (Str.to_chars a) as [|a0 la]; [discriminate|].
  destruct (Str.to_chars b) as [|b0 lb]; [discriminate|].
  rewrite Hab in Ha. congruence.
Qed.

Lemma rel_path_of_same_root (env : Env) (repo_root full : string) :
  same_root env repo_root ->
  rel_path_of env full (REPO_ROOT env) = rel_path_of env full repo_root.
Proof.
  unfold same_root, rel_path_of, os_path.relpath, os_path.relpath_l.
  intros Hroot. destruct (Str.to_chars full); [reflexivity|].
  now rewrite Hroot.
Qed.

Lemma probe_target (env : Env) (repo_root candidate : string) (exts : list string)
    (p : string) :
  probe env repo_root candidate exts = Ok (Some p) ->
  exists e, e ∈ exts
    /\ isfile env (os_path.join repo_root (candidate ++ e)%string) = true
    /\ rel_path_of env (os_path.join repo_root (candidate ++ e)%string) repo_root
       = Ok p.
Proof.
  induction exts as [|e exts IH]; cbn [probe]; [discriminate|].
  destruct (isfile env _) eqn:Hfile.
  - intros (to_path & Hrel & [= <-])%rbind_Ok. exists e.
    split; [left|]. split; [exact Hfile | exact Hrel].
  - intros H. destruct (IH H) as (e' & He' & Hf & Hr).
    exists e'. split; [now right|]. split; [exact Hf | exact Hr].
Qed.

(** The record of a scanned file carries the file's path relative to the
    scanned root when that root is the configured one. *)
Lemma record_path (env : Env) (repo_root full : string) (r : parsed) :
  same_root env repo_root ->
  record_of env repo_root full = Ok r ->
  rel_path_of env full repo_root = Ok (fi_path (p_file r))
  /\ record_files_are (fi_path (p_file r)) r.
Proof.
  intros Hroot Hrec.
  apply record_of_files in Hrec as (rel & _ & Hfiles & Hrel).
  pose proof Hfiles as (Hp & _). subst rel.
  split; [|exact Hfiles].
  destruct Hrel as [Hrel | Hrel]; [|exact Hrel].
  now rewrite <- (rel_path_of_same_root env repo_root full Hroot).
Qed.

(** C4, as the code has it by design, for a run over the configured
    root.  A full run returns; the first pass makes one record for every
    scanned file whose extension is in the table and none for any other
    file; a file for which no extractor returns a result gets the
    File-only record.  After the run every scanned file has the File
    node keyed by its path relative to the root; the run created that
    node only if the store did not hold it, so it is there once unless
    the store held it several times; and whatever File node the run
    wrote for a path of the same file is that node.  The File nodes of
    the store are those it held before, those of the scanned files, and
    the targets of the imports that resolved to a file. *)
Theorem file_node_coverage (env : Env) (repo_root : string) (g : graph) :
  same_root env repo_root ->
  exists recs g',
    run_ingestion env repo_root g false = Ok (g', [])
    /\ Forall2 (fun full r => record_of env repo_root full = Ok r)
         (scanned_files env repo_root) recs
    /\ (forall full, full ∈ scanned_files env repo_root <->
          exists root dirs files fname,
            (root, dirs, files) ∈ os_walk env repo_root /\ fname ∈ files
            /\ dict_mem EXT_LANG_MAP (Str.lower (snd (os_path.splitext fname))) = true
            /\ full = os_path.join root fname)
    /\ (forall full r, parse_any_file env full = Ok None ->
          record_of env repo_root full = Ok r ->
          p_functions r = [] /\ p_classes r = [] /\ p_imports r = []
          /\ p_function_calls r = [] /\ p_endpoints r = [])
    /\ (forall full, full ∈ scanned_files env repo_root ->
          exists rel,
            rel_path_of env full repo_root = Ok rel
            /\ FileN rel ∈ nodes g'
            /\ count_occ node_eq_dec (nodes g') (FileN rel)
               = Nat.max 1 (count_occ node_eq_dec (nodes g) (FileN rel))
            /\ forall p, FileN p ∈ nodes g' -> FileN p ∉ nodes g ->
                 exists f, rel_path_of env f repo_root = Ok p
                   /\ (same_file env f full -> p = rel))
    /\ (forall p, FileN p ∈ nodes g' <->
          FileN p ∈ nodes g
          \/ (exists full, full ∈ scanned_files env repo_root
                /\ rel_path_of env full repo_root = Ok p)
          \/ (exists r imp, r ∈ recs /\ imp ∈ p_imports r
                /\ resolve_import env repo_root imp = Ok (Some p))).
Proof.
  intros Hroot.
  destruct (run_ingestion_full env repo_root g) as (recs & g' & Hfp & Hrun & Hw).
  pose proof (first_pass_inv _ _ _ _ Hfp) as [_ Hall].
  pose proof (run_ingestion_once _ _ _ _ _ Hrun) as Honce.
  destruct Hw as (Hn & _).
  (* the File nodes after the run *)
  assert (Hfiles : forall p, FileN p ∈ nodes g' <->
            FileN p ∈ nodes g
            \/ (exists full, full ∈ scanned_files env repo_root
                  /\ rel_path_of env full repo_root = Ok p)
            \/ (exists r imp, r ∈ recs /\ imp ∈ p_imports r
                  /\ resolve_import env repo_root imp = Ok (Some p))).
  { intros p. rewrite Hn. unfold run_nodes. split.
    - intros [Hold | (r & Hr & Hrec)]; [now left|]. right.
      destruct (first_pass_record _ _ _ _ r Hfp Hr) as (full & Hfull & Hrof).
      destruct (record_path _ _ _ _ Hroot Hrof) as [Hrel Hwf].
      apply (record_file_nodes _ _ _ _ _ _ Hwf) in Hrec
        as [<- | (imp & Himp & Hres)]; [left; eauto | right; eauto].
    - intros [Hold | [(full & Hfull & Hrel) | (r & imp & Hr & Himp & Hres)]];
        [now left | |].
      + right. apply list_elem_of_lookup in Hfull as [i Hi].
        destruct (Forall2_lookup_l _ _ _ _ _ Hall Hi) as (r & Hr & Hrof).
        destruct (record_path _ _ _ _ Hroot Hrof) as [Hrel' _].
        exists r. split; [apply list_elem_of_lookup; eauto|].
        left. congruence.
      + right. exists r. split; [exact Hr|].
        destruct (first_pass_record _ _ _ _ r Hfp Hr) as (full & _ & Hrof).
        destruct (record_path _ _ _ _ Hroot Hrof) as [_ Hwf].
        apply (record_file_nodes _ _ _ _ _ _ Hwf). right. eauto. }
  exists recs, g'. split; [exact Hrun|]. split; [exact Hall|].
  split; [apply elem_of_scanned_files|]. split; [|split; [|exact Hfiles]].
  - intros full r Hnone Hrec. unfold record_of in Hrec. rewrite Hnone in Hrec.
    simpl in Hrec. apply degenerate_record_files in Hrec as (rel & _ & _ & ->).
    simpl. auto.
  - intros full Hfull. pose proof Hfull as Hfull'.
    apply list_elem_of_lookup in Hfull' as [i Hi].
    destruct (Forall2_lookup_l _ _ _ _ _ Hall Hi) as (r & Hr & Hrof).
    destruct (record_path _ _ _ _ Hroot Hrof) as [Hrel _].
    set (rel := fi_path (p_file r)) in *.
    assert (Hin : FileN rel ∈ nodes g') by (apply Hfiles; right; left; eauto).
    exists rel. split; [exact Hrel|]. split; [exact Hin|]. split.
    + assert (Hpos : count_occ node_eq_dec (nodes g') (FileN rel) > 0)
        by (apply count_occ_In; now apply list_elem_of_In).
      destruct (Honce (FileN rel)) as [Heq | [Hzero Hone]]; lia.
    + intros p Hp Hnew. apply Hfiles in Hp
        as [Hold | [(full' & _ & Hrel') | (r' & imp & _ & _ & Hres)]];
        [contradiction | |].
      * exists full'. split; [exact Hrel'|]. intros Hsame.
        apply (rel_path_of_same_file env full' full repo_root p rel Hsame Hrel' Hrel).
      * apply probe_target in Hres as (e & _ & _ & Hrel').
        eexists. split; [exact Hrel'|]. intros Hsame.
        apply (rel_path_of_same_file env _ full repo_root p rel Hsame Hrel' Hrel).
Qed.

Lemma file_node_coverage_witness :
  exists recs g',
    run_ingestion ExampleAB.env "repo" empty_graph false = Ok (g', [])
    /\ List.map (fun r => fi_path (p_file r)) recs = ["a.py"; "b.py"]
    /\ count_occ node_eq_dec (nodes g') (FileN "a.py") = 1
    /\ count_occ node_eq_dec (nodes g') (FileN "b.py") = 1.
Proof.
  destruct (file_node_coverage ExampleAB.env "repo" empty_graph)
    as (recs & g' & Hrun & Hall & _ & _ & Hone & _).
  - reflexivity.
  - exists recs, g'. split; [exact Hrun|].
    change (scanned_files ExampleAB.env "repo") with ["repo/a.py"; "repo/b.py"]
      in Hall, Hone.
    split.
    + inversion Hall as [|fa ra ? l Ha Hl]; subst.
      inversion Hl as [|fb rb ? l' Hb Hl']; subst. inversion Hl'; subst.
      vm_compute in Ha. vm_compute in Hb. injection Ha as <-. injection Hb as <-.
      reflexivity.
    + split.
      * destruct (Hone "repo/a.py") as (rel & Hrel & _ & Hcount & _); [left|].
        vm_compute in Hrel. injection Hrel as <-. exact Hcount.
      * destruct (Hone "repo/b.py") as (rel & Hrel & _ & Hcount & _);
          [right; left|].
        vm_compute in Hrel. injection Hrel as <-. exact Hcount.
Defined.

(** C4 as stated fails: the file repo/lib/.py is scanned, its extension
    (the empty string) is not in the table, and yet after a full run a
    File node with its path exists, upserted as the target of the import
    "lib." of repo/app.js. *)
Lemma file_node_coverage_counterexample :
  exists g',
    run_ingestion ExampleDotfile.env "repo" empty_graph false = Ok (g', [])
    /\ ("repo/lib", [], [".py"]) ∈ os_walk ExampleDotfile.env "repo"
    /\ rel_path_of ExampleDotfile.env (os_path.join "repo/lib" ".py") "repo"
       = Ok "lib/.py"
    /\ ~ (FileN "lib/.py" ∈ nodes g'
          <-> dict_mem EXT_LANG_MAP (Str.lower (snd (os_path.splitext ".py"))) = true).
Proof.
  eexists. split; [vm_compute; reflexivity|]. split; [right; left|].
  split; [vm_compute; reflexivity|].
  intros [Himp _].
  assert (Hfalse : dict_mem EXT_LANG_MAP (Str.lower (snd (os_path.splitext ".py")))
                   = false) by (vm_compute; reflexivity).
  rewrite Hfalse in Himp. discriminate Himp. right. left.
Qed.


(** * Further properties of the pipeline *)

(** ** Upserts on a store that already holds their nodes *)

Lemma merge_node_present (n : node) (g : graph) : n ∈ nodes g -> merge_node n g = g.
Proof. intros H. unfold merge_node. now rewrite decide_True. Qed.

Lemma merge_edge_present (a : node) (t : rel_type) (b : node) (g : graph) :
  mk_edge a t b ∈ edges g -> merge_edge a t b g = g.
Proof. intros H. unfold merge_edge. now rewrite decide_True. Qed.

Lemma merge_path_present (a : node) (t : rel_type) (b : node) (g : graph) :
  a ∈ nodes g -> b ∈ nodes g -> mk_edge a t b ∈ edges g -> merge_path a t b g = g.
Proof.
  intros Ha Hb He. unfold merge_path.
  rewrite (merge_node_present a g Ha), (merge_node_present b g Hb).
  now apply merge_edge_present.
Qed.

Lemma fold_left_fixed {A S} (f : S -> A -> S) (l : list A) (s : S) :
  (forall x, x ∈ l -> f s x = s) -> fold_left f l s = s.
Proof.
  induction l as [|x l IH]; intros Hf; simpl; [reflexivity|].
  rewrite (Hf x) by left. apply IH. intros y Hy. apply Hf. now right.
Qed.

Lemma for_each_fixed {A S} (f : S -> A -> result S) (l : list A) (s : S) :
  (forall x, x ∈ l -> f s x = Ok s) -> for_each f l s = Ok s.
Proof.
  induction l as [|x l IH]; intros Hf; simpl; [reflexivity|].
  rewrite (Hf x) by left. simpl. apply IH. intros y Hy. apply Hf. now right.
Qed.

Lemma class_step_present (c : class_info) (g : graph) :
  (forall n, class_nodes c n -> n ∈ nodes g) ->
  (forall e, class_edges c e -> e ∈ edges g) ->
  class_step g c = g.
Proof.
  intros Hn He. unfold class_step, ingest_class.
  rewrite merge_path_present.
  - apply fold_left_fixed. intros b Hb. destruct (Str.truthy b) eqn:Ht; [|reflexivity].
    unfold ingest_class_extends. apply merge_path_present.
    + apply Hn. now left.
    + apply Hn. right. right. eauto.
    + apply He. right. eauto.
  - apply Hn. now left.
  - apply Hn. right. now left.
  - apply He. now left.
Qed.

Lemma import_step_present (env : Env) (repo_root from_file : string) (g : graph)
    (imp : string) :
  (forall n, import_nodes env repo_root from_file imp n -> n ∈ nodes g) ->
  (forall e, import_edges env repo_root from_file imp e -> e ∈ edges g) ->
  import_step env repo_root from_file g imp = Ok g.
Proof.
  intros Hn He. unfold import_step.
  destruct (resolve_import_returns env repo_root imp) as (o & Ho & Hrel).
  rewrite Ho. cbn [rbind]. destruct o as [p|]; [|reflexivity].
  destruct (Hrel p eq_refl) as [Ht _]. rewrite Ht. unfold ingest_import. rewrite Ht.
  rewrite merge_path_present; [reflexivity | | |].
  - apply Hn. exists p. auto.
  - apply Hn. exists p. auto.
  - apply He. exists p. auto.
Qed.

Lemma call_step_present (tbl : gmap string string) (fc : call_info) (g : graph) :
  (forall n, call_nodes tbl fc n -> n ∈ nodes g) ->
  (forall e, call_edges tbl fc e -> e ∈ edges g) ->
  call_step tbl g fc = g.
Proof.
  intros Hn He. unfold call_step, ingest_function_call, ingest_function_used_in.
  cbn [or_empty].
  assert (Hcall : match fc_caller fc with
                  | Some caller =>
                      if Str.truthy caller
                      then merge_path (FunctionN caller (fc_caller_file fc)) CALLS
                             (FunctionN (fc_called fc) (resolved_called_file tbl fc)) g
                      else g
                  | None => g
                  end = g).
  { destruct (fc_caller fc) as [caller|] eqn:Hc; [|reflexivity].
    destruct (Str.truthy caller) eqn:Ht; [|reflexivity].
    apply merge_path_present.
    - apply Hn. left. exists caller. split; [split; assumption | reflexivity].
    - apply Hn. right. now left.
    - apply He. left. exists caller. split; [split; assumption | reflexivity]. }
  rewrite Hcall. apply merge_path_present.
  - apply Hn. right. now left.
  - apply Hn. right. now right.
  - apply He. now right.
Qed.

(** On a store that holds every node and relationship of a record, the
    writes for the record only set the [name] of its File node again. *)
Lemma ingest_parsed_present (env : Env) (repo_root : string)
    (tbl : gmap string string) (r : parsed) (g : graph) :
  (forall n, record_nodes env repo_root tbl r n -> n ∈ nodes g) ->
  (forall e, record_edges env repo_root tbl r e -> e ∈ edges g) ->
  ingest_parsed env repo_root tbl r g
  = Ok (set_file_name (fi_path (p_file r)) (fi_name (p_file r)) g).
Proof.
  intros Hn He. unfold ingest_parsed, ingest_file.
  rewrite merge_node_present by (apply Hn; now left).
  set (g0 := set_file_name (fi_path (p_file r)) (fi_name (p_file r)) g).
  assert (Hn0 : forall n, record_nodes env repo_root tbl r n -> n ∈ nodes g0)
    by exact Hn.
  assert (He0 : forall e, record_edges env repo_root tbl r e -> e ∈ edges g0)
    by exact He.
  rewrite (fold_left_fixed class_step).
  2:{ intros c Hc. apply class_step_present.
      - intros n H. apply Hn0. right. left. eauto.
      - intros e H. apply He0. left. eauto. }
  rewrite (fold_left_fixed (fun g f => ingest_function f g)).
  2:{ intros f Hf. unfold ingest_function. apply merge_path_present.
      - apply Hn0. do 2 right. left. exists f. split; [exact Hf | now left].
      - apply Hn0. do 2 right. left. exists f. split; [exact Hf | now right].
      - apply He0. right. left. exists f. split; [exact Hf | reflexivity]. }
  rewrite (fold_left_fixed (fun g ep => ingest_endpoint ep g)).
  2:{ intros ep Hep. unfold ingest_endpoint. apply merge_path_present.
      - apply Hn0. do 3 right. left. exists ep. split; [exact Hep | now left].
      - apply Hn0. do 3 right. left. exists ep. split; [exact Hep | now right].
      - apply He0. do 2 right. left. exists ep. split; [exact Hep | reflexivity]. }
  rewrite for_each_fixed.
  2:{ intros imp Himp. apply import_step_present.
      - intros n H. apply Hn0. do 4 right. left. eauto.
      - intros e H. apply He0. do 3 right. left. eauto. }
  cbn [rbind]. rewrite (fold_left_fixed (call_step tbl)); [reflexivity|].
  intros fc Hfc. apply call_step_present.
  - intros n H. apply Hn0. do 5 right. eauto.
  - intros e H. apply He0. do 4 right. eauto.
Qed.

(** ** The [name] properties of File nodes *)

Lemma merge_path_file_names (a : node) (t : rel_type) (b : node) (g : graph) :
  file_names (merge_path a t b g) = file_names g.
Proof.
  unfold merge_path, merge_edge, merge_node. repeat case_decide; reflexivity.
Qed.

Lemma class_step_file_names (c : class_info) (g : graph) :
  file_names (class_step g c) = file_names g.
Proof.
  unfold class_step.
  apply (fold_left_invariant (fun g' => file_names g' = file_names g)).
  - apply merge_path_file_names.
  - intros g' b _ Hg'. destruct (Str.truthy b); [|exact Hg'].
    unfold ingest_class_extends. now rewrite merge_path_file_names.
Qed.

Lemma import_step_file_names (env : Env) (repo_root from_file : string)
    (g g' : graph) (imp : string) :
  import_step env repo_root from_file g imp = Ok g' -> file_names g' = file_names g.
Proof.
  unfold import_step. intros (o & _ & H)%rbind_Ok.
  destruct o as [p|]; [|now injection H as <-].
  destruct (Str.truthy p) eqn:Ht; [|now injection H as <-].
  injection H as <-. unfold ingest_import. rewrite Ht. apply merge_path_file_names.
Qed.

Lemma call_step_file_names (tbl : gmap string string) (fc : call_info) (g : graph) :
  file_names (call_step tbl g fc) = file_names g.
Proof.
  unfold call_step, ingest_function_used_in, ingest_function_call.
  rewrite merge_path_file_names.
  destruct (fc_caller fc) as [caller|]; [|reflexivity].
  destruct (Str.truthy caller); [apply merge_path_file_names | reflexivity].
Qed.

(** The writes for a record change one [name]: that of its File node. *)
Lemma ingest_parsed_file_names (env : Env) (repo_root : string)
    (tbl : gmap string string) (r : parsed) (g g' : graph) :
  ingest_parsed env repo_root tbl r g = Ok g' ->
  file_names g' = <[fi_path (p_file r) := fi_name (p_file r)]> (file_names g).
Proof.
  unfold ingest_parsed. intros (g5 & Himports & [= <-])%rbind_Ok.
  set (names := <[fi_path (p_file r) := fi_name (p_file r)]> (file_names g)).
  apply (fold_left_invariant (fun g' => file_names g' = names)).
  2:{ intros g' fc _ Hg'. now rewrite call_step_file_names. }
  revert Himports.
  apply (for_each_invariant (fun g' => file_names g' = names)).
  2:{ intros g1 imp g2 _ Hg1 Hstep. apply import_step_file_names in Hstep. congruence. }
  apply (fold_left_invariant (fun g' => file_names g' = names)).
  2:{ intros g' ep _ Hg'. unfold ingest_endpoint. now rewrite merge_path_file_names. }
  apply (fold_left_invariant (fun g' => file_names g' = names)).
  2:{ intros g' f _ Hg'. unfold ingest_function. now rewrite merge_path_file_names. }
  apply (fold_left_invariant (fun g' => file_names g' = names)).
  2:{ intros g' c _ Hg'. now rewrite class_step_file_names. }
  unfold ingest_file, merge_node. case_decide; reflexivity.
Qed.

Lemma names_after_lookup (recs : list parsed) (names : gmap string string)
    (path : string) :
  names_after recs names !! path
  = match names_after recs ∅ !! path with
    | Some name => Some name
    | None => names !! path
    end.
Proof.
  revert names. induction recs as [|r recs IH]; intros names.
  - unfold names_after. simpl. now rewrite lookup_empty.
  - unfold names_after in *. simpl. rewrite IH.
    rewrite (IH (<[fi_path (p_file r) := fi_name (p_file r)]> ∅)).
    destruct (fold_left _ recs ∅ !! path) as [name|]; [reflexivity|].
    destruct (decide (fi_path (p_file r) = path)) as [-> | Hne].
    + now rewrite !lookup_insert_eq.
    + rewrite !lookup_insert_ne by exact Hne. now rewrite lookup_empty.
Qed.

Lemma names_after_idempotent (recs : list parsed) (names : gmap string string) :
  names_after recs (names_after recs names) = names_after recs names.
Proof.
  apply map_eq. intros path. rewrite (names_after_lookup recs (names_after recs names)).
  rewrite (names_after_lookup recs names).
  now destruct (names_after recs ∅ !! path).
Qed.

Lemma second_pass_file_names (env : Env) (repo_root : string)
    (tbl : gmap string string) (recs : list parsed) (g g' : graph)
    (out out' : list printed) :
  for_each (second_pass_step env repo_root false tbl) recs (g, out) = Ok (g', out') ->
  file_names g' = names_after recs (file_names g).
Proof.
  revert g. induction recs as [|r recs IH]; intros g; cbn [for_each].
  - now intros [= <- _].
  - intros (st & Hstep & Hrest)%rbind_Ok. unfold second_pass_step in Hstep.
    cbn [fst snd] in Hstep. apply rbind_Ok in Hstep as (g1 & Hg1 & [= <-]).
    apply IH in Hrest. rewrite Hrest.
    apply ingest_parsed_file_names in Hg1. rewrite Hg1. reflexivity.
Qed.

Lemma second_pass_present (env : Env) (repo_root : string)
    (tbl : gmap string string) (recs : list parsed) (g : graph) (out : list printed) :
  (forall r n, r ∈ recs -> record_nodes env repo_root tbl r n -> n ∈ nodes g) ->
  (forall r e, r ∈ recs -> record_edges env repo_root tbl r e -> e ∈ edges g) ->
  for_each (second_pass_step env repo_root false tbl) recs (g, out)
  = Ok (mk_graph (nodes g) (edges g) (names_after recs (file_names g)), out).
Proof.
  revert g. induction recs as [|r recs IH]; intros g Hn He; cbn [for_each].
  - now destruct g.
  - unfold second_pass_step at 1. cbn [fst snd].
    rewrite ingest_parsed_present.
    + cbn [rbind]. rewrite IH.
      * reflexivity.
      * intros r' n Hr'. apply Hn. now right.
      * intros r' e Hr'. apply He. now right.
    + intros n. apply Hn. left.
    + intros e. apply He. left.
Qed.

(** ** A second run changes nothing *)

(** X1.  A full run is idempotent on the store: running the pipeline a
    second time over the unchanged tree, on the store the first run left,
    returns that store unchanged, with the same nodes, the same
    relationships and the same [name] properties. *)
Theorem second_run_changes_nothing (env : Env) (repo_root : string) (g : graph) :
  exists g1,
    run_ingestion env repo_root g false = Ok (g1, [])
    /\ run_ingestion env repo_root g1 false = Ok (g1, []).
Proof.
  destruct (run_ingestion_full env repo_root g) as (recs & g1 & Hfp & Hrun & Hw).
  exists g1. split; [exact Hrun|].
  assert (Hnames : file_names g1 = names_after recs (file_names g)).
  { unfold run_ingestion in Hrun. rewrite Hfp in Hrun. cbn [rbind] in Hrun.
    now apply second_pass_file_names in Hrun. }
  destruct Hw as (Hn & He & _).
  unfold run_ingestion. rewrite Hfp. cbn [rbind].
  rewrite second_pass_present.
  - rewrite Hnames, names_after_idempotent, <- Hnames. now destruct g1.
  - intros r n Hr Hrec. apply Hn. right. exists r. auto.
  - intros r e Hr Hrec. apply He. right. exists r. auto.
Qed.

(** ** What a run keeps *)

Lemma names_after_other (recs : list parsed) (names : gmap string string)
    (path : string) :
  (forall r, r ∈ recs -> fi_path (p_file r) <> path) ->
  names_after recs names !! path = names !! path.
Proof.
  revert names. induction recs as [|r recs IH]; intros names Hrecs; [reflexivity|].
  unfold names_after in *. simpl. rewrite IH.
  - apply lookup_insert_ne. apply Hrecs. left.
  - intros r' Hr'. apply Hrecs. now right.
Qed.

(** X2.  A run never deletes and never duplicates: whatever the mode,
    every node and relationship the store held before the run is still
    there after it, a store without duplicates stays without duplicates,
    and the [name] of a File node changes only if the path is that of a
    record of this run. *)
Theorem run_never_deletes (env : Env) (repo_root : string) (g : graph)
    (dry_run : bool) :
  exists recs g' out,
    first_pass env repo_root = Ok (recs, symbol_table recs)
    /\ run_ingestion env repo_root g dry_run = Ok (g', out)
    /\ (forall n, n ∈ nodes g -> n ∈ nodes g')
    /\ (forall e, e ∈ edges g -> e ∈ edges g')
    /\ (NoDup (nodes g) -> NoDup (nodes g'))
    /\ (NoDup (edges g) -> NoDup (edges g'))
    /\ (forall path, (forall r, r ∈ recs -> fi_path (p_file r) <> path) ->
          file_names g' !! path = file_names g !! path).
Proof.
  destruct dry_run.
  - destruct (run_ingestion_dry env repo_root g) as (recs & Hfp & Hrun).
    exists recs, g, (List.map dry_run_line recs). auto 10.
  - destruct (run_ingestion_full env repo_root g) as (recs & g' & Hfp & Hrun & Hw).
    exists recs, g', []. split; [exact Hfp|]. split; [exact Hrun|].
    destruct Hw as (Hn & He & Hdn & Hde).
    split; [intros n H; apply Hn; now left|].
    split; [intros e H; apply He; now left|].
    split; [exact Hdn|]. split; [exact Hde|].
    intros path Hpath. unfold run_ingestion in Hrun. rewrite Hfp in Hrun.
    cbn [rbind] in Hrun. apply second_pass_file_names in Hrun. rewrite Hrun.
    now apply names_after_other.
Qed.

(** Both ends of a relationship of a record are nodes of the record, and
    their labels are those of the relationship's type. *)
Lemma record_edge_ends (env : Env) (repo_root : string) (tbl : gmap string string)
    (r : parsed) (e : edge) :
  record_edges env repo_root tbl r e ->
  record_nodes env repo_root tbl r (e_from e)
  /\ record_nodes env repo_root tbl r (e_to e)
  /\ well_typed e.
Proof.
  unfold record_edges, record_nodes, class_edges, function_edges, endpoint_edges,
    import_edges, call_edges.
  intros [(c & Hc & [-> | (b & Hb & Ht & ->)]) | [(f & Hf & ->) | [(ep & Hep & ->)
    | [(imp & Himp & (p & Hp & ->))
    | (fc & Hfc & [(caller & Hk & ->) | ->])]]]]; simpl;
    (split; [|split; [|exact I]]).
  - right. left. exists c. split; [exact Hc | now left].
  - right. left. exists c. split; [exact Hc | right; now left].
  - right. left. exists c. split; [exact Hc | now left].
  - right. left. exists c. split; [exact Hc | right; right; eauto].
  - do 2 right. left. exists f. split; [exact Hf | now left].
  - do 2 right. left. exists f. split; [exact Hf | now right].
  - do 3 right. left. exists ep. split; [exact Hep | now left].
  - do 3 right. left. exists ep. split; [exact Hep | now right].
  - do 4 right. left. exists imp. split; [exact Himp|]. exists p. auto.
  - do 4 right. left. exists imp. split; [exact Himp|]. exists p. auto.
  - do 5 right. exists fc. split; [exact Hfc|]. left. eauto.
  - do 5 right. exists fc. split; [exact Hfc|]. right. now left.
  - do 5 right. exists fc. split; [exact Hfc|]. right. now left.
  - do 5 right. exists fc. split; [exact Hfc|]. right. now right.
Qed.

(** X3.  A full run leaves no dangling relationship: when both ends of
    every relationship were nodes of the store before the run, the same
    holds after it, because every upsert merges the two nodes before the
    relationship between them. *)
Theorem run_keeps_edges_closed (env : Env) (repo_root : string) (g : graph) :
  edges_closed g ->
  exists g', run_ingestion env repo_root g false = Ok (g', []) /\ edges_closed g'.
Proof.
  intros Hclosed.
  destruct (run_ingestion_full env repo_root g) as (recs & g' & _ & Hrun & Hn & He & _).
  exists g'. split; [exact Hrun|]. intros e Hin.
  apply He in Hin as [Hold | (r & Hr & Hrec)].
  - destruct (Hclosed e Hold) as [Hf Ht]. split; apply Hn; now left.
  - apply record_edge_ends in Hrec as (Hf & Ht & _).
    split; apply Hn; right; exists r; auto.
Qed.

Lemma run_keeps_edges_closed_witness :
  exists g',
    run_ingestion ExampleJS.env "repo" empty_graph false = Ok (g', [])
    /\ edges g' <> [] /\ edges_closed g'.
Proof.
  destruct (run_keeps_edges_closed ExampleJS.env "repo" empty_graph) as (g' & Hrun & Hc).
  - intros e He. now apply not_elem_of_nil in He.
  - exists g'. split; [exact Hrun|]. split; [|exact Hc].
    pose proof Hrun as Hval. vm_compute in Hval. injection Hval as <-. discriminate.
Defined.

(** X4.  A full run keeps the schema of the relationships: DEFINED_IN goes
    from a Class or Function to a File, IMPORTS from File to File, CALLS
    from Function to Function, USED_IN from Function to File, HANDLED_BY
    from Endpoint to Function, EXTENDS from Class to Class.  When every
    relationship of the store respected this before the run, every
    relationship respects it afterwards. *)
Theorem run_keeps_schema (env : Env) (repo_root : string) (g : graph) :
  (forall e, e ∈ edges g -> well_typed e) ->
  exists g',
    run_ingestion env repo_root g false = Ok (g', [])
    /\ forall e, e ∈ edges g' -> well_typed e.
Proof.
  intros Htyped.
  destruct (run_ingestion_full env repo_root g) as (recs & g' & _ & Hrun & _ & He & _).
  exists g'. split; [exact Hrun|]. intros e Hin.
  apply He in Hin as [Hold | (r & Hr & Hrec)]; [now apply Htyped|].
  now apply record_edge_ends in Hrec.
Qed.

Lemma run_keeps_schema_witness :
  exists g',
    run_ingestion ExampleJS.env "repo" empty_graph false = Ok (g', [])
    /\ mk_edge (FunctionN "render" "web/ui.ts") CALLS (FunctionN "paint" "web/ui.ts")
         ∈ edges g'
    /\ forall e, e ∈ edges g' -> well_typed e.
Proof.
  destruct (run_keeps_schema ExampleJS.env "repo" empty_graph) as (g' & Hrun & Ht).
  - intros e He. now apply not_elem_of_nil in He.
  - exists g'. split; [exact Hrun|]. split; [|exact Ht].
    pose proof Hrun as Hval. vm_compute in Hval. injection Hval as <-.
    do 5 right. left.
Defined.

(** X5.  Inheritance is recorded by name only.  The parent end of every
    EXTENDS relationship a run writes is a Class node with the empty
    string as file, while every node the run attaches to a file by
    DEFINED_IN has a non-empty file: an EXTENDS relationship written by a
    run never ends at the node of a class definition. *)
Theorem extends_never_reaches_a_definition (env : Env) (repo_root : string)
    (g : graph) :
  exists g',
    run_ingestion env repo_root g false = Ok (g', [])
    /\ (forall e, e ∈ edges g' -> e ∉ edges g -> e_type e = EXTENDS ->
          exists child child_file parent,
            e = mk_edge (ClassN child child_file) EXTENDS (ClassN parent "")
            /\ child_file <> "" /\ parent <> "")
    /\ (forall d, d ∈ edges g' -> d ∉ edges g -> e_type d = DEFINED_IN ->
          forall name, e_from d <> ClassN name "")
    /\ (forall e d, e ∈ edges g' -> e ∉ edges g -> d ∈ edges g' -> d ∉ edges g ->
          e_type e = EXTENDS -> e_type d = DEFINED_IN -> e_to e <> e_from d).
Proof.
  destruct (run_ingestion_full env repo_root g) as (recs & g' & Hfp & Hrun & _ & He & _).
  exists g'. split; [exact Hrun|].
  assert (Hfile : forall r c, r ∈ recs -> c ∈ p_classes r -> cls_file c <> "").
  { intros r c Hr Hc.
    destruct (first_pass_record _ _ _ _ r Hfp Hr) as (full & _ & Hrec).
    apply record_of_files in Hrec as (rel & [Ht _] & (_ & _ & Hcs & _) & _).
    rewrite (Hcs c Hc). now apply truthy_true. }
  assert (Hext : forall e, e ∈ edges g' -> e ∉ edges g -> e_type e = EXTENDS ->
            exists child child_file parent,
              e = mk_edge (ClassN child child_file) EXTENDS (ClassN parent "")
              /\ child_file <> "" /\ parent <> "").
  { intros e Hin Hnew Ht. apply He in Hin as [Hold | (r & Hr & Hrec)]; [contradiction|].
    destruct Hrec as [(c & Hc & [-> | (b & Hb & Htb & ->)]) | [(f & _ & ->)
      | [(ep & _ & ->) | [(imp & _ & (p & _ & ->))
      | (fc & _ & [(caller & _ & ->) | ->])]]]]; try discriminate Ht.
    exists (cls_name c), (cls_file c), b. split; [reflexivity|].
    split; [now apply (Hfile r) | now apply truthy_true]. }
  assert (Hdef : forall d, d ∈ edges g' -> d ∉ edges g -> e_type d = DEFINED_IN ->
            forall name, e_from d <> ClassN name "").
  { intros d Hin Hnew Ht name. apply He in Hin as [Hold | (r & Hr & Hrec)]; [contradiction|].
    destruct Hrec as [(c & Hc & [-> | (b & Hb & Htb & ->)]) | [(f & _ & ->)
      | [(ep & _ & ->) | [(imp & _ & (p & _ & ->))
      | (fc & _ & [(caller & _ & ->) | ->])]]]]; try discriminate Ht; simpl.
    - intros [= _ Hempty]. now apply (Hfile r c Hr Hc).
    - discriminate. }
  split; [exact Hext|]. split; [exact Hdef|].
  intros e d Hin Hnew Hind Hnewd Hte Htd Heq.
  destruct (Hext e Hin Hnew Hte) as (child & child_file & parent & -> & _).
  simpl in Heq. now apply (Hdef d Hind Hnewd Htd parent).
Qed.

(** ** What the Python extractor records *)

(** X6.  The functions of a Python record are exactly the function
    definitions ([def]) that occur anywhere in the tree, at the top
    level, nested in another function or in a class, each with the path
    of the file. *)
Theorem python_functions_are_the_definitions (rel : string) (dump : AST -> string)
    (fname : string) (tree : AST) (f : func_info) :
  f ∈ p_functions (python_extract rel dump fname tree) <->
  fn_file f = rel
  /\ exists args body decorator_list rest,
       subnode (FunctionDef (fn_name f) args body decorator_list rest) tree.
Proof.
  rewrite python_extract_functions, elem_of_flat_map. split.
  - intros (n & Hn & Hf). apply walk_sound in Hn.
    destruct n; simpl in Hf; try (now apply not_elem_of_nil in Hf).
    apply list_elem_of_singleton in Hf. subst f. simpl. split; [reflexivity|]. eauto.
  - intros (Hfile & args & body & decs & rest & Hsub).
    eexists. split; [apply walk_complete, Hsub|].
    destruct f as [name file]. simpl in *. subst file. left.
Qed.

(** X7.  The call sites of a Python record are exactly the pairs of a
    function definition of the tree and a call expression anywhere below
    it (body, decorators, default values, nested definitions) whose
    callee is a name or an attribute chain.  So a call in a nested
    function is recorded once for every enclosing definition, and a call
    outside every function definition is not recorded. *)
Theorem python_call_sites (rel : string) (dump : AST -> string)
    (fname : string) (tree : AST) (fc : call_info) :
  fc ∈ p_function_calls (python_extract rel dump fname tree) <->
  exists name args body decorator_list rest sub,
    subnode (FunctionDef name args body decorator_list rest) tree
    /\ subnode sub (FunctionDef name args body decorator_list rest)
    /\ called_name sub = Some (fc_called fc)
    /\ fc_called fc <> ""
    /\ fc = mk_call_info (Some name) rel (fc_called fc) None.
Proof.
  rewrite python_extract_calls, elem_of_flat_map. split.
  - intros (fd & Hfd & Hfc). apply elem_of_flat_map in Hfd as (n & Hn & Hfd).
    apply walk_sound in Hn.
    destruct n; simpl in Hfd; try (now apply not_elem_of_nil in Hfd).
    apply list_elem_of_singleton in Hfd. subst fd.
    unfold calls_of_func_def in Hfc. cbn [fst snd] in Hfc.
    apply elem_of_flat_map in Hfc as (sub & Hsub & Hfc). apply walk_sound in Hsub.
    pose proof (call_of_sub_spec _ _ _ Hfc) as (Hcaller & Hfile & Hcalled & Ht).
    exists name, n, body, decorator_list, rest, sub.
    split; [exact Hn|]. split; [exact Hsub|]. split; [exact Hcalled|].
    split; [now apply truthy_true|].
    unfold call_of_sub in Hfc. rewrite Hcalled, Ht in Hfc.
    now apply list_elem_of_singleton in Hfc.
  - intros (name & args & body & decs & rest & sub & Hfn & Hsub & Hcalled & Hne & Hfc).
    exists (FunctionDef name args body decs rest, mk_func_info name rel). split.
    + apply elem_of_flat_map. eexists. split; [apply walk_complete, Hfn | left].
    + unfold calls_of_func_def. cbn [fst snd]. apply elem_of_flat_map.
      exists sub. split; [apply walk_complete, Hsub|].
      unfold call_of_sub. rewrite Hcalled.
      apply truthy_true in Hne. rewrite Hne. rewrite Hfc at 1. left.
Qed.

Lemma attr_parts_chain (root : AST) (attrs : list string) :
  attr_parts (attribute_chain root attrs) = attr_parts root ++ attrs.
Proof.
  revert root. induction attrs as [|a attrs IH]; intros root; simpl.
  - now rewrite app_nil_r.
  - unfold attribute_chain in *. simpl. rewrite IH. simpl. now rewrite <- app_assoc.
Qed.

Lemma attribute_chain_snoc (root : AST) (attrs : list string) (a : string) :
  attribute_chain root (attrs ++ [a]) = Attribute (attribute_chain root attrs) a.
Proof. unfold attribute_chain. now rewrite fold_left_app. Qed.

(** X8.  The name a call is recorded under is the dotted chain of its
    callee: [id.a1...an(...)] is recorded as "id.a1...an", and when the
    chain does not start at a name, as in [f(x).a1...an(...)], only the
    attribute names are kept: "a1...an". *)
Theorem called_name_of_chain (attrs : list string) (args keywords : list AST) :
  (forall id,
     called_name (Call (attribute_chain (Name id) attrs) args keywords)
     = Some (Str.join "." (id :: attrs)))
  /\ (forall func args0 keywords0 a,
        called_name
          (Call (attribute_chain (Call func args0 keywords0) (attrs ++ [a]))
             args keywords)
        = Some (Str.join "." (attrs ++ [a]))).
Proof.
  split.
  - intros id. destruct attrs as [|a attrs _] using rev_ind; [reflexivity|].
    rewrite attribute_chain_snoc. cbn [called_name]. unfold dotted.
    rewrite <- attribute_chain_snoc, attr_parts_chain. reflexivity.
  - intros func args0 keywords0 a. rewrite attribute_chain_snoc.
    cbn [called_name]. unfold dotted.
    rewrite <- attribute_chain_snoc, attr_parts_chain. reflexivity.
Qed.

(** ** What the grammar-based extractor records *)

Lemma call_type_only (node : TSNode) :
  type_in node ts_call_types = true ->
  type_in node ts_import_types = false
  /\ type_in node ts_function_types = false
  /\ type_in node ts_class_types = false.
Proof.
  unfold type_in, ts_call_types. cbn [existsb]. rewrite orb_false_r.
  intros H. repeat apply orb_true_iff in H as [H | H];
    apply String.eqb_eq in H; rewrite H; repeat split; reflexivity.
Qed.

Lemma find_caller_nearest (inner : list TSNode) (f : TSNode) (outer : list TSNode) :
  (forall n, n ∈ inner -> type_in n ts_function_types = false) ->
  type_in f ts_function_types = true ->
  find_caller (inner ++ f :: outer) = ts_text <$> ts_name_node f.
Proof.
  intros Hinner Hf.
  induction inner as [|n inner IH]; cbn [app find_caller].
  - now rewrite Hf.
  - rewrite (Hinner n) by left. apply IH. intros m Hm. apply Hinner. now right.
Qed.

(** X9.  The caller of a call found by the grammar-based extractor is the
    nearest enclosing function-like node and no other: when that node
    has a name the call is recorded under it, and when it has none (an
    anonymous or arrow function) the call is not recorded at all, even
    inside a named outer function. *)
Theorem caller_is_the_nearest_function (rel : string) (acc : ts_acc)
    (node : TSNode) (inner : list TSNode) (f : TSNode) (outer : list TSNode) :
  type_in node ts_call_types = true ->
  (forall n, n ∈ inner -> type_in n ts_function_types = false) ->
  type_in f ts_function_types = true ->
  find_caller (node :: inner ++ f :: outer) = ts_text <$> ts_name_node f
  /\ (ts_name_node f = None -> ts_visit rel acc (node, inner ++ f :: outer) = acc)
  /\ (forall name_node called,
        ts_name_node f = Some name_node -> ts_text name_node <> "" ->
        first_identifier node = Some called -> called <> "" ->
        tacc_function_calls (ts_visit rel acc (node, inner ++ f :: outer))
        = tacc_function_calls acc
          ++ [mk_call_info (Some (ts_text name_node)) rel called None]).
Proof.
  intros Hcall Hinner Hf.
  destruct (call_type_only node Hcall) as (Himp & Hfun & Hcls).
  assert (Hfind : find_caller (node :: inner ++ f :: outer)
                  = ts_text <$> ts_name_node f).
  { cbn [find_caller]. rewrite Hfun. now apply find_caller_nearest. }
  split; [exact Hfind|]. split.
  - intros Hnone. unfold ts_visit. rewrite Himp, Hfun, Hcls, Hcall, Hfind, Hnone.
    cbn [fmap option_fmap option_map]. now repeat case_match.
  - intros name_node called Hname Hne Hid Hcalled.
    unfold ts_visit. rewrite Himp, Hfun, Hcls, Hcall, Hfind, Hname, Hid.
    cbn [fmap option_fmap option_map].
    apply truthy_true in Hne. apply truthy_true in Hcalled.
    now rewrite Hcalled, Hne.
Qed.

Lemma caller_is_the_nearest_function_witness :
  (exists r,
     parse_with_treesitter ExampleArrow.env "repo/h.js" "javascript" = Ok (Some r)
     /\ List.map fc_called (p_function_calls r) = ["shown"])
  /\ forall acc,
       ts_visit "h.js" acc
         (ExampleArrow.call_of "hidden",
          [ExampleArrow.call_stmt "hidden";
           TSN "statement_block" "{ hidden(); }" None
             [ExampleJS.token "{"; ExampleArrow.call_stmt "hidden"; ExampleJS.token "}"]]
          ++ ExampleArrow.arrow
             :: [TSN "variable_declarator" "h = () => { hidden(); }" (Some 0)
                   [TSN "identifier" "h" None []; ExampleJS.token "="; ExampleArrow.arrow];
                 ExampleArrow.declaration; ExampleArrow.block; ExampleArrow.outer;
                 ExampleArrow.tree])
       = acc.
Proof.
  split.
  - eexists. split; vm_compute; reflexivity.
  - intros acc.
    apply (caller_is_the_nearest_function "h.js" acc (ExampleArrow.call_of "hidden")).
    + reflexivity.
    + intros n Hn. repeat (apply elem_of_cons in Hn as [-> | Hn]; [reflexivity|]).
      now apply not_elem_of_nil in Hn.
    + reflexivity.
    + reflexivity.
Defined.

Lemma ts_visit_call_sites (rel : string) (acc : ts_acc) (item : TSNode * list TSNode) :
  (forall fc, fc ∈ tacc_function_calls acc ->
     exists caller, fc = mk_call_info (Some caller) rel (fc_called fc) None
       /\ caller <> "" /\ fc_called fc <> "") ->
  forall fc, fc ∈ tacc_function_calls (ts_visit rel acc item) ->
    exists caller, fc = mk_call_info (Some caller) rel (fc_called fc) None
      /\ caller <> "" /\ fc_called fc <> "".
Proof.
  intros Hacc. destruct item as [node parents]. unfold ts_visit.
  repeat case_match; try exact Hacc; cbn [tacc_function_calls]; try exact Hacc.
  intros fc [Hin | ->%list_elem_of_singleton]%elem_of_app; [now apply Hacc|].
  eexists. split; [reflexivity|]. cbn [fc_called]. split; now apply truthy_true.
Qed.

(** X10.  Every call site the grammar-based extractor returns has a
    non-empty caller name, a non-empty called name and the path of the
    file as caller file; the second pass therefore writes for each of
    them both the CALLS and the USED_IN relationship. *)
Theorem grammar_call_sites_have_callers (env : Env) (filepath lang_key : string)
    (r : parsed) (fc : call_info) :
  parse_with_treesitter env filepath lang_key = Ok (Some r) ->
  fc ∈ p_function_calls r ->
  exists caller,
    fc = mk_call_info (Some caller) (fi_path (p_file r)) (fc_called fc) None
    /\ caller <> "" /\ fc_called fc <> ""
    /\ forall tbl g,
         mk_edge (FunctionN caller (fi_path (p_file r))) CALLS
           (FunctionN (fc_called fc) (resolved_called_file tbl fc))
           ∈ edges (call_step tbl g fc)
         /\ mk_edge (FunctionN (fc_called fc) (resolved_called_file tbl fc)) USED_IN
              (FileN (fi_path (p_file r))) ∈ edges (call_step tbl g fc).
Proof.
  intros Hparse Hfc. unfold parse_with_treesitter in Hparse.
  repeat case_match; try discriminate.
  apply rbind_Ok in Hparse as (rel & _ & [= <-]).
  unfold ts_extract in Hfc. cbn [p_function_calls] in Hfc.
  revert fc Hfc.
  apply (fold_left_invariant
           (fun acc => forall fc, fc ∈ tacc_function_calls acc ->
              exists caller,
                fc = mk_call_info (Some caller)
                       (fi_path (p_file (ts_extract rel (os_path.basename filepath) t)))
                       (fc_called fc) None
                /\ caller <> "" /\ fc_called fc <> ""
                /\ forall tbl g,
                     mk_edge (FunctionN caller rel) CALLS
                       (FunctionN (fc_called fc) (resolved_called_file tbl fc))
                       ∈ edges (call_step tbl g fc)
                     /\ mk_edge (FunctionN (fc_called fc) (resolved_called_file tbl fc))
                          USED_IN (FileN rel) ∈ edges (call_step tbl g fc))).
  - intros fc Hfc. now apply not_elem_of_nil in Hfc.
  - intros acc item _ Hacc fc Hfc.
    destruct (ts_visit_call_sites rel acc item) with (fc := fc)
      as (caller & Heq & Hc & Hd); [|exact Hfc|].
    { intros fc' Hfc'. destruct (Hacc fc' Hfc') as (c & Hc1 & Hc2 & Hc3 & _). eauto. }
    exists caller. split; [exact Heq|]. split; [exact Hc|]. split; [exact Hd|].
    intros tbl g. destruct (call_step_writes tbl fc g) as (_ & He & _).
    assert (Hcaller : fc_caller fc = Some caller) by (rewrite Heq; reflexivity).
    assert (Hfile : fc_caller_file fc = rel) by (rewrite Heq; reflexivity).
    split; apply He; right; unfold call_edges, known_caller; rewrite Hfile.
    + left. exists caller. split; [split; [exact Hcaller | now apply truthy_true]|].
      reflexivity.
    + now right.
Qed.

Lemma grammar_call_sites_have_callers_witness :
  exists r caller,
    parse_with_treesitter ExampleJS.env "repo/web/ui.ts" "typescript" = Ok (Some r)
    /\ mk_call_info (Some "render") "web/ui.ts" "paint" None
       = mk_call_info (Some caller) (fi_path (p_file r)) "paint" None
    /\ caller <> "".
Proof.
  destruct (parse_with_treesitter ExampleJS.env "repo/web/ui.ts" "typescript")
    as [[r|]|] eqn:Hparse; try (vm_compute in Hparse; discriminate).
  destruct (grammar_call_sites_have_callers ExampleJS.env "repo/web/ui.ts" "typescript"
              r (mk_call_info (Some "render") "web/ui.ts" "paint" None) Hparse)
    as (caller & Heq & Hc & _).
  - vm_compute in Hparse. injection Hparse as <-. left.
  - exists r, caller. split; [reflexivity|]. split; [exact Heq | exact Hc].
Defined.

(** ** What the heuristic extractor records *)

Lemma str_lt_trans (a b c : string) : str_lt a b -> str_lt b c -> str_lt a c.
Proof.
  unfold str_lt. intros Hab Hbc.
  apply OrderedTypeEx.String_as_OT.cmp_lt.
  apply OrderedTypeEx.String_as_OT.cmp_lt in Hab, Hbc.
  eapply OrderedTypeEx.String_as_OT.lt_trans; eassumption.
Qed.

Lemma str_lt_irrefl (a : string) : ~ str_lt a a.
Proof.
  unfold str_lt. intros H. pose proof (String.compare_antisym a a) as Ha.
  rewrite H in Ha. discriminate.
Qed.

Lemma str_lt_flip (a b : string) : String.compare a b = Gt -> str_lt b a.
Proof.
  unfold str_lt. intros H. rewrite String.compare_antisym, H. reflexivity.
Qed.

Lemma elem_of_set_add (x y : string) (s : list string) :
  y ∈ set_add x s <-> y = x \/ y ∈ s.
Proof.
  induction s as [|z s IH]; cbn [set_add].
  - rewrite list_elem_of_singleton, elem_of_nil. tauto.
  - destruct (String.compare x z) eqn:Hcmp.
    + apply String.compare_eq_iff in Hcmp as ->.
      rewrite elem_of_cons. tauto.
    + rewrite elem_of_cons. tauto.
    + rewrite !elem_of_cons, IH. tauto.
Qed.

Lemma set_add_sorted (x : string) (s : list string) :
  StronglySorted str_lt s -> StronglySorted str_lt (set_add x s).
Proof.
  induction 1 as [|z s Hs IH Hz]; cbn [set_add].
  - repeat constructor.
  - destruct (String.compare x z) eqn:Hcmp.
    + now constructor.
    + constructor; [now constructor|]. constructor; [exact Hcmp|].
      rewrite Forall_forall in Hz |- *. intros w Hw.
      apply (str_lt_trans x z w); [exact Hcmp | now apply Hz].
    + constructor; [exact IH|].
      apply Forall_forall. intros w Hw.
      apply elem_of_set_add in Hw as [-> | Hw].
      * now apply str_lt_flip.
      * rewrite Forall_forall in Hz. now apply Hz.
Qed.

Lemma sorted_set_spec (xs : list string) :
  StronglySorted str_lt (sorted_set xs)
  /\ forall x, x ∈ sorted_set xs <-> x ∈ xs.
Proof.
  unfold sorted_set.
  enough (H : forall s, StronglySorted str_lt s ->
            StronglySorted str_lt (fold_left (fun s x => set_add x s) xs s)
            /\ forall x, x ∈ fold_left (fun s x => set_add x s) xs s
                         <-> x ∈ s \/ x ∈ xs).
  { destruct (H [] (SSorted_nil _)) as [H1 H2]. split; [exact H1|].
    intros x. rewrite H2, elem_of_nil. tauto. }
  induction xs as [|y xs IH]; intros s Hs; cbn [fold_left].
  - split; [exact Hs|]. intros x. rewrite elem_of_nil. tauto.
  - destruct (IH (set_add y s) (set_add_sorted y s Hs)) as [H1 H2].
    split; [exact H1|]. intros x. rewrite H2, elem_of_set_add, elem_of_cons. tauto.
Qed.

Lemma strongly_sorted_NoDup (l : list string) : StronglySorted str_lt l -> NoDup l.
Proof.
  induction 1 as [|z s Hs IH Hz]; constructor; [|exact IH].
  intros Hin. rewrite Forall_forall in Hz.
  apply (str_lt_irrefl z), Hz, Hin.
Qed.

(** X11.  The heuristic extractor returns the function, class and
    import names as sets in ascending code-point order: each list is
    strictly increasing (so free of duplicates, however often a name
    matched) and holds exactly the names some pattern matched; classes
    carry no bases. *)
Theorem heuristic_names_sorted_sets (env : Env) (filepath lang_key src : string)
    (r : parsed) :
  read_utf8_ignore env filepath = Some src ->
  parse_js_like_file env filepath lang_key = Ok (Some r) ->
  (StronglySorted str_lt (List.map fn_name (p_functions r))
   /\ NoDup (p_functions r)
   /\ forall f, f ∈ p_functions r <->
        fn_file f = fi_path (p_file r)
        /\ (fn_name f ∈ re_function_decl env src
            \/ fn_name f ∈ re_function_assign env src))
  /\ (StronglySorted str_lt (List.map cls_name (p_classes r))
      /\ NoDup (p_classes r)
      /\ forall c, c ∈ p_classes r <->
           cls_file c = fi_path (p_file r) /\ cls_bases c = []
           /\ cls_name c ∈ re_class_decl env src)
  /\ (StronglySorted str_lt (p_imports r)
      /\ NoDup (p_imports r)
      /\ forall i, i ∈ p_imports r <->
           i ∈ re_import env src \/ i ∈ re_require env src).
Proof.
  intros Hread Hparse. unfold parse_js_like_file in Hparse.
  rewrite Hread in Hparse. apply rbind_Ok in Hparse as (rel & _ & [= <-]).
  unfold js_extract. cbn [p_functions p_classes p_imports p_file fi_path].
  rewrite !List.map_map. cbn [fn_name cls_name]. rewrite !List.map_id.
  destruct (sorted_set_spec (re_function_decl env src ++ re_function_assign env src))
    as [Hf1 Hf2].
  destruct (sorted_set_spec (re_class_decl env src)) as [Hc1 Hc2].
  destruct (sorted_set_spec (re_import env src ++ re_require env src)) as [Hi1 Hi2].
  split; [|split].
  - split; [exact Hf1|]. split.
    + apply NoDup_fmap_2; [|now apply strongly_sorted_NoDup].
      intros a b [= ->]. reflexivity.
    + intros f. rewrite elem_of_map. split.
      * intros (n & -> & Hn). cbn [fn_file fn_name].
        apply Hf2, elem_of_app in Hn. tauto.
      * intros [Hfile Hn]. exists (fn_name f). split.
        -- destruct f as [n fl]. cbn in *. now subst.
        -- apply Hf2, elem_of_app. exact Hn.
  - split; [exact Hc1|]. split.
    + apply NoDup_fmap_2; [|now apply strongly_sorted_NoDup].
      intros a b [= ->]. reflexivity.
    + intros c. rewrite elem_of_map. split.
      * intros (n & -> & Hn). cbn [cls_file cls_name cls_bases].
        apply Hc2 in Hn. tauto.
      * intros (Hfile & Hbases & Hn). exists (cls_name c). split.
        -- destruct c as [n bs fl]. cbn in *. now subst.
        -- now apply Hc2.
  - split; [exact Hi1|]. split; [now apply strongly_sorted_NoDup|].
    intros i. rewrite Hi2, elem_of_app. tauto.
Qed.

Lemma heuristic_names_sorted_sets_witness :
  exists r,
    parse_js_like_file ExampleHeuristic.env "repo/f.js" "javascript" = Ok (Some r)
    /\ List.map fn_name (p_functions r) = ["f"]
    /\ StronglySorted str_lt (p_imports r)
    /\ NoDup (p_functions r).
Proof.
  destruct (read_utf8_ignore ExampleHeuristic.env "repo/f.js") as [src|] eqn:Hread;
    [|vm_compute in Hread; discriminate].
  destruct (parse_js_like_file ExampleHeuristic.env "repo/f.js" "javascript")
    as [[r|]|] eqn:Hparse; try (vm_compute in Hparse; discriminate).
  destruct (heuristic_names_sorted_sets ExampleHeuristic.env "repo/f.js" "javascript"
              src r Hread Hparse) as ((_ & Hnd & _) & _ & (Hs & _)).
  exists r. split; [reflexivity|]. split; [|split; [exact Hs | exact Hnd]].
  vm_compute in Hparse. injection Hparse as <-. reflexivity.
Defined.

(** X12.  The call sites of the heuristic extractor are the matches of
    the call pattern, in order and with repetitions, without those
    whose name is a blocked keyword: a name that is not blocked occurs
    as often as it matched, and a blocked name never occurs. *)
Theorem heuristic_calls_skip_keywords (env : Env) (filepath lang_key src : string)
    (r : parsed) :
  read_utf8_ignore env filepath = Some src ->
  parse_js_like_file env filepath lang_key = Ok (Some r) ->
  (forall name, name ∈ keyword_blocklist ->
     name ∉ List.map fc_called (p_function_calls r))
  /\ (forall name, name ∉ keyword_blocklist ->
        count_occ string_dec (List.map fc_called (p_function_calls r)) name
        = count_occ string_dec (re_call env src) name)
  /\ (forall names, (forall name, name ∈ names -> name ∉ keyword_blocklist) ->
        re_call env src = names ->
        List.map fc_called (p_function_calls r) = names).
Proof.
  intros Hread Hparse. unfold parse_js_like_file in Hparse.
  rewrite Hread in Hparse. apply rbind_Ok in Hparse as (rel & _ & [= <-]).
  unfold js_extract. cbn [p_function_calls].
  rewrite List.map_map. cbn [fc_called]. rewrite List.map_id.
  set (keep := fun name => negb (existsb (String.eqb name) keyword_blocklist)).
  assert (Hkeep : forall name, keep name = true <-> name ∉ keyword_blocklist).
  { intros name. unfold keep. rewrite negb_true_iff. split.
    - intros Hf Hin. apply not_true_iff_false in Hf. apply Hf.
      apply existsb_exists. exists name. split; [now apply list_elem_of_In|].
      apply String.eqb_refl.
    - intros Hnot. apply not_true_iff_false. intros Hex.
      apply existsb_exists in Hex as (k & Hk & ->%String.eqb_eq).
      now apply Hnot, list_elem_of_In. }
  split; [|split].
  - intros name Hin Hmem. apply list_elem_of_In, filter_In in Hmem as [_ Hk].
    apply Hkeep in Hk. contradiction.
  - intros name Hnot. apply Hkeep in Hnot.
    induction (re_call env src) as [|m ms IH]; [reflexivity|].
    cbn [List.filter]. destruct (keep m) eqn:Hm; cbn [count_occ].
    + now rewrite IH.
    + destruct (string_dec m name) as [->|]; [congruence | exact IH].
  - intros names Hnames <-.
    induction (re_call env src) as [|m ms IH]; [reflexivity|].
    cbn [List.filter]. assert (Hm : keep m = true) by (apply Hkeep, Hnames; left).
    rewrite Hm. f_equal. apply IH. intros name Hn. apply Hnames. now right.
Qed.

Lemma heuristic_calls_skip_keywords_witness :
  exists r,
    parse_js_like_file ExampleHeuristic.env "repo/f.js" "javascript" = Ok (Some r)
    /\ List.map fc_called (p_function_calls r) = ["f"; "go"; "go"]
    /\ "if" ∉ List.map fc_called (p_function_calls r).
Proof.
  destruct (read_utf8_ignore ExampleHeuristic.env "repo/f.js") as [src|] eqn:Hread;
    [|vm_compute in Hread; discriminate].
  destruct (parse_js_like_file ExampleHeuristic.env "repo/f.js" "javascript")
    as [[r|]|] eqn:Hparse; try (vm_compute in Hparse; discriminate).
  destruct (heuristic_calls_skip_keywords ExampleHeuristic.env "repo/f.js" "javascript"
              src r Hread Hparse) as (Hno & _).
  exists r. split; [reflexivity|]. split.
  - vm_compute in Hparse. injection Hparse as <-. reflexivity.
  - apply Hno. apply list_elem_of_In. vm_compute. tauto.
Defined.

(** ** Files no extractor can read *)

Lemma unparsed_parse_any_file (env : Env) (full : string) :
  unparsed env full -> parse_any_file env full = Ok None.
Proof.
  intros (lang_key & Hlang & H). unfold parse_any_file. rewrite Hlang.
  assert (Htruthy : Str.truthy lang_key = true).
  { cbn [EXT_LANG_MAP dict_get] in Hlang.
    repeat case_match; try discriminate; injection Hlang as <-; reflexivity. }
  rewrite Htruthy. cbn [negb].
  destruct (String.eqb lang_key "python").
  - unfold parse_python_file.
    destruct H as [-> | (source & -> & ->)]; reflexivity.
  - destruct H as [Hread Hts].
    assert (Hjs : parse_js_like_file env full lang_key = Ok None).
    { unfold parse_js_like_file. now rewrite Hread. }
    rewrite Hjs. destruct Hts as [-> | (parser & Hp & Hfail)]; [reflexivity|].
    rewrite Hp. unfold parse_with_treesitter. rewrite Hp.
    destruct Hfail as [-> | (source_bytes & -> & ->)]; reflexivity.
Qed.

(** X13.  A file that no extractor can read is not lost.  When a scanned
    Python file cannot be read or does not parse (no other extractor is
    tried for it), or a scanned file of another language can be read by
    neither its grammar nor the heuristic extractor, the first pass
    still makes a record of it, with the path relative to the scanned
    root and empty lists; a full run writes its File node, and nothing
    else on behalf of this record. *)
Theorem unparsed_file_keeps_its_node (env : Env) (repo_root : string) (g : graph)
    (full : string) :
  full ∈ scanned_files env repo_root ->
  unparsed env full ->
  exists rel recs g',
    rel_path_of env full repo_root = Ok rel
    /\ first_pass env repo_root = Ok (recs, symbol_table recs)
    /\ mk_parsed (mk_file_info rel (os_path.basename full)) [] [] [] [] [] ∈ recs
    /\ (forall tbl n,
          record_nodes env repo_root tbl
            (mk_parsed (mk_file_info rel (os_path.basename full)) [] [] [] [] []) n
          <-> n = FileN rel)
    /\ (forall tbl e,
          ~ record_edges env repo_root tbl
              (mk_parsed (mk_file_info rel (os_path.basename full)) [] [] [] [] []) e)
    /\ run_ingestion env repo_root g false = Ok (g', [])
    /\ FileN rel ∈ nodes g'.
Proof.
  intros Hfull Hun. apply unparsed_parse_any_file in Hun.
  destruct (run_ingestion_full env repo_root g) as (recs & g' & Hfp & Hrun & Hn & _).
  pose proof (first_pass_inv _ _ _ _ Hfp) as [_ Hall].
  pose proof Hfull as Hfull'.
  apply list_elem_of_lookup in Hfull' as [i Hi].
  destruct (Forall2_lookup_l _ _ _ _ _ Hall Hi) as (r & Hr & Hrec).
  unfold record_of in Hrec. rewrite Hun in Hrec. cbn [rbind] in Hrec.
  destruct (degenerate_record_files _ _ _ _ Hrec) as (rel & Hrel & _ & ->).
  exists rel, recs, g'.
  assert (Hin : mk_parsed (mk_file_info rel (os_path.basename full)) [] [] [] [] []
                ∈ recs) by (apply list_elem_of_lookup; eauto).
  split; [exact Hrel|]. split; [exact Hfp|]. split; [exact Hin|].
  assert (Hnodes : forall tbl n,
            record_nodes env repo_root tbl
              (mk_parsed (mk_file_info rel (os_path.basename full)) [] [] [] [] []) n
            <-> n = FileN rel).
  { intros tbl n. unfold record_nodes.
    cbn [p_file p_classes p_functions p_endpoints p_imports p_function_calls fi_path].
    split; [|now left].
    intros [H | [(x & Hx & _) | [(x & Hx & _) | [(x & Hx & _)
      | [(x & Hx & _) | (x & Hx & _)]]]]];
      [exact H | now apply not_elem_of_nil in Hx ..]. }
  split; [exact Hnodes|]. split.
  - intros tbl e. unfold record_edges.
    cbn [p_file p_classes p_functions p_endpoints p_imports p_function_calls fi_path].
    intros [(x & Hx & _) | [(x & Hx & _) | [(x & Hx & _)
      | [(x & Hx & _) | (x & Hx & _)]]]]; now apply not_elem_of_nil in Hx.
  - split; [exact Hrun|]. apply Hn. right.
    eexists. split; [exact Hin|]. now apply Hnodes.
Qed.

Lemma unparsed_file_keeps_its_node_witness :
  exists recs g',
    first_pass ExampleBroken.env "repo" = Ok (recs, symbol_table recs)
    /\ mk_parsed (mk_file_info "bad.py" "bad.py") [] [] [] [] [] ∈ recs
    /\ run_ingestion ExampleBroken.env "repo" empty_graph false = Ok (g', [])
    /\ FileN "bad.py" ∈ nodes g'.
Proof.
  destruct (unparsed_file_keeps_its_node ExampleBroken.env "repo" empty_graph
              "repo/bad.py")
    as (rel & recs & g' & Hrel & Hfp & Hin & _ & _ & Hrun & Hnode).
  - vm_compute. left.
  - exists "python". split; [reflexivity|]. right.
    exists ExampleBroken.src_bad. split; reflexivity.
  - vm_compute in Hrel. injection Hrel as <-.
    exists recs, g'. split; [exact Hfp|]. split; [exact Hin|].
    split; [exact Hrun | exact Hnode].
Defined.

(** ** The output of [main] *)

Lemma rbind_assoc {A B C} (r : result A) (f : A -> result B) (k : B -> result C) :
  rbind (rbind r f) k = rbind r (fun a => rbind (f a) k).
Proof. now destruct r. Qed.

Lemma prints_nil (s : io) : prints [] s = s.
Proof. destruct s. unfold prints. cbn. now rewrite app_nil_r. Qed.

Lemma prints_app (a b : list line) (s : io) :
  prints b (prints a s) = prints (a ++ b) s.
Proof. unfold prints. cbn. now rewrite app_assoc. Qed.

(** A loop whose body prints [d x] and leaves the tally alone. *)
Lemma for_each_printing {A S} (f : S -> A -> result S)
    (fio : S * io -> A -> result (S * io)) (d : A -> list line)
    (l : list A) (s : S) (t : io) :
  (forall s t x, x ∈ l -> fio (s, t) x = try! s' <- f s x; Ok (s', prints (d x) t)) ->
  for_each fio l (s, t) = try! s' <- for_each f l s; Ok (s', prints (flat_map d l) t).
Proof.
  revert s t. induction l as [|x l IH]; intros s t Hf.
  - cbn [for_each flat_map rbind]. now rewrite prints_nil.
  - cbn [for_each flat_map]. rewrite Hf by left. rewrite !rbind_assoc.
    destruct (f s x) as [s1|e]; [|reflexivity]. cbn [rbind].
    rewrite IH by (intros s' t' y Hy; apply Hf; now right).
    destruct (for_each f l s1); [|reflexivity]. cbn [rbind].
    now rewrite prints_app.
Qed.

Lemma lang_key_truthy (ext lang_key : string) :
  dict_get EXT_LANG_MAP ext = Some lang_key -> Str.truthy lang_key = true.
Proof.
  cbn [EXT_LANG_MAP dict_get]. intros H.
  repeat case_match; try discriminate; injection H as <-; reflexivity.
Qed.

(** The router asks for the grammar-based extractor only when the
    grammar is loaded, so it never reaches the statement that counts;
    what is printed for the file is [file_diagnostics]. *)
Lemma parse_any_file_io_spec (env : Env) (filepath : string) (s : io) :
  parse_any_file_io env filepath s
  = try! r <- parse_any_file env filepath;
    Ok (r, prints (file_diagnostics env filepath) s).
Proof.
  unfold parse_any_file_io, parse_any_file, file_diagnostics.
  destruct (dict_get EXT_LANG_MAP _) as [lang_key|] eqn:Hlang;
    [|cbn [rbind]; now rewrite prints_nil].
  rewrite (lang_key_truthy _ _ Hlang). cbn [negb].
  destruct (String.eqb lang_key "python").
  - unfold parse_python_file_io, parse_python_file.
    destruct (read_utf8 env filepath) as [source|]; [|reflexivity].
    destruct (ast_parse env source) as [tree|]; [|reflexivity].
    rewrite rbind_assoc, prints_nil.
    now destruct (rel_path_of env filepath (REPO_ROOT env)).
  - destruct (LANGUAGE_PARSERS env lang_key) as [parser|] eqn:Hp.
    + unfold parse_with_treesitter_io, parse_with_treesitter. rewrite Hp.
      destruct (read_bytes env filepath) as [source_bytes|].
      * destruct (parser source_bytes) as [root|].
        -- rewrite !rbind_assoc, prints_nil.
           now destruct (rel_path_of env filepath (REPO_ROOT env)).
        -- cbn [rbind fst snd]. now rewrite ?rbind_assoc.
      * cbn [rbind fst snd]. now rewrite ?rbind_assoc.
    + rewrite prints_nil.
      now destruct (parse_js_like_file env filepath lang_key).
Qed.

Lemma scan_file_io_spec (env : Env) (repo_root root : string)
    (st : pass1_state) (s : io) (fname : string) :
  scan_file_io env repo_root root (st, s) fname
  = try! st' <- scan_file env repo_root root st fname;
    Ok (st', prints (if recognized fname
                     then file_diagnostics env (os_path.join root fname)
                     else []) s).
Proof.
  unfold scan_file_io, scan_file, recognized. cbn [fst snd].
  destruct (dict_mem EXT_LANG_MAP _); [|cbn [rbind]; now rewrite prints_nil].
  rewrite parse_any_file_io_spec, !rbind_assoc.
  destruct (parse_any_file env (os_path.join root fname)) as [o|e]; [|reflexivity].
  cbn [rbind fst snd]. rewrite !rbind_assoc.
  now destruct (match o with Some p => Ok p | None => _ end).
Qed.

Lemma flat_map_selected {B} (D : string -> list B) (root : string)
    (files : list string) :
  flat_map (fun fname => if recognized fname then D (os_path.join root fname) else [])
    files
  = flat_map D (List.map (os_path.join root) (List.filter recognized files)).
Proof.
  induction files as [|fname files IH]; [reflexivity|].
  cbn [flat_map List.filter]. rewrite IH.
  destruct (recognized fname); reflexivity.
Qed.

Lemma flat_map_flat_map {A B C} (f : A -> list B) (h : B -> list C) (l : list A) :
  flat_map (fun x => flat_map h (f x)) l = flat_map h (flat_map f l).
Proof.
  induction l as [|x l IH]; [reflexivity|].
  cbn [flat_map]. now rewrite IH, flat_map_app.
Qed.

Lemma first_pass_io_spec (env : Env) (repo_root : string) (s : io) :
  first_pass_io env repo_root s
  = try! st <- first_pass env repo_root;
    Ok (st, prints (flat_map (file_diagnostics env) (scanned_files env repo_root)) s).
Proof.
  unfold first_pass_io, first_pass, scanned_files.
  rewrite <- (flat_map_flat_map
                (fun entry : string * list string * list string =>
                   let '(root, dirs, files) := entry in
                   List.map (os_path.join root) (List.filter recognized files))
                (file_diagnostics env)).
  apply (for_each_printing
           (fun st entry => let '(root, dirs, files) := entry in
                            for_each (scan_file env repo_root root) files st)
           (fun st entry => let '(root, dirs, files) := entry in
                            for_each (scan_file_io env repo_root root) files st)).
  intros st t [[root dirs] files] _.
  rewrite <- flat_map_selected.
  apply for_each_printing. intros st' t' fname _. apply scan_file_io_spec.
Qed.

Lemma run_ingestion_io_spec (env : Env) (repo_root : string) (g : graph)
    (dry_run : bool) (s : io) :
  run_ingestion_io env repo_root g dry_run s
  = try! res <- run_ingestion env repo_root g dry_run;
    Ok (fst res,
        prints (flat_map (file_diagnostics env) (scanned_files env repo_root)
                ++ List.map RunLine (snd res)) s).
Proof.
  unfold run_ingestion_io, run_ingestion.
  rewrite first_pass_io_spec, !rbind_assoc.
  destruct (first_pass env repo_root) as [[parsed_all tbl]|e]; [|reflexivity].
  cbn [rbind].
  destruct (for_each _ parsed_all (g, [])) as [[g' out]|e]; [|reflexivity].
  cbn [rbind fst snd]. now rewrite prints_app.
Qed.

(** X14.  What the program prints while [main] runs, in order: first
    the diagnostics of the extractors, one for every scanned Python file
    that cannot be read or does not parse and for every scanned file
    that its loaded grammar cannot read or parse; then, in dry-run mode,
    one line per record, and otherwise [Ingestion complete.] followed by
    the counts of the whole store after the run.  A run never changes
    the tally of skipped files, whichever grammars are missing, because
    the router calls the grammar-based extractor only for a loaded
    grammar: a fresh invocation never prints the missing-parser summary.
    In dry-run mode the store is untouched.  The flag [--log-missing]
    changes nothing. *)
Theorem main_output (env : Env) (repo : option string) (dry_run log_missing : bool)
    (g : graph) :
  exists g' out,
    run_ingestion env (default (REPO_ROOT env) repo) g dry_run = Ok (g', out)
    /\ (forall s,
          run_ingestion_io env (default (REPO_ROOT env) repo) g dry_run s
          = Ok (g',
                mk_io (SKIPPED_COUNTS s)
                  (stdout s
                   ++ flat_map (file_diagnostics env)
                        (scanned_files env (default (REPO_ROOT env) repo))
                   ++ List.map RunLine out)))
    /\ main env repo dry_run log_missing g (mk_io [] [])
       = Ok (g',
             mk_io []
               (flat_map (file_diagnostics env)
                  (scanned_files env (default (REPO_ROOT env) repo))
                ++ List.map RunLine out
                ++ (if dry_run then []
                    else [IngestionComplete; print_summary_counts g'])))
    /\ (dry_run = true -> g' = g)
    /\ (dry_run = false -> out = []).
Proof.
  set (root := default (REPO_ROOT env) repo).
  assert (Hrun : exists g' out,
            run_ingestion env root g dry_run = Ok (g', out)
            /\ (dry_run = true -> g' = g) /\ (dry_run = false -> out = [])).
  { destruct dry_run.
    - destruct (run_ingestion_dry env root g) as (recs & _ & Hdry).
      exists g, (List.map dry_run_line recs). split; [exact Hdry|].
      split; [reflexivity | discriminate].
    - destruct (run_ingestion_full env root g) as (recs & g' & _ & Hfull & _).
      exists g', []. split; [exact Hfull|]. split; [discriminate | reflexivity]. }
  destruct Hrun as (g' & out & Hrun & Hdry & Hfull).
  exists g', out. split; [exact Hrun|].
  assert (Hio : forall s,
            run_ingestion_io env root g dry_run s
            = Ok (g',
                  mk_io (SKIPPED_COUNTS s)
                    (stdout s
                     ++ flat_map (file_diagnostics env) (scanned_files env root)
                     ++ List.map RunLine out))).
  { intros s. rewrite run_ingestion_io_spec, Hrun. reflexivity. }
  split; [exact Hio|]. split; [|split; [exact Hdry | exact Hfull]].
  unfold main. fold root. rewrite Hio. cbn [rbind SKIPPED_COUNTS stdout app].
  destruct dry_run; cbn [negb]; [now rewrite app_nil_r|].
  unfold prints. cbn [SKIPPED_COUNTS stdout]. now rewrite <- app_assoc.
Qed.

(** ** The two extension tests agree *)

Lemma rfind_from_spec (c : ascii) (l : Str.chars) (i : nat) (found : option nat) :
  Str.rfind_from c l i found
  = match Str.rfind c l with Some j => Some (i + j) | None => found end.
Proof.
  unfold Str.rfind. revert i found.
  induction l as [|x l IH]; intros i found; cbn [Str.rfind_from]; [reflexivity|].
  rewrite (IH (S i)), (IH 1).
  destruct (Str.rfind_from c l 0 None) as [j|].
  - f_equal. lia.
  - destruct (Str.ascii_eqb x c); [f_equal; lia | reflexivity].
Qed.

Lemma rfind_cons (c x : ascii) (l : Str.chars) :
  Str.rfind c (x :: l)
  = match Str.rfind c l with
    | Some j => Some (S j)
    | None => if Str.ascii_eqb x c then Some 0 else None
    end.
Proof.
  unfold Str.rfind at 1. cbn [Str.rfind_from]. rewrite rfind_from_spec.
  now destruct (Str.rfind c l).
Qed.

Lemma rfind_app (c : ascii) (a l : Str.chars) :
  Str.rfind c (a ++ l)
  = match Str.rfind c l with
    | Some j => Some (length a + j)
    | None => Str.rfind c a
    end.
Proof.
  induction a as [|x a IH]; cbn [app length].
  - now destruct (Str.rfind c l).
  - rewrite !rfind_cons, IH. destruct (Str.rfind c l); [reflexivity|].
    reflexivity.
Qed.

Lemma rfind_None (c : ascii) (l : Str.chars) : c ∉ l -> Str.rfind c l = None.
Proof.
  induction l as [|x l IH]; intros Hc; [reflexivity|].
  rewrite rfind_cons, IH by (intros H; apply Hc; now right).
  destruct (Str.ascii_eqb x c) eqn:Hx; [|reflexivity].
  apply ascii_eqb_true in Hx. subst. exfalso. apply Hc. left.
Qed.

Lemma rfind_bound (c : ascii) (l : Str.chars) (j : nat) :
  Str.rfind c l = Some j -> j < length l.
Proof.
  revert j. induction l as [|x l IH]; intros j; [discriminate|].
  rewrite rfind_cons. cbn [length]. destruct (Str.rfind c l) as [k|].
  - intros [= <-]. specialize (IH k eq_refl). lia.
  - destruct (Str.ascii_eqb x c); [intros [= <-]; lia | discriminate].
Qed.

Lemma rfind_map (f : ascii -> ascii) (c : ascii) (l : Str.chars) :
  (forall x, Str.ascii_eqb (f x) c = Str.ascii_eqb x c) ->
  Str.rfind c (List.map f l) = Str.rfind c l.
Proof.
  intros Hf. induction l as [|x l IH]; [reflexivity|].
  cbn [List.map]. now rewrite !rfind_cons, IH, Hf.
Qed.

Lemma existsb_map_same (f : ascii -> ascii) (p : ascii -> bool) (l : Str.chars) :
  (forall x, p (f x) = p x) -> existsb p (List.map f l) = existsb p l.
Proof.
  intros Hf. induction l as [|x l IH]; [reflexivity|].
  cbn [List.map existsb]. now rewrite Hf, IH.
Qed.

Lemma lower_ascii_keeps (c x : ascii) :
  c = os_path.sep \/ c = os_path.extsep ->
  Str.ascii_eqb (Str.lower_ascii x) c = Str.ascii_eqb x c.
Proof.
  intros [-> | ->]; destruct x as [[] [] [] [] [] [] [] []]; reflexivity.
Qed.

Lemma splitext_ext (p : string) :
  snd (os_path.splitext p) = Str.of_chars (ext_l (Str.to_chars p)).
Proof.
  unfold os_path.splitext, ext_l.
  destruct (Str.rfind os_path.extsep (Str.to_chars p)); [|reflexivity].
  now destruct (_ && _).
Qed.

Lemma ext_l_lower (l : Str.chars) :
  ext_l (List.map Str.lower_ascii l) = List.map Str.lower_ascii (ext_l l).
Proof.
  unfold ext_l.
  rewrite !(rfind_map Str.lower_ascii) by (intros x; apply lower_ascii_keeps; auto).
  destruct (Str.rfind os_path.extsep l) as [d|]; [|reflexivity].
  rewrite !List.skipn_map, List.firstn_map, existsb_map_same.
  - now destruct (_ && _).
  - intros x. f_equal. apply lower_ascii_keeps. auto.
Qed.

Lemma ext_l_under (a l : Str.chars) :
  os_path.sep ∉ l ->
  a = [] \/ (exists a', a = a' ++ [os_path.sep]) ->
  ext_l (a ++ l) = ext_l l.
Proof.
  intros Hl [-> | (a' & ->)]; [reflexivity|].
  set (a := a' ++ [os_path.sep]).
  assert (Hlen : length a = S (length a'))
    by (unfold a; rewrite length_app; cbn; lia).
  assert (Hsep : Str.rfind os_path.sep (a ++ l) = Some (length a')).
  { rewrite rfind_app, (rfind_None os_path.sep l Hl). unfold a. rewrite rfind_app.
    change (Str.rfind os_path.sep [os_path.sep]) with (Some 0).
    cbv beta iota. f_equal. lia. }
  unfold ext_l. rewrite Hsep, (rfind_None os_path.sep l Hl), rfind_app.
  destruct (Str.rfind os_path.extsep l) as [d|] eqn:Hd.
  - replace (Nat.leb (S (length a')) (length a + d)) with true
      by (symmetry; apply Nat.leb_le; lia).
    replace (length a + d - S (length a')) with d by lia.
    rewrite <- Hlen.
    assert (Hskip : forall k, skipn (length a + k) (a ++ l) = skipn k l).
    { intros k. rewrite skipn_app, skipn_all2 by lia.
      replace (length a + k - length a) with k by lia. reflexivity. }
    rewrite <- (Nat.add_0_r (length a)) at 1. rewrite !Hskip.
    now rewrite Nat.sub_0_r.
  - destruct (Str.rfind os_path.extsep a) as [d|] eqn:Ha; [|reflexivity].
    apply rfind_bound in Ha. rewrite Hlen in Ha.
    replace (Nat.leb (S (length a')) d) with false
      by (symmetry; apply Nat.leb_gt; lia).
    reflexivity.
Qed.

Lemma join_l_under (a l : Str.chars) :
  os_path.sep ∉ l ->
  exists pre, os_path.join_l a l = pre ++ l
    /\ (pre = [] \/ exists a', pre = a' ++ [os_path.sep]).
Proof.
  intros Hl. unfold os_path.join_l.
  destruct (Str.starts_with [os_path.sep] l) eqn:Hs.
  { destruct l as [|x l]; [discriminate|]. cbn [Str.starts_with] in Hs.
    rewrite andb_true_r in Hs. apply ascii_eqb_true in Hs. subst.
    exfalso. apply Hl. left. }
  destruct a as [|x a]; [exists []; auto|].
  destruct (Str.starts_with [os_path.sep] (rev (x :: a))) eqn:Hr.
  - exists (x :: a). split; [reflexivity|]. right.
    destruct (rev (x :: a)) as [|y r] eqn:Hrev; [discriminate|].
    cbn [Str.starts_with] in Hr. rewrite andb_true_r in Hr.
    apply ascii_eqb_true in Hr. subst y.
    exists (rev r). apply (f_equal (@rev ascii)) in Hrev.
    rewrite rev_involutive in Hrev. exact Hrev.
  - exists ((x :: a) ++ [os_path.sep]). split; [now rewrite <- app_assoc|].
    right. eauto.
Qed.

Lemma to_chars_lower (s : string) :
  Str.to_chars (Str.lower s) = List.map Str.lower_ascii (Str.to_chars s).
Proof. unfold Str.lower. apply to_of_chars. Qed.

Lemma scanned_extension (root fname : string) :
  os_path.sep ∉ Str.to_chars fname ->
  snd (os_path.splitext (Str.lower (os_path.join root fname)))
  = Str.lower (snd (os_path.splitext fname)).
Proof.
  intros Hf. rewrite !splitext_ext, to_chars_lower. unfold os_path.join.
  rewrite to_of_chars.
  destruct (join_l_under (Str.to_chars root) (Str.to_chars fname) Hf)
    as (pre & -> & Hpre).
  rewrite ext_l_lower, (ext_l_under pre _ Hf Hpre).
  unfold Str.lower. now rewrite to_of_chars.
Qed.

(** X15.  The runner and the router test the extension differently (the
    runner lower-cases the extension of the file name, the router takes
    the extension of the lower-cased full path), and they agree: for a
    file name as a directory listing gives it (without "/"), whatever
    the directory, both see the same extension.  So every file the
    first pass selects has a language, and the router returns [None]
    for it exactly when no extractor can read it. *)
Theorem selected_files_have_a_language (env : Env) (root fname : string) :
  os_path.sep ∉ Str.to_chars fname ->
  snd (os_path.splitext (Str.lower (os_path.join root fname)))
  = Str.lower (snd (os_path.splitext fname))
  /\ (recognized fname = true ->
      (exists lang_key,
         dict_get EXT_LANG_MAP
           (snd (os_path.splitext (Str.lower (os_path.join root fname))))
         = Some lang_key
         /\ lang_key ∈ ["python"; "javascript"; "typescript"])
      /\ (parse_any_file env (os_path.join root fname) = Ok None
          <-> unparsed env (os_path.join root fname))).
Proof.
  intros Hf. pose proof (scanned_extension root fname Hf) as Hext.
  split; [exact Hext|]. intros Hrec.
  unfold recognized, dict_mem in Hrec. rewrite <- Hext in Hrec.
  destruct (dict_get EXT_LANG_MAP _) as [lang_key|] eqn:Hlang; [|discriminate].
  assert (Hin : lang_key ∈ ["python"; "javascript"; "typescript"]).
  { cbn [EXT_LANG_MAP dict_get] in Hlang.
    repeat case_match; try discriminate; injection Hlang as <-;
      repeat first [left | right]. }
  split; [eauto|]. split; [|apply unparsed_parse_any_file].
  intros Hnone. exists lang_key. split; [exact Hlang|].
  unfold parse_any_file in Hnone. rewrite Hlang in Hnone.
  assert (Htruthy : Str.truthy lang_key = true).
  { repeat (apply elem_of_cons in Hin as [-> | Hin]; [reflexivity|]).
    now apply not_elem_of_nil in Hin. }
  rewrite Htruthy in Hnone. cbn [negb] in Hnone.
  destruct (String.eqb lang_key "python").
  - unfold parse_python_file in Hnone.
    destruct (read_utf8 env _) as [source|]; [|now left]. right.
    exists source. split; [reflexivity|].
    destruct (ast_parse env source); [|reflexivity].
    apply rbind_Ok in Hnone as (rel & _ & [=]).
  - assert (Hjs : forall r, parse_js_like_file env (os_path.join root fname) lang_key
                            = Ok r -> r = None ->
                            read_utf8_ignore env (os_path.join root fname) = None).
    { intros r Hr ->. unfold parse_js_like_file in Hr.
      destruct (read_utf8_ignore env _); [|reflexivity].
      apply rbind_Ok in Hr as (rel & _ & [=]). }
    destruct (LANGUAGE_PARSERS env lang_key) as [parser|] eqn:Hp.
    + apply rbind_Ok in Hnone as (ts & Hts & Hnone).
      destruct ts as [r|]; [discriminate|].
      split; [now apply (Hjs None)|]. right. exists parser. split; [reflexivity|].
      unfold parse_with_treesitter in Hts. rewrite Hp in Hts.
      destruct (read_bytes env _) as [source_bytes|]; [|now left]. right.
      exists source_bytes. split; [reflexivity|].
      destruct (parser source_bytes); [|reflexivity].
      apply rbind_Ok in Hts as (rel & _ & [=]).
    + split; [now apply (Hjs None) | now left].
Qed.

Lemma selected_files_have_a_language_witness :
  snd (os_path.splitext (Str.lower (os_path.join "repo/Web" "App.JSX")))
  = Str.lower (snd (os_path.splitext "App.JSX"))
  /\ exists lang_key,
       dict_get EXT_LANG_MAP
         (snd (os_path.splitext (Str.lower (os_path.join "repo/Web" "App.JSX"))))
       = Some lang_key
       /\ lang_key ∈ ["python"; "javascript"; "typescript"].
Proof.
  destruct (selected_files_have_a_language ExampleJS.env "repo/Web" "App.JSX")
    as [Hext Hrec].
  - intros Hin. repeat (apply elem_of_cons in Hin as [Hc | Hin]; [discriminate|]).
    now apply not_elem_of_nil in Hin.
  - split; [exact Hext|]. apply Hrec. reflexivity.
Defined.

(** ** The statement splitter of the schema uploader *)

Lemma to_chars_strip (s : string) :
  Str.to_chars (Str.strip s)
  = Str.rstrip_by Str.is_space (Str.lstrip_by Str.is_space (Str.to_chars s)).
Proof. unfold Str.strip. apply to_of_chars. Qed.

Lemma strip_ends (l : Str.chars) :
  let r := Str.rstrip_by Str.is_space (Str.lstrip_by Str.is_space l) in
  match r with [] => True | c :: _ => Str.is_space c = false end
  /\ match last r with None => True | Some c => Str.is_space c = false end.
Proof.
  cbv zeta. unfold Str.lstrip_by.
  destruct (drop_while_split Str.is_space l) as (pre & _ & _ & Hhd).
  destruct (rstrip_by_split Str.is_space (Str.drop_while Str.is_space l))
    as (post & Hl & _ & Hlast).
  split; [|exact Hlast].
  destruct (Str.rstrip_by Str.is_space (Str.drop_while Str.is_space l))
    as [|c t]; [exact I|].
  rewrite Hl in Hhd. exact Hhd.
Qed.

Lemma strip_fixed (l : Str.chars) :
  match l with [] => True | c :: _ => Str.is_space c = false end ->
  match last l with None => True | Some c => Str.is_space c = false end ->
  Str.rstrip_by Str.is_space (Str.lstrip_by Str.is_space l) = l.
Proof.
  intros Hhd Hlast. unfold Str.lstrip_by, Str.rstrip_by.
  assert (Hl : Str.drop_while Str.is_space l = l).
  { destruct l as [|c t]; [reflexivity|]. cbn [Str.drop_while]. now rewrite Hhd. }
  rewrite Hl. destruct l as [|c t] using rev_ind; [reflexivity|].
  rewrite last_snoc in Hlast. rewrite rev_app_distr. cbn [rev app Str.drop_while].
  rewrite Hlast. cbn [rev]. now rewrite rev_involutive.
Qed.

Lemma strip_idempotent (s : string) : Str.strip (Str.strip s) = Str.strip s.
Proof.
  rewrite <- (of_to_chars (Str.strip (Str.strip s))), to_chars_strip.
  rewrite <- (of_to_chars (Str.strip s)) at 2. f_equal.
  rewrite to_chars_strip.
  destruct (strip_ends (Str.to_chars s)) as [Hhd Hlast].
  now apply strip_fixed.
Qed.

Lemma strip_trimmed (s : string) : Str.truthy (Str.strip s) = true -> trimmed (Str.strip s).
Proof.
  intros H. split; [now apply truthy_true | apply strip_idempotent].
Qed.

Lemma split_step_statements (st : upload_schema.splitter) (ch : ascii) :
  (forall s, s ∈ upload_schema.statements st -> trimmed s) ->
  forall s, s ∈ upload_schema.statements (upload_schema.split_step st ch) -> trimmed s.
Proof.
  intros Hst s. unfold upload_schema.split_step.
  destruct (_ && negb (upload_schema.escape st)); [apply Hst|].
  destruct (if _ : bool then _ else _) as [s' d'].
  destruct (_ && negb d'); cbn [upload_schema.statements]; [|apply Hst].
  destruct (Str.truthy _) eqn:Hstmt; [|apply Hst].
  intros [Hin | ->%list_elem_of_singleton]%elem_of_app;
    [now apply Hst | now apply strip_trimmed].
Qed.

Lemma split_fold_trimmed (l : Str.chars) (s : string) :
  s ∈ upload_schema.finish
        (fold_left upload_schema.split_step l
           (upload_schema.mk_splitter [] [] false false false)) ->
  trimmed s.
Proof.
  unfold upload_schema.finish.
  set (st := fold_left _ _ _).
  assert (Hst : forall s, s ∈ upload_schema.statements st -> trimmed s).
  { apply (fold_left_invariant
             (fun st => forall s, s ∈ upload_schema.statements st -> trimmed s)).
    - intros s' Hs'. now apply not_elem_of_nil in Hs'.
    - intros st' ch _. apply split_step_statements. }
  destruct (Str.truthy _) eqn:Htail; [|apply Hst].
  intros [Hin | ->%list_elem_of_singleton]%elem_of_app;
    [now apply Hst | now apply strip_trimmed].
Qed.

(** X16.  Every statement the splitter returns is non-empty and has no
    whitespace at either end, whatever the script: empty statements
    (between two semicolons, or after the last one) are never
    returned. *)
Theorem split_statements_trimmed (script s : string) :
  s ∈ upload_schema._split_statements script -> trimmed s.
Proof. apply split_fold_trimmed. Qed.

Lemma split_chars_nonempty (c : ascii) (l : Str.chars) : Str.split_chars c l <> [].
Proof.
  destruct l as [|x l]; cbn [Str.split_chars]; [discriminate|].
  destruct (Str.ascii_eqb x c); [discriminate|].
  destruct (Str.split_chars c l); discriminate.
Qed.

Lemma plain_script_fold (l : Str.chars) (stmts : list string) (cur : Str.chars) :
  forallb plain l = true ->
  upload_schema.finish
    (fold_left upload_schema.split_step l
       (upload_schema.mk_splitter stmts cur false false false))
  = stmts ++ keep_statements (pieces_after cur l).
Proof.
  revert stmts cur. induction l as [|x l IH]; intros stmts cur Hplain.
  - unfold upload_schema.finish, pieces_after, keep_statements.
    cbn [fold_left upload_schema.current upload_schema.statements
         Str.split_chars List.map List.filter].
    rewrite app_nil_r.
    destruct (Str.truthy (Str.strip (Str.of_chars cur)));
      [reflexivity | now rewrite app_nil_r].
  - cbn [forallb] in Hplain. apply andb_true_iff in Hplain as [Hx Hl].
    unfold plain in Hx. apply andb_true_iff in Hx as [Hx Hdq].
    apply andb_true_iff in Hx as [Hbs Hsq].
    apply negb_true_iff in Hbs, Hsq, Hdq.
    cbn [fold_left]. unfold upload_schema.split_step at 2.
    cbn [upload_schema.escape upload_schema.in_single upload_schema.in_double
         upload_schema.current upload_schema.statements].
    rewrite Hbs, Hsq, Hdq. cbn [andb negb].
    unfold pieces_after. cbn [Str.split_chars].
    destruct (Str.ascii_eqb x ";") eqn:Hsemi; cbn [andb].
    + rewrite IH by exact Hl. unfold pieces_after, keep_statements.
      rewrite app_nil_r.
      destruct (Str.split_chars ";" l) as [|w ws] eqn:Hs;
        [now apply split_chars_nonempty in Hs|].
      cbn [app List.map List.filter].
      destruct (Str.truthy (Str.strip (Str.of_chars cur)));
        [now rewrite <- app_assoc | reflexivity].
    + rewrite IH by exact Hl. unfold pieces_after.
      destruct (Str.split_chars ";" l) as [|w ws] eqn:Hs;
        [now apply split_chars_nonempty in Hs|].
      now rewrite <- app_assoc.
Qed.

(** X17.  On a script without quotes and backslashes the splitter is
    [script.split(";")] with every piece stripped and the empty pieces
    dropped, in order. *)
Theorem split_statements_plain (script : string) :
  forallb plain (Str.to_chars script) = true ->
  upload_schema._split_statements script = plain_statements script.
Proof.
  intros Hplain. unfold upload_schema._split_statements.
  rewrite plain_script_fold by exact Hplain.
  unfold pieces_after, plain_statements, keep_statements.
  destruct (Str.split_chars ";" (Str.to_chars script)) as [|w ws] eqn:Hs;
    [now apply split_chars_nonempty in Hs|].
  reflexivity.
Qed.

Lemma split_statements_plain_witness :
  upload_schema._split_statements "CREATE (a);; MATCH (n) RETURN n ; "
  = ["CREATE (a)"; "MATCH (n) RETURN n"].
Proof.
  rewrite (split_statements_plain "CREATE (a);; MATCH (n) RETURN n ; ");
    reflexivity.
Defined.

Lemma quoted_fold (body : Str.chars) (stmts : list string)
    (cur : Str.chars) (s d : bool) :
  forallb plain body = true ->
  (s = true /\ d = false) \/ (s = false /\ d = true) ->
  fold_left upload_schema.split_step body
    (upload_schema.mk_splitter stmts cur s d false)
  = upload_schema.mk_splitter stmts (cur ++ body) s d false.
Proof.
  intros Hplain Hq. revert cur.
  induction body as [|x body IH]; intros cur; [now rewrite app_nil_r|].
  cbn [forallb] in Hplain. apply andb_true_iff in Hplain as [Hx Hl].
  unfold plain in Hx. apply andb_true_iff in Hx as [Hx Hdq].
  apply andb_true_iff in Hx as [Hbs Hsq].
  apply negb_true_iff in Hbs, Hsq, Hdq.
  cbn [fold_left]. unfold upload_schema.split_step at 2.
  cbn [upload_schema.escape upload_schema.in_single upload_schema.in_double
       upload_schema.current upload_schema.statements].
  rewrite Hbs, Hsq, Hdq. cbn [andb negb].
  replace (Str.ascii_eqb x ";" && negb s && negb d) with false
    by (destruct Hq as [[-> ->] | [-> ->]]; now rewrite ?andb_false_r).
  rewrite IH by exact Hl. now rewrite <- app_assoc.
Qed.

(** X18.  A semicolon inside a quoted literal does not end a statement:
    a script that is one literal in single or in double quotes, whose
    body has no quote and no backslash, is returned as one statement,
    however many semicolons the body holds. *)
Theorem quoted_semicolons_do_not_split (q : ascii) (body : Str.chars) :
  q = upload_schema.single_quote \/ q = upload_schema.double_quote ->
  forallb plain body = true ->
  upload_schema._split_statements (Str.of_chars (q :: body ++ [q]))
  = [Str.of_chars (q :: body ++ [q])].
Proof.
  intros Hq Hplain. unfold upload_schema._split_statements.
  rewrite to_of_chars. cbn [fold_left].
  assert (Hfirst : upload_schema.split_step
                     (upload_schema.mk_splitter [] [] false false false) q
                   = upload_schema.mk_splitter [] [q]
                       (Str.ascii_eqb q upload_schema.single_quote)
                       (Str.ascii_eqb q upload_schema.double_quote) false)
    by (destruct Hq as [-> | ->]; reflexivity).
  rewrite Hfirst, fold_left_app.
  rewrite quoted_fold;
    [|exact Hplain | destruct Hq as [-> | ->]; [left | right]; split; reflexivity].
  assert (Hlast : upload_schema.split_step
                    (upload_schema.mk_splitter [] ([q] ++ body)
                       (Str.ascii_eqb q upload_schema.single_quote)
                       (Str.ascii_eqb q upload_schema.double_quote) false) q
                  = upload_schema.mk_splitter [] (([q] ++ body) ++ [q])
                      false false false)
    by (destruct Hq as [-> | ->]; reflexivity).
  cbn [fold_left]. rewrite Hlast.
  unfold upload_schema.finish.
  cbn [upload_schema.current upload_schema.statements app].
  assert (Hstrip : Str.strip (Str.of_chars (q :: body ++ [q]))
                   = Str.of_chars (q :: body ++ [q])).
  { unfold Str.strip. rewrite to_of_chars. f_equal. apply strip_fixed.
    - destruct Hq as [-> | ->]; reflexivity.
    - change (q :: body ++ [q]) with ((q :: body) ++ [q]). rewrite last_snoc.
      destruct Hq as [-> | ->]; reflexivity. }
  rewrite Hstrip. reflexivity.
Qed.

Lemma quoted_semicolons_do_not_split_witness :
  upload_schema._split_statements "'a;b;c'" = ["'a;b;c'"].
Proof.
  apply (quoted_semicolons_do_not_split "'" (Str.to_chars "a;b;c"));
    [now left | reflexivity].
Defined.

(** ** The comment stripper of the schema uploader *)

Lemma starts_with_mark (l : Str.chars) :
  Str.starts_with upload_schema.comment_mark l = true <->
  exists t, l = "/"%char :: "/"%char :: t.
Proof.
  unfold upload_schema.comment_mark. split.
  - destruct l as [|a [|b t]]; cbn [Str.starts_with];
      rewrite ?andb_false_r; try discriminate.
    rewrite andb_true_r. intros [Ha Hb]%andb_true_iff.
    apply ascii_eqb_true in Ha, Hb. subst. eauto.
  - intros (t & ->). reflexivity.
Qed.

Lemma contains_cons (sub : Str.chars) (c : ascii) (l : Str.chars) :
  upload_schema.contains sub (c :: l)
  = Str.starts_with sub (c :: l) || upload_schema.contains sub l.
Proof. reflexivity. Qed.

Lemma starts_with_app (sub l post : Str.chars) :
  Str.starts_with sub l = true -> Str.starts_with sub (l ++ post) = true.
Proof.
  revert l. induction sub as [|a sub IH]; intros l; [reflexivity|].
  destruct l as [|b l]; [discriminate|]. cbn [Str.starts_with app].
  intros [Hab Hl]%andb_true_iff. rewrite Hab. now apply IH.
Qed.

Lemma starts_with_contains (sub l : Str.chars) :
  Str.starts_with sub l = true -> upload_schema.contains sub l = true.
Proof. intros H. destruct l; cbn [upload_schema.contains]; now rewrite H. Qed.

Lemma contains_infix (sub a l : Str.chars) :
  infix a l -> upload_schema.contains sub a = true ->
  upload_schema.contains sub l = true.
Proof.
  intros (pre & post & ->) Ha. induction pre as [|c pre IH]; cbn [app].
  - clear -Ha. induction a as [|c a IH].
    + cbn [upload_schema.contains] in Ha. rewrite orb_false_r in Ha.
      apply starts_with_contains. destruct sub; [reflexivity | discriminate].
    + rewrite contains_cons in Ha. apply orb_true_iff in Ha as [Ha | Ha].
      * apply starts_with_contains.
        now apply (starts_with_app sub (c :: a) post).
      * cbn [app]. rewrite contains_cons, (IH Ha). apply orb_true_r.
  - rewrite contains_cons, IH. apply orb_true_r.
Qed.


Lemma before_prefix (sub l : Str.chars) :
  exists post, l = upload_schema.before sub l ++ post.
Proof.
  induction l as [|c l (post & IH)]; cbn [upload_schema.before].
  - exists []. now destruct (Str.starts_with sub []).
  - destruct (Str.starts_with sub (c :: l)); [now exists (c :: l)|].
    exists post. cbn [app]. now rewrite <- IH.
Qed.

Lemma before_no_mark (l : Str.chars) :
  no_comment_mark (upload_schema.before upload_schema.comment_mark l).
Proof.
  unfold no_comment_mark. induction l as [|c l IH]; [reflexivity|].
  cbn [upload_schema.before].
  destruct (Str.starts_with upload_schema.comment_mark (c :: l)) eqn:Hs;
    [reflexivity|].
  rewrite contains_cons, IH, orb_false_r.
  apply not_true_iff_false. intros (t & Ht)%starts_with_mark.
  apply not_true_iff_false in Hs. apply Hs, starts_with_mark.
  injection Ht as -> Ht. destruct l as [|b l]; [discriminate|].
  cbn [upload_schema.before] in Ht.
  destruct (Str.starts_with upload_schema.comment_mark (b :: l));
    [discriminate|].
  injection Ht as -> _. eauto.
Qed.

Lemma before_unmarked (l : Str.chars) :
  no_comment_mark l -> upload_schema.before upload_schema.comment_mark l = l.
Proof.
  unfold no_comment_mark. induction l as [|c l IH]; [reflexivity|].
  rewrite contains_cons. intros [Hs Hl]%orb_false_iff.
  cbn [upload_schema.before]. rewrite Hs. f_equal. now apply IH.
Qed.

Lemma contains_line_break (w rest : Str.chars) :
  upload_schema.contains upload_schema.comment_mark (w ++ upload_schema.LF :: rest)
  = upload_schema.contains upload_schema.comment_mark w
    || upload_schema.contains upload_schema.comment_mark rest.
Proof.
  induction w as [|c w IH]; cbn [app].
  - rewrite contains_cons. reflexivity.
  - rewrite !contains_cons, IH, orb_assoc. f_equal. f_equal.
    destruct w as [|b w]; [|reflexivity].
    unfold upload_schema.comment_mark. cbn [app Str.starts_with].
    now rewrite !andb_false_r.
Qed.

Lemma join_lines_no_mark (lines : list Str.chars) :
  (forall w, w ∈ lines -> no_comment_mark w) ->
  no_comment_mark (Str.join_chars upload_schema.LF lines).
Proof.
  unfold no_comment_mark. induction lines as [|w lines IH]; intros Hall;
    [reflexivity|].
  destruct lines as [|w2 lines]; [apply Hall; left|].
  change (Str.join_chars upload_schema.LF (w :: w2 :: lines))
    with (w ++ upload_schema.LF :: Str.join_chars upload_schema.LF (w2 :: lines)).
  rewrite contains_line_break, (Hall w) by left.
  apply IH. intros w' Hw'. apply Hall. now right.
Qed.

Lemma drop_while_snoc (p : ascii -> bool) (l : Str.chars) (c : ascii) :
  p c = false -> Str.drop_while p (l ++ [c]) = Str.drop_while p l ++ [c].
Proof.
  intros Hc. induction l as [|x l IH]; cbn [app Str.drop_while].
  - now rewrite Hc.
  - destruct (p x); [exact IH | reflexivity].
Qed.

Lemma rstrip_cons (p : ascii -> bool) (c : ascii) (l : Str.chars) :
  p c = false -> Str.rstrip_by p (c :: l) = c :: Str.rstrip_by p l.
Proof.
  intros Hc. unfold Str.rstrip_by. cbn [rev].
  rewrite drop_while_snoc by exact Hc. rewrite rev_app_distr. reflexivity.
Qed.

Lemma drop_while_spaces (pre l : Str.chars) :
  Forall (fun c => Str.is_space c = true) pre ->
  Str.drop_while Str.is_space (pre ++ l) = Str.drop_while Str.is_space l.
Proof.
  induction 1 as [|c pre Hc _ IH]; [reflexivity|].
  cbn [app Str.drop_while]. now rewrite Hc.
Qed.

Lemma before_spaces (pre l : Str.chars) :
  Forall (fun c => Str.is_space c = true) pre ->
  upload_schema.before upload_schema.comment_mark (pre ++ l)
  = pre ++ upload_schema.before upload_schema.comment_mark l.
Proof.
  induction 1 as [|c pre Hc _ IH]; [reflexivity|].
  cbn [app upload_schema.before].
  destruct (Str.starts_with upload_schema.comment_mark (c :: pre ++ l)) eqn:Hs.
  - apply starts_with_mark in Hs as (t & [= -> _]). discriminate.
  - now rewrite IH.
Qed.

(** The first character of a line that is kept comes before its first
    ["//"], so what is left of the line is not blank. *)
Lemma strip_line_clean (line kept : Str.chars) :
  forallb (fun c => negb (upload_schema.is_linebreak c)) line = true ->
  upload_schema.strip_line line = Some kept ->
  kept = upload_schema.before upload_schema.comment_mark line
  /\ infix kept line /\ clean_line kept.
Proof.
  intros Hbreaks. unfold upload_schema.strip_line.
  rewrite to_chars_strip, to_of_chars. unfold Str.lstrip_by.
  destruct (drop_while_split Str.is_space line) as (pre & Hline & Hpre & Hhd).
  destruct (Str.drop_while Str.is_space line) as [|c t] eqn:Hdrop.
  { discriminate. }
  rewrite rstrip_cons by exact Hhd.
  destruct (Str.starts_with upload_schema.comment_mark
              (c :: Str.rstrip_by Str.is_space t)) eqn:Hstart; [discriminate|].
  intros [= <-].
  assert (Hkept : (if upload_schema.contains upload_schema.comment_mark line
                   then upload_schema.before upload_schema.comment_mark line
                   else line)
                  = upload_schema.before upload_schema.comment_mark line).
  { destruct (upload_schema.contains _ line) eqn:Hc; [reflexivity|].
    symmetry. now apply before_unmarked. }
  rewrite Hkept. split; [reflexivity|].
  destruct (before_prefix upload_schema.comment_mark line) as (post & Hpost).
  assert (Hinfix : infix (upload_schema.before upload_schema.comment_mark line) line).
  { exists [], post. exact Hpost. }
  split; [exact Hinfix|]. split; [|split].
  - (* not blank *)
    assert (Hnot : Str.starts_with upload_schema.comment_mark (c :: t) = false).
    { apply not_true_iff_false. intros (t' & [= -> ->])%starts_with_mark.
      rewrite rstrip_cons in Hstart by reflexivity. discriminate. }
    rewrite Hline, before_spaces by exact Hpre.
    cbn [upload_schema.before]. rewrite Hnot.
    intros Hblank. apply (f_equal Str.to_chars) in Hblank.
    rewrite to_chars_strip, to_of_chars in Hblank. unfold Str.lstrip_by in Hblank.
    rewrite drop_while_spaces in Hblank by exact Hpre.
    cbn [Str.drop_while] in Hblank. rewrite Hhd in Hblank.
    rewrite rstrip_cons in Hblank by exact Hhd. discriminate.
  - (* no line boundary *)
    rewrite Hpost, forallb_app in Hbreaks.
    now apply andb_true_iff in Hbreaks as [Hb _].
  - apply before_no_mark.
Qed.

Lemma splitlines_no_break (l : Str.chars) (w : Str.chars) :
  w ∈ upload_schema.splitlines l ->
  forallb (fun c => negb (upload_schema.is_linebreak c)) w = true.
Proof.
  remember (length l) as n eqn:Hn. revert l Hn w.
  induction n as [n IH] using lt_wf_ind. intros l Hn w.
  destruct l as [|c l]; cbn [upload_schema.splitlines].
  { intros Hw. now apply not_elem_of_nil in Hw. }
  cbn [length] in Hn. destruct (upload_schema.is_linebreak c) eqn:Hc.
  - intros [-> | Hw]%elem_of_cons; [reflexivity|].
    destruct l as [|c' l'']; [now apply not_elem_of_nil in Hw|].
    cbn [length] in Hn.
    destruct (_ && _); [apply (IH (length l'')) with (l := l'') (w := w)
                       | apply (IH (S (length l''))) with (l := c' :: l'') (w := w)];
      try lia; try reflexivity; exact Hw.
  - specialize (IH (length l) ltac:(lia) l eq_refl).
    destruct (upload_schema.splitlines l) as [|line rest].
    + intros ->%list_elem_of_singleton. cbn [forallb]. now rewrite Hc.
    + intros [-> | Hw]%elem_of_cons.
      * cbn [forallb]. rewrite Hc. cbn [negb andb]. apply IH. left.
      * apply IH. now right.
Qed.

Lemma splitlines_line (w : Str.chars) :
  forallb (fun c => negb (upload_schema.is_linebreak c)) w = true ->
  w <> [] -> upload_schema.splitlines w = [w].
Proof.
  induction w as [|c w IH]; [congruence|]. cbn [forallb].
  intros [Hc Hw]%andb_true_iff _. apply negb_true_iff in Hc.
  cbn [upload_schema.splitlines]. rewrite Hc.
  destruct w as [|c' w]; [reflexivity|]. now rewrite IH.
Qed.

Lemma splitlines_break (w rest : Str.chars) :
  forallb (fun c => negb (upload_schema.is_linebreak c)) w = true ->
  upload_schema.splitlines (w ++ upload_schema.LF :: rest)
  = w :: upload_schema.splitlines rest.
Proof.
  induction w as [|c w IH]; cbn [forallb app].
  - intros _. cbn [upload_schema.splitlines].
    change (upload_schema.is_linebreak upload_schema.LF) with true.
    cbv iota. now destruct rest.
  - intros [Hc Hw]%andb_true_iff. apply negb_true_iff in Hc.
    cbn [upload_schema.splitlines]. rewrite Hc. now rewrite IH.
Qed.

Lemma splitlines_join (lines : list Str.chars) :
  (forall w, w ∈ lines ->
     forallb (fun c => negb (upload_schema.is_linebreak c)) w = true /\ w <> []) ->
  upload_schema.splitlines (Str.join_chars upload_schema.LF lines) = lines.
Proof.
  induction lines as [|w lines IH]; intros Hall; [reflexivity|].
  destruct (Hall w) as [Hw Hne]; [left|].
  destruct lines as [|w2 lines]; [now apply splitlines_line|].
  change (Str.join_chars upload_schema.LF (w :: w2 :: lines))
    with (w ++ upload_schema.LF :: Str.join_chars upload_schema.LF (w2 :: lines)).
  rewrite splitlines_break by exact Hw. f_equal.
  apply IH. intros w' Hw'. apply Hall. now right.
Qed.

Lemma clean_line_nonempty (line : Str.chars) : clean_line line -> line <> [].
Proof. intros [Hblank _] ->. now apply Hblank. Qed.

Lemma clean_line_kept (line : Str.chars) :
  clean_line line -> upload_schema.strip_line line = Some line.
Proof.
  intros (Hblank & Hbreaks & Hmark).
  destruct (upload_schema.strip_line line) as [kept|] eqn:Hs.
  - apply strip_line_clean in Hs as [-> _]; [|exact Hbreaks].
    f_equal. now apply before_unmarked.
  - exfalso. unfold upload_schema.strip_line in Hs.
    destruct (Str.to_chars (Str.strip (Str.of_chars line))) as [|c t] eqn:Hst.
    + apply Hblank. rewrite <- (of_to_chars (Str.strip _)), Hst. reflexivity.
    + destruct (Str.starts_with upload_schema.comment_mark (c :: t)) eqn:Hstart;
        [|discriminate].
      apply starts_with_contains in Hstart.
      assert (Hin : infix (c :: t) line).
      { rewrite <- Hst, to_chars_strip, to_of_chars. unfold Str.lstrip_by.
        destruct (drop_while_split Str.is_space line) as (pre & Hl & _).
        destruct (rstrip_by_split Str.is_space (Str.drop_while Str.is_space line))
          as (post & Hr & _).
        exists pre, post. rewrite Hl at 1. now rewrite Hr at 1. }
      pose proof (contains_infix _ _ _ Hin Hstart) as Hc.
      unfold no_comment_mark in Hmark. congruence.
Qed.

Lemma kept_lines_clean (script : string) (line : Str.chars) :
  line ∈ omap upload_schema.strip_line
           (upload_schema.splitlines (Str.to_chars script)) ->
  clean_line line.
Proof.
  intros (raw & Hraw & Hkept)%list_elem_of_omap.
  apply splitlines_no_break in Hraw.
  now apply strip_line_clean in Hkept as (_ & _ & Hclean).
Qed.

Lemma omap_fixed {A} (f : A -> option A) (l : list A) :
  (forall x, x ∈ l -> f x = Some x) -> omap f l = l.
Proof.
  induction l as [|x l IH]; intros Hf; [reflexivity|].
  cbn [omap list_omap]. rewrite (Hf x) by left. f_equal.
  apply IH. intros y Hy. apply Hf. now right.
Qed.

Lemma cleaned_no_mark (script : string) :
  no_comment_mark (Str.to_chars (upload_schema._strip_cypher_comments script)).
Proof.
  unfold upload_schema._strip_cypher_comments. rewrite to_of_chars.
  apply join_lines_no_mark. intros w Hw.
  now apply kept_lines_clean in Hw as (_ & _ & Hmark).
Qed.

(** X19.  The cleaned script has no ["//"] anywhere and no blank line:
    its lines are lines of the script, each cut at its first ["//"],
    and every one of them still holds a character that is not
    whitespace. *)
Theorem cleaned_script_has_no_comments (script : string) :
  no_comment_mark (Str.to_chars (upload_schema._strip_cypher_comments script))
  /\ forall line,
       line ∈ upload_schema.splitlines
                (Str.to_chars (upload_schema._strip_cypher_comments script)) ->
       clean_line line
       /\ exists raw,
            raw ∈ upload_schema.splitlines (Str.to_chars script)
            /\ line = upload_schema.before upload_schema.comment_mark raw.
Proof.
  split; [apply cleaned_no_mark|].
  unfold upload_schema._strip_cypher_comments. rewrite to_of_chars.
  rewrite splitlines_join.
  - intros line Hline. split; [now apply (kept_lines_clean script)|].
    apply list_elem_of_omap in Hline as (raw & Hraw & Hkept).
    exists raw. split; [exact Hraw|].
    apply strip_line_clean in Hkept as [Hk _]; [exact Hk|].
    now apply splitlines_no_break in Hraw.
  - intros w Hw. apply kept_lines_clean in Hw as Hclean.
    split; [apply Hclean | now apply clean_line_nonempty].
Qed.

(** X20.  Removing the comments is idempotent: cleaning a cleaned
    script returns it unchanged. *)
Theorem strip_comments_idempotent (script : string) :
  upload_schema._strip_cypher_comments (upload_schema._strip_cypher_comments script)
  = upload_schema._strip_cypher_comments script.
Proof.
  assert (Hcleaned : upload_schema._strip_cypher_comments script
                   = Str.of_chars
                       (Str.join_chars upload_schema.LF
                          (omap upload_schema.strip_line
                             (upload_schema.splitlines (Str.to_chars script)))))
    by reflexivity.
  rewrite Hcleaned. unfold upload_schema._strip_cypher_comments.
  rewrite to_of_chars. f_equal. f_equal.
  rewrite splitlines_join.
  - apply omap_fixed. intros line Hline.
    now apply clean_line_kept, (kept_lines_clean script).
  - intros w Hw. apply kept_lines_clean in Hw as Hclean.
    split; [apply Hclean | now apply clean_line_nonempty].
Qed.

(** ** What the uploader sends *)






Lemma before_at (pre post : Str.chars) :
  no_comment_mark pre -> last pre <> Some "/"%char ->
  upload_schema.before upload_schema.comment_mark
    (pre ++ upload_schema.comment_mark ++ post) = pre.
Proof.
  unfold no_comment_mark. induction pre as [|c pre IH]; intros Hmark Hlast.
  - reflexivity.
  - rewrite contains_cons in Hmark. apply orb_false_iff in Hmark as [Hs Hmark].
    cbn [app upload_schema.before].
    destruct (Str.starts_with upload_schema.comment_mark
                (c :: pre ++ upload_schema.comment_mark ++ post)) eqn:Hstart.
    + exfalso. apply starts_with_mark in Hstart as (t & [= -> Ht]).
      destruct pre as [|b pre].
      * now apply Hlast.
      * injection Ht as -> _. discriminate.
    + f_equal. apply IH; [exact Hmark|].
      destruct pre as [|b pre]; [discriminate | exact Hlast].
Qed.

Lemma strip_line_cut (pre post : Str.chars) :
  no_comment_mark pre -> last pre <> Some "/"%char ->
  Str.strip (Str.of_chars pre) <> "" ->
  upload_schema.strip_line (pre ++ upload_schema.comment_mark ++ post) = Some pre.
Proof.
  intros Hmark Hlast Hblank.
  set (line := pre ++ upload_schema.comment_mark ++ post).
  assert (Hbefore : upload_schema.before upload_schema.comment_mark line = pre)
    by now apply before_at.
  assert (Hcontains : upload_schema.contains upload_schema.comment_mark line = true).
  { apply (contains_infix _ upload_schema.comment_mark).
    - now exists pre, post.
    - reflexivity. }
  destruct (drop_while_split Str.is_space pre) as (ws & Hpre & Hws & Hhd).
  destruct (Str.drop_while Str.is_space pre) as [|c t] eqn:Hdrop.
  { exfalso. apply Hblank. unfold Str.strip, Str.lstrip_by.
    rewrite to_of_chars, Hdrop. reflexivity. }
  assert (Hline : Str.drop_while Str.is_space line
                  = c :: t ++ upload_schema.comment_mark ++ post).
  { unfold line. rewrite Hpre, <- app_assoc, drop_while_spaces by exact Hws.
    cbn [app Str.drop_while]. now rewrite Hhd. }
  unfold upload_schema.strip_line.
  rewrite to_chars_strip, to_of_chars. unfold Str.lstrip_by.
  rewrite Hline, rstrip_cons by exact Hhd.
  destruct (rstrip_by_split Str.is_space
              (t ++ upload_schema.comment_mark ++ post)) as (sp & Hsp & _).
  remember (Str.rstrip_by Str.is_space
              (t ++ upload_schema.comment_mark ++ post)) as r eqn:Hr.
  destruct (Str.starts_with upload_schema.comment_mark (c :: r)) eqn:Hstart.
  - exfalso. apply starts_with_mark in Hstart as (t' & [= -> ->]).
    assert (Hcut : upload_schema.before upload_schema.comment_mark line = ws).
    { unfold line. rewrite Hpre, <- app_assoc, before_spaces by exact Hws.
      cbn [app]. rewrite Hsp. cbn [app upload_schema.before].
      change (Str.starts_with upload_schema.comment_mark
                ("/"%char :: "/"%char :: t' ++ sp)) with true.
      cbv iota. now rewrite app_nil_r. }
    rewrite Hbefore in Hcut. rewrite Hcut in Hdrop.
    rewrite <- (app_nil_r ws), drop_while_spaces in Hdrop by exact Hws.
    discriminate.
  - rewrite Hcontains, Hbefore. reflexivity.
Qed.

(** X22.  The comment stripper does not look at quotes.  On a one-line
    script, everything from the first ["//"] on is dropped even when it
    sits inside a string literal: the cleaned script is the text before
    it, and the uploader sends the statements of that text alone. *)
Theorem comment_cut_ignores_quotes (pre post : Str.chars) :
  forallb (fun c => negb (upload_schema.is_linebreak c)) (pre ++ post) = true ->
  no_comment_mark pre -> last pre <> Some "/"%char ->
  Str.strip (Str.of_chars pre) <> "" ->
  upload_schema._strip_cypher_comments
    (Str.of_chars (pre ++ upload_schema.comment_mark ++ post))
  = Str.of_chars pre
  /\ upload_schema.run_cypher_script
       (Str.of_chars (pre ++ upload_schema.comment_mark ++ post))
     = upload_schema.run_cypher_script (Str.of_chars pre).
Proof.
  intros Hbreaks Hmark Hlast Hblank.
  rewrite forallb_app in Hbreaks. apply andb_true_iff in Hbreaks as [Hpre Hpost].
  assert (Hcut : upload_schema._strip_cypher_comments
                   (Str.of_chars (pre ++ upload_schema.comment_mark ++ post))
                 = Str.of_chars pre).
  { unfold upload_schema._strip_cypher_comments. rewrite to_of_chars.
    rewrite splitlines_line.
    - cbn [omap list_omap]. now rewrite strip_line_cut.
    - rewrite !forallb_app, Hpre, Hpost. reflexivity.
    - destruct pre; discriminate. }
  assert (Hsame : upload_schema._strip_cypher_comments (Str.of_chars pre)
                  = Str.of_chars pre).
  { assert (Hclean : clean_line pre) by (split; [exact Hblank | split; assumption]).
    unfold upload_schema._strip_cypher_comments. rewrite to_of_chars.
    rewrite splitlines_line;
      [|exact Hpre | now apply clean_line_nonempty].
    cbn [omap list_omap]. now rewrite clean_line_kept. }
  split; [exact Hcut|].
  unfold upload_schema.run_cypher_script. now rewrite Hcut, Hsame.
Qed.

Lemma comment_cut_ignores_quotes_witness :
  upload_schema._strip_cypher_comments "RETURN 'http://x.org'; RETURN 1"
  = "RETURN 'http:"
  /\ upload_schema.run_cypher_script "RETURN 'http://x.org'; RETURN 1"
     = [upload_schema.Run 1 1 "RETURN 'http:"].
Proof.
  destruct (comment_cut_ignores_quotes (Str.to_chars "RETURN 'http:")
              (Str.to_chars "x.org'; RETURN 1")) as [Hcut Hrun].
  - reflexivity.
  - reflexivity.
  - discriminate.
  - discriminate.
  - split; [exact Hcut|]. etransitivity; [exact Hrun|]. reflexivity.
Defined.

Lemma split_statements_trimmed_witness : trimmed "RETURN 1".
Proof.
  apply (split_statements_trimmed " RETURN 1 ;; "). vm_compute. left.
Defined.

(** ** Definitions the Python extractor does not see *)

Lemma flat_map_nil {A B} (f : A -> list B) (l : list A) :
  (forall x, x ∈ l -> f x = []) -> flat_map f l = [].
Proof.
  induction l as [|x l IH]; intros Hf; [reflexivity|].
  cbn [flat_map]. rewrite (Hf x) by left. apply IH.
  intros y Hy. apply Hf. now right.
Qed.

(** X23.  The Python extractor records functions, endpoints and call
    sites only for [ast.FunctionDef] nodes.  In a file without such a
    node, for instance one whose handlers are all [async def], the
    record has no function, no endpoint and no call site, whatever
    decorators and calls the file contains. *)
Theorem only_plain_definitions_are_recorded (rel : string) (dump : AST -> string)
    (fname : string) (tree : AST) :
  (forall name args body decorator_list rest,
     ~ subnode (FunctionDef name args body decorator_list rest) tree) ->
  p_functions (python_extract rel dump fname tree) = []
  /\ p_endpoints (python_extract rel dump fname tree) = []
  /\ p_function_calls (python_extract rel dump fname tree) = [].
Proof.
  intros Hno.
  assert (Hwalk : forall n, n ∈ walk tree ->
            node_functions rel n = [] /\ node_endpoints rel n = []
            /\ node_func_defs rel n = []).
  { intros n Hn. apply walk_sound in Hn.
    destruct n; try (repeat split; reflexivity).
    now apply Hno in Hn. }
  rewrite python_extract_functions, python_extract_endpoints, python_extract_calls.
  split; [|split].
  - apply flat_map_nil. intros n Hn. now apply Hwalk.
  - apply flat_map_nil. intros n Hn. now apply Hwalk.
  - rewrite (flat_map_nil (node_func_defs rel)); [reflexivity|].
    intros n Hn. now apply Hwalk.
Qed.

Lemma only_plain_definitions_are_recorded_witness :
  exists r,
    parse_python_file ExampleAsync.env "repo/srv.py" = Ok (Some r)
    /\ p_functions r = [] /\ p_endpoints r = [] /\ p_function_calls r = [].
Proof.
  eexists. split; [vm_compute; reflexivity|].
  apply (only_plain_definitions_are_recorded "srv.py" (fun _ => "<dump>") "srv.py"
           ExampleAsync.tree_srv).
  intros name args body decorator_list rest Hsub.
  apply walk_complete in Hsub. vm_compute in Hsub.
  repeat (apply elem_of_cons in Hsub as [Hsub | Hsub]; [discriminate|]).
  now apply not_elem_of_nil in Hsub.
Defined.
